(** * logr: the asynchronous delivery engine of a log target

    A shallow embedding of [filterstd.go], [metrics.go] and the target
    helper [Basic] (type [Basic], its methods [Start], [Shutdown], [Log],
    [Metrics], [start], [startMetricsUpdater] and [flush]).

    Conventions.
    - Go integers are [Z]; where the code relies on a fixed width the
      wrap-around is written out ([int64_wrap]).
    - A Go interface value that may be [nil] is an [option].
    - Metric handles ([Counter], [Gauge]) are references into a store
      ([gmap]), so that two fields holding the same handle alias.
    - Every method is a function on the explicit state [St] in the monad
      [M], whose results distinguish a normal return from a Go panic.
    - A blocking [select] splits a method in two: the part that runs up to
      the [select], and a resume function taking the case that won, which
      is [None] where that case cannot be taken.  Other goroutines run in
      between, so the resume functions are studied from an arbitrary state.
    - The worker is a step function on its program point ([workerStep]);
      a panic inside a step is recovered as [start] does it.
    - Time enters only as the nanoseconds elapsed since a timer was armed.
      A sender parked in [Log] is resumed by a step of its own, so the
      model allows the timer to win even after room has appeared: every
      run of the program is a run of the model.
    - A started target as a whole is a state with the worker's program
      point and the parked calls of [Log]; its runs are lists of events
      ([sysRun]), and a run ends where a goroutine panics unrecovered. *)

From Stdlib Require Import ZArith Lia Bool List.
From stdpp Require Import base option list gmap strings.
Import ListNotations.

Local Open Scope string_scope.
Local Open Scope list_scope.
Local Open Scope Z_scope.

(* ===================================================================== *)
(** ** Severities ([Level]) and the standard filter                      *)
(* ===================================================================== *)

(** Modelled from the spec: the type of [Level.ID] is declared outside the
    sources.  It is "an ordered identifier", an integer compared with [<=];
    every Go integer type embeds in [Z] with its order. *)
Definition LevelID := Z.

(** Modelled from the spec: the colour constants ("a color hint") are
    declared outside the sources; only their names matter here. *)
Inductive ColorT := NoColor | Red | Green | Yellow | Blue | Magenta | Cyan | White.

(** Modelled from the spec: the declaration of [Level] is outside the
    sources.  The record has the fields the sources read and write: the
    rank [ID], "a short code" [Name], "a display label" [DisplayName], "a
    color hint" [Color], and the [Stacktrace] flag set by
    [GetEnabledLevel]. *)
Record Level := mkLevel {
  ID : LevelID;
  Name : string;
  DisplayName : string;
  Color : ColorT;
  Stacktrace : bool
}.

(** Go's zero value [Level{}]. *)
Definition zeroLevel : Level := mkLevel 0 "" "" NoColor false.

Definition Panic : Level := mkLevel 0 "panic" "PNC" Red false.
Definition Fatal : Level := mkLevel 1 "fatal" "FTL" Red false.
Definition Error : Level := mkLevel 2 "error" "ERR" Red false.
Definition Warn  : Level := mkLevel 3 "warn"  "WRN" Red false.
Definition Info  : Level := mkLevel 4 "info"  "INF" Green false.
Definition Debug : Level := mkLevel 5 "debug" "DBG" Yellow false.
Definition Trace : Level := mkLevel 6 "trace" "TRC" Magenta false.

(** The named severities, most severe first. *)
Definition namedLevels : list Level := [Panic; Fatal; Error; Warn; Info; Debug; Trace].

(** [levelEnabled.Stacktrace = true] *)
Definition setStacktrace (l : Level) : Level :=
  mkLevel (ID l) (Name l) (DisplayName l) (Color l) true.

(** Modelled from the spec: the [Filter] interface is declared outside the
    sources; these are the two methods the target helper calls
    ("Enabled(severity) -> bool, StacktraceRequired(severity) -> bool"). *)
Record Filter := mkFilter {
  IsEnabled : Level -> bool;
  IsStacktraceEnabled : Level -> bool
}.

Module StdFilter.

Record t := mk {
  Lvl : Level;
  Stacktrace : Level
}.

(** The [switch level.ID] of [GetEnabledLevel]: the first matching case
    wins, [default] keeps the argument. *)
Definition canonical (level : Level) : Level :=
  if ID level =? ID Panic then Panic
  else if ID level =? ID Fatal then Fatal
  else if ID level =? ID Error then Error
  else if ID level =? ID Warn then Warn
  else if ID level =? ID Info then Info
  else if ID level =? ID Debug then Debug
  else if ID level =? ID Trace then Trace
  else level.

Definition GetEnabledLevel (lt : t) (level : Level) : Level * bool :=
  let enabled := ID level <=? ID (Lvl lt) in
  let stackTrace := ID level <=? ID (Stacktrace lt) in
  let levelEnabled := if enabled then canonical level else zeroLevel in
  let levelEnabled := if stackTrace then setStacktrace levelEnabled else levelEnabled in
  (levelEnabled, enabled).

Definition IsEnabled (lt : t) (level : Level) : bool :=
  ID level <=? ID (Lvl lt).

Definition IsStacktraceEnabled (lt : t) (level : Level) : bool :=
  ID level <=? ID (Stacktrace lt).

(** [StdFilter] implements [Filter]. *)
Definition asFilter (lt : t) : Filter :=
  mkFilter (IsEnabled lt) (IsStacktraceEnabled lt).

End StdFilter.

(** A severity is named when its rank is that of one of [Panic] .. [Trace]. *)
Definition isNamedRank (id : LevelID) : bool :=
  existsb (fun l => id =? ID l) namedLevels.


(* ===================================================================== *)
(** ** Metrics: handles, the collector and the handle store              *)
(* ===================================================================== *)

(** [Counter] and [Gauge] are interfaces implemented outside the package.
    A handle is the identity of such an object; its value lives in the
    store of the [World] below. *)
Definition Handle := nat.
Definition Counter := Handle.
Definition Gauge := Handle.

Definition DefMetricsUpdateFreqMillis : Z := 15000.

(** The [MetricsCollector] interface.  A factory may hand out a nil
    interface value, hence the [option]. *)
Record MetricsCollector := mkCollector {
  QueueSizeGauge : string -> option Gauge;
  LoggedCounter : string -> option Counter;
  ErrorCounter : string -> option Counter;
  DroppedCounter : string -> option Counter;
  BlockedCounter : string -> option Counter
}.

(** Go's [int64] arithmetic wraps around silently. *)
Definition int64_wrap (z : Z) : Z := (z + 2 ^ 63) mod 2 ^ 64 - 2 ^ 63.

Definition int64_range (z : Z) : Prop := - 2 ^ 63 <= z < 2 ^ 63.

(** [time.Millisecond], in nanoseconds, the unit of [time.Duration]. *)
Definition Millisecond : Z := 1000000.

(** [time.After(d)]: whether its channel can deliver once [elapsed]
    nanoseconds have passed since the call; a duration of zero or less is
    due at once. *)
Definition After_ready (d elapsed : Z) : bool := d <=? elapsed.

(* ===================================================================== *)
(** ** Results of a method: normal return or panic                        *)
(* ===================================================================== *)

Inductive Res (S A : Type) : Type :=
| Ret (a : A) (s : S)
| Panics (v : string) (s : S).

Arguments Ret {S A} a s.
Arguments Panics {S A} v s.

Definition M (S A : Type) : Type := S -> Res S A.

Definition ret {S A} (a : A) : M S A := fun s => Ret a s.

Definition bind {S A B} (c : M S A) (k : A -> M S B) : M S B :=
  fun s => match c s with
           | Ret a s' => k a s'
           | Panics v s' => Panics v s'
           end.

Definition panic {S A} (v : string) : M S A := fun s => Panics v s.

Definition gets {S A} (f : S -> A) : M S A := fun s => Ret (f s) s.

Definition modify {S} (f : S -> S) : M S unit := fun s => Ret tt (f s).

Declare Scope go_scope.
Delimit Scope go_scope with go.
Notation "x <- c ;; k" := (bind c (fun x => k))
  (at level 100, c at next level, right associativity) : go_scope.
Notation "c ;; k" := (bind c (fun _ => k))
  (at level 100, right associativity) : go_scope.

(** The state a method ended in, whether it returned or panicked. *)
Definition finalState {S A} (r : Res S A) : S :=
  match r with Ret _ s => s | Panics _ s => s end.

Definition returned {S A} (r : Res S A) : bool :=
  match r with Ret _ _ => true | Panics _ _ => false end.

(* ===================================================================== *)
(** ** Log records, the owning logger                                     *)
(* ===================================================================== *)

(** Identities of objects the engine only passes around. *)
Definition Target := nat.      (* a value of the [Target] interface *)
Definition LogrRef := nat.     (* a [*Logr] *)
Definition FlushChan := nat.   (* a [chan<- struct{}] carried by a flush marker *)

(** Modelled from the spec: [LogRec] is declared outside the sources.  It is
    "an opaque unit of work" that "exposes a back-reference to its
    originating logger" ([rec.Logger().Logr()], here [recLogr]) and "may
    carry a flush marker" (the [flush] field, non-nil for a marker). *)
Record LogRec := mkLogRec {
  recID : nat;
  recLogr : LogrRef;
  flush : option FlushChan
}.

(** Go errors, by their message. *)
Definition error := string.

Module Logr.

(** Modelled from the spec: the declaration of [Logr] is outside the
    sources.  The record has the fields [SetMetricsCollector] writes, the
    targets, and the "owning-logger callbacks consumed by the engine": the
    overflow hook [OnTargetQueueFull] and the enqueue timeout, a
    [time.Duration] that [Logr.enqueueTimeout()] returns. *)
Record t := mk {
  targets : list Target;
  OnTargetQueueFull : option (option Target -> LogRec -> Z -> bool);
  enqueueTimeout : Z;
  metrics : option MetricsCollector;
  queueSizeGauge : option Gauge;
  loggedCounter : option Counter;
  errorCounter : option Counter
}.

(** Modelled from the spec: [Logr.HasTargets] is not in the sources.
    [SetMetricsCollector] "must be called before any target is added", so
    it answers whether the logger holds at least one target. *)
Definition HasTargets (logr : t) : bool :=
  match targets logr with [] => false | _ :: _ => true end.

Definition SetMetricsCollector (collector : option MetricsCollector) : M t (option error) :=
  fun logr =>
    if HasTargets logr then
      Ret (Some "Logr.SetMetricsCollector must be called before any targets are added.") logr
    else match collector with
         | None => Ret (Some "collector cannot be nil") logr
         | Some c =>
             Ret None
                 (mk (targets logr) (OnTargetQueueFull logr) (enqueueTimeout logr)
                     (Some c)
                     (QueueSizeGauge c "_logr")
                     (LoggedCounter c "_logr")
                     (ErrorCounter c "_logr"))
         end.

End Logr.

(* ===================================================================== *)
(** ** The world outside the engine                                       *)
(* ===================================================================== *)

(** What a [RecordWriter.Write] call does, as the engine sees it. *)
Inductive WriteResult :=
| WriteOk
| WriteErr (e : error)
| WritePanic (v : string).

(** A [RecordWriter]: its answer may depend on the records it was given
    before (any deterministic stateful writer is of this form). *)
Record RecordWriter := mkWriter {
  Write : list LogRec -> LogRec -> WriteResult
}.

(** Modelled from the spec: formatters are declared outside the sources and
    are "opaque to this core"; [DefaultFormatter] is the "minimal default"
    [Start] falls back to. *)
Inductive Formatter :=
| DefaultFormatter
| UserFormatter (id : nat).

(** The effects of the engine on its collaborators. *)
Record World := mkWorld {
  counters : gmap Handle nat;          (* value of every Counter *)
  gauges : gmap Handle nat;            (* value of every Gauge *)
  reported : list (LogrRef * error);   (* calls of Logr.ReportError, oldest first *)
  stderr : list string;                (* lines written to os.Stderr *)
  written : list LogRec;               (* records handed to Write, oldest first *)
  flushed : list FlushChan             (* flush channels signalled, oldest first *)
}.

Definition counterValue (h : Counter) (wd : World) : nat :=
  default 0%nat (counters wd !! h).

Arguments counterValue h%_nat wd.

(** [Counter.Inc] *)
Definition Inc (h : Counter) (wd : World) : World :=
  mkWorld (<[h := S (counterValue h wd)]> (counters wd)) (gauges wd)
          (reported wd) (stderr wd) (written wd) (flushed wd).

(** [if c != nil { c.Inc() }] *)
Definition IncIfSet (c : option Counter) (wd : World) : World :=
  match c with Some h => Inc h wd | None => wd end.

(** [Gauge.Set] *)
Definition GaugeSet (h : Gauge) (v : nat) (wd : World) : World :=
  mkWorld (counters wd) (<[h := v]> (gauges wd))
          (reported wd) (stderr wd) (written wd) (flushed wd).

(** Modelled from the spec: [Logr.ReportError] is not in the sources; it is
    the owning logger's "error-reporting sink", of which the calls are
    recorded. *)
Definition ReportError (lgr : LogrRef) (e : error) (wd : World) : World :=
  mkWorld (counters wd) (gauges wd) (reported wd ++ [(lgr, e)])
          (stderr wd) (written wd) (flushed wd).

Definition Fprintln_stderr (line : string) (wd : World) : World :=
  mkWorld (counters wd) (gauges wd) (reported wd)
          (stderr wd ++ [line]) (written wd) (flushed wd).

Definition noteWrite (rec : LogRec) (wd : World) : World :=
  mkWorld (counters wd) (gauges wd) (reported wd)
          (stderr wd) (written wd ++ [rec]) (flushed wd).

(** [done <- struct{}{}] on the channel of a flush marker. *)
Definition signalFlush (d : FlushChan) (wd : World) : World :=
  mkWorld (counters wd) (gauges wd) (reported wd)
          (stderr wd) (written wd) (flushed wd ++ [d]).

Definition emptyWorld : World := mkWorld ∅ ∅ [] [] [] [].

(* ===================================================================== *)
(** ** Channels                                                           *)
(* ===================================================================== *)

(** The receive side of [b.in]: the worker is the only receiver.  A send
    that finds the worker parked hands the record over directly. *)
Inductive RecvQ :=
| NoReceiver
| ReceiverParked
| ReceiverWoken (rec : LogRec).

(** [chan *LogRec] made with [make(chan *LogRec, cap)]. *)
Record Chan := mkChan {
  buf : list LogRec;
  cap : nat;
  closed : bool;
  recvq : RecvQ
}.

Definition makeChan (n : nat) : Chan := mkChan [] n false NoReceiver.

(** Whether a send on an open channel can proceed at once. *)
Definition sendReady (c : Chan) : bool :=
  match recvq c with
  | ReceiverParked => true
  | _ => (length (buf c) <? cap c)%nat
  end.

(** The send itself, when [sendReady]. *)
Definition send (rec : LogRec) (c : Chan) : Chan :=
  match recvq c with
  | ReceiverParked => mkChan (buf c) (cap c) (closed c) (ReceiverWoken rec)
  | _ => mkChan (buf c ++ [rec]) (cap c) (closed c) (recvq c)
  end.

(** Records accepted by the channel and not yet received, oldest first. *)
Definition pending (c : Chan) : list LogRec :=
  match recvq c with
  | ReceiverWoken r => r :: buf c
  | _ => buf c
  end.

(** A receive that does not wait: the next record, if one is there. *)
Definition recvNow (c : Chan) : option (LogRec * Chan) :=
  match recvq c with
  | ReceiverWoken r => Some (r, mkChan (buf c) (cap c) (closed c) NoReceiver)
  | _ => match buf c with
         | r :: q => Some (r, mkChan q (cap c) (closed c) NoReceiver)
         | [] => None
         end
  end.

Definition park (c : Chan) : Chan := mkChan (buf c) (cap c) (closed c) ReceiverParked.

Definition closeChan (c : Chan) : Chan := mkChan (buf c) (cap c) true (recvq c).

(** A receiver parks only on an empty buffer, and the buffer never holds
    more than its capacity. *)
Definition wfChan (c : Chan) : bool :=
  (length (buf c) <=? cap c)%nat
  && match recvq c with
     | ReceiverParked => match buf c with [] => true | _ => false end
     | _ => true
     end.

(* ===================================================================== *)
(** ** [Basic], the target helper                                         *)
(* ===================================================================== *)

Module Basic.

Record t := mk {
  target : option Target;
  name : string;
  filter : option Filter;
  formatter : option Formatter;
  in_ : option Chan;            (* [in]; nil until Start *)
  done : option bool;           (* [done]; nil until Start, then whether it is closed *)
  w : option RecordWriter;
  queueSizeGauge : option Gauge;
  loggedCounter : option Counter;
  errorCounter : option Counter;
  droppedCounter : option Counter;
  blockedCounter : option Counter;
  metricsUpdateFreqMillis : Z
}.

(** Go's zero value [Basic{}]. *)
Definition zero : t :=
  mk None "" None None None None None None None None None None 0.

Definition with_in (c : option Chan) (b : t) : t :=
  mk (target b) (name b) (filter b) (formatter b) c (done b) (w b)
     (queueSizeGauge b) (loggedCounter b) (errorCounter b)
     (droppedCounter b) (blockedCounter b) (metricsUpdateFreqMillis b).

Definition with_done (d : option bool) (b : t) : t :=
  mk (target b) (name b) (filter b) (formatter b) (in_ b) d (w b)
     (queueSizeGauge b) (loggedCounter b) (errorCounter b)
     (droppedCounter b) (blockedCounter b) (metricsUpdateFreqMillis b).

(** The engine and the world it acts on. *)
Record St := mkSt {
  basic : t;
  world : World
}.

(** The queue of a state is well formed (see [wfChan]). *)
Definition wfSt (s : St) : Prop :=
  match in_ (basic s) with
  | Some c => wfChan c = true
  | None => True
  end.

Definition onBasic (f : t -> t) : M St unit :=
  modify (fun s => mkSt (f (basic s)) (world s)).

Definition onWorld (f : World -> World) : M St unit :=
  modify (fun s => mkSt (basic s) (f (world s))).

(** Goroutines launched with [go]. *)
Inductive Goroutine :=
| GoStart
| GoMetricsUpdater.

(** [cap(b.in)] and [len(b.in)]; both are 0 for a nil channel. *)
Definition capIn (b : t) : Z :=
  match in_ b with Some c => Z.of_nat (cap c) | None => 0 end.

Definition lenIn (b : t) : nat :=
  match in_ b with Some c => length (buf c) | None => 0%nat end.

Section Engine.

(** The loggers records point back to, the [%v] rendering of a record and
    the [%T] rendering of a target: all defined outside the sources. *)
Variable logrs : LogrRef -> Logr.t.
Variable render : LogRec -> string.
Variable typeName : option Target -> string.

(** The largest size [make(chan *LogRec, n)] accepts: it depends on the
    platform (the width of [int] and the allocation limit of the runtime)
    and is no more than the largest [int].  For a negative size and for one
    above this limit [make] panics with the same message. *)
Variable maxChanCap : Z.

Local Open Scope go_scope.

(** *** Start *)

Definition Start (target : option Target) (rw : option RecordWriter)
    (filter : option Filter) (formatter : option Formatter) (maxQueued : Z)
    : M St (list Goroutine) :=
  let filter := match filter with
                | None => Some (StdFilter.asFilter (StdFilter.mk Fatal zeroLevel))
                | Some f => Some f
                end in
  let formatter := match formatter with
                   | None => Some DefaultFormatter
                   | Some f => Some f
                   end in
  onBasic (fun b =>
    mk target (name b) filter formatter (in_ b) (done b) (w b)
       (queueSizeGauge b) (loggedCounter b) (errorCounter b)
       (droppedCounter b) (blockedCounter b) (metricsUpdateFreqMillis b)) ;;
  (if (maxQueued <? 0) || (maxChanCap <? maxQueued)
   then panic "makechan: size out of range" else ret tt) ;;
  onBasic (with_in (Some (makeChan (Z.to_nat maxQueued)))) ;;
  onBasic (with_done (Some false)) ;;
  onBasic (fun b =>
    mk (Basic.target b) (name b) (Basic.filter b) (Basic.formatter b) (in_ b) (done b) rw
       (queueSizeGauge b) (loggedCounter b) (errorCounter b)
       (droppedCounter b) (blockedCounter b) (metricsUpdateFreqMillis b)) ;;
  g <- gets (fun s => queueSizeGauge (basic s)) ;;
  ret (match g with
       | Some _ => [GoStart; GoMetricsUpdater]
       | None => [GoStart]
       end).

Definition SetName (n : string) : M St unit :=
  onBasic (fun b =>
    mk (target b) n (filter b) (formatter b) (in_ b) (done b) (w b)
       (queueSizeGauge b) (loggedCounter b) (errorCounter b)
       (droppedCounter b) (blockedCounter b) (metricsUpdateFreqMillis b)).

(** [IsLevelEnabled]; a nil filter makes the method call panic. *)
Definition IsLevelEnabled (lvl : Level) : M St (bool * bool) :=
  f <- gets (fun s => filter (basic s)) ;;
  match f with
  | Some f => ret (IsEnabled f lvl, IsStacktraceEnabled f lvl)
  | None => panic "runtime error: invalid memory address or nil pointer dereference"
  end.

(** [String] *)
Definition String (b : t) : string :=
  if String.eqb (name b) "" then typeName (target b) else name b.

(** [Metrics] *)
Definition Metrics (collector : option MetricsCollector) (updateFreqMillis : Z)
    : M St unit :=
  onBasic (fun b =>
    mk (target b) (name b) (filter b) (formatter b) (in_ b) (done b) (w b)
       (queueSizeGauge b) (loggedCounter b) (errorCounter b)
       (droppedCounter b) (blockedCounter b) updateFreqMillis) ;;
  match collector with
  | None => panic "runtime error: invalid memory address or nil pointer dereference"
  | Some c =>
      onBasic (fun b =>
        let name := String b in
        mk (target b) (Basic.name b) (filter b) (formatter b) (in_ b) (done b) (w b)
           (QueueSizeGauge c name) (LoggedCounter c name) (ErrorCounter c name)
           (DroppedCounter c name) (BlockedCounter c name)
           (metricsUpdateFreqMillis b))
  end.

(** *** Shutdown *)

(** [close(b.in)] *)
Definition closeIn : M St unit :=
  c <- gets (fun s => in_ (basic s)) ;;
  match c with
  | None => panic "close of nil channel"
  | Some c =>
      if closed c then panic "close of closed channel"
      else onBasic (with_in (Some (closeChan c)))
  end.

(** The two cases of the [select] in [Shutdown]. *)
Inductive ShutdownWake :=
| CtxDone        (* [<-ctx.Done()]: the deadline elapsed or ctx was cancelled *)
| WorkerDone.    (* [<-b.done]: the worker closed [done] *)

(** [Shutdown] up to its [select]. *)
Definition ShutdownBegin : M St unit := closeIn.

(** [Shutdown] from its [select] on, given the case that won: the value
    returned, or [None] when that case cannot be taken in state [s].  The
    context lives outside the engine; [ctxIsDone] says whether its [Done]
    channel is closed by now. *)
Definition ShutdownResume (ctxIsDone : bool) (ev : ShutdownWake) (s : St)
    : option (Res St (option error)) :=
  match ev with
  | CtxDone => if ctxIsDone then Some (Ret None s) else None
  | WorkerDone =>
      match done (basic s) with
      | Some true => Some (Ret None s)
      | _ => None
      end
  end.

(** *** Log *)

(** Where a call of [Log] stands when it stops running. *)
Inductive LogPhase :=
| LogReturned    (* the call returned *)
| LogWaiting.    (* the call is parked in the second [select] *)

Definition Errorf_enqueueTimeout (rec : LogRec) : error :=
  "target enqueue timeout for log rec [" +:+ render rec +:+ "]".

(** The [default] branch of the first [select]. *)
Definition LogQueueFull (rec : LogRec) : M St LogPhase :=
  let lgr := logrs (recLogr rec) in
  b <- gets basic ;;
  let handler := Logr.OnTargetQueueFull lgr in
  if match handler with
     | Some h => h (target b) rec (capIn b)
     | None => false
     end
  then
    onWorld (IncIfSet (droppedCounter b)) ;;
    ret LogReturned
  else
    onWorld (IncIfSet (blockedCounter b)) ;;
    ret LogWaiting.

(** [Log] up to its return or up to the second [select]. *)
Definition Log (rec : LogRec) : M St LogPhase :=
  c <- gets (fun s => in_ (basic s)) ;;
  match c with
  | Some c =>
      if closed c then panic "send on closed channel"
      else if sendReady c then
        onBasic (with_in (Some (send rec c))) ;; ret LogReturned
      else LogQueueFull rec
  | None => LogQueueFull rec
  end.

(** The two cases of the second [select]. *)
Inductive LogWake :=
| TimerFired (elapsed : Z)   (* [<-time.After(lgr.enqueueTimeout())], [elapsed] ns into the wait *)
| SendDone.                  (* [b.in <- rec] *)

(** [Log] from the second [select] on, given the case that won, or [None]
    when that case cannot be taken in state [s]. *)
Definition LogResume (ev : LogWake) (rec : LogRec) (s : St) : option (Res St unit) :=
  let lgr := logrs (recLogr rec) in
  match ev with
  | TimerFired elapsed =>
      if After_ready (Logr.enqueueTimeout lgr) elapsed
      then Some (onWorld (ReportError (recLogr rec) (Errorf_enqueueTimeout rec)) s)
      else None
  | SendDone =>
      match in_ (basic s) with
      | Some c =>
          if closed c then Some (Panics "send on closed channel" s)
          else if sendReady c then Some (onBasic (with_in (Some (send rec c))) s)
          else None
      | None => None
      end
  end.

(** *** The worker: [start] and [flush] *)

(** Where the worker goroutine stands between two steps. *)
Inductive WorkerPC :=
| InRange                   (* at [for rec := range b.in] *)
| InFlush (d : FlushChan)   (* at the [select] of [b.flush(d)] *)
| Exited.                   (* past [close(b.done)] *)

(** [b.w.Write(rec)]: the call is noted, the writer answers. *)
Definition callWrite (rec : LogRec) : M St (option error) :=
  rw <- gets (fun s => w (basic s)) ;;
  match rw with
  | None => panic "runtime error: invalid memory address or nil pointer dereference"
  | Some rw =>
      h <- gets (fun s => written (world s)) ;;
      onWorld (noteWrite rec) ;;
      match Write rw h rec with
      | WriteOk => ret None
      | WriteErr e => ret (Some e)
      | WritePanic v => panic v
      end
  end.

(** The body of the [range] loop for an ordinary record. *)
Definition writeInLoop (rec : LogRec) : M St unit :=
  err <- callWrite rec ;;
  b <- gets basic ;;
  match err with
  | Some e =>
      onWorld (IncIfSet (errorCounter b)) ;;
      onWorld (ReportError (recLogr rec) e)
  | None =>
      onWorld (IncIfSet (loggedCounter b))
  end.

(** The body of the receive case of [flush] for an ordinary record. *)
Definition writeInFlush (rec : LogRec) : M St unit :=
  err <- callWrite rec ;;
  b <- gets basic ;;
  match err with
  | Some e =>
      onWorld (IncIfSet (errorCounter b)) ;;
      onWorld (ReportError (recLogr rec) e)
  | None => ret tt
  end.

(** [close(b.done)] *)
Definition closeDone : M St unit :=
  d <- gets (fun s => done (basic s)) ;;
  match d with
  | None => panic "close of nil channel"
  | Some true => panic "close of closed channel"
  | Some false => onBasic (with_done (Some true))
  end.

(** One iteration of [for rec := range b.in], and what follows the loop. *)
Definition rangeStep : M St WorkerPC :=
  c <- gets (fun s => in_ (basic s)) ;;
  match c with
  | None => ret InRange                       (* a nil channel never delivers *)
  | Some c =>
      match recvNow c with
      | Some (rec, c') =>
          onBasic (with_in (Some c')) ;;
          match flush rec with
          | Some d => ret (InFlush d)
          | None => writeInLoop rec ;; ret InRange
          end
      | None =>
          if closed c then closeDone ;; ret Exited
          else onBasic (with_in (Some (park c))) ;; ret InRange
      end
  end.

(** One iteration of the [for] loop of [flush]. *)
Definition flushStep (d : FlushChan) : M St WorkerPC :=
  c <- gets (fun s => in_ (basic s)) ;;
  match c with
  | None => onWorld (signalFlush d) ;; ret InRange
  | Some c =>
      match recvNow c with
      | Some (rec, c') =>
          onBasic (with_in (Some c')) ;;
          match flush rec with
          | Some _ => ret (InFlush d)         (* a redundant flush marker *)
          | None => writeInFlush rec ;; ret (InFlush d)
          end
      | None =>
          if closed c
          then panic "runtime error: invalid memory address or nil pointer dereference"
               (* a closed, drained channel delivers a nil record *)
          else onWorld (signalFlush d) ;; ret InRange
      end
  end.

(** The deferred function of [start]: a panic is printed and a fresh
    worker takes over at the top of the loop. *)
Definition recovering (c : M St WorkerPC) (s : St) : WorkerPC * St :=
  match c s with
  | Ret pc s' => (pc, s')
  | Panics v s' =>
      (InRange, mkSt (basic s') (Fprintln_stderr ("Basic.start --  " +:+ v) (world s')))
  end.

(** One step of the worker. *)
Definition workerStep (pc : WorkerPC) (s : St) : WorkerPC * St :=
  match pc with
  | InRange => recovering rangeStep s
  | InFlush d => recovering (flushStep d) s
  | Exited => (Exited, s)
  end.

(** [n] steps of the worker, nothing else running in between. *)
Fixpoint workerRun (n : nat) (pc : WorkerPC) (s : St) : WorkerPC * St :=
  match n with
  | O => (pc, s)
  | S n' => let '(pc', s') := workerStep pc s in workerRun n' pc' s'
  end.

(** *** The metrics sampler: [startMetricsUpdater] *)

(** [updateFreq] as the two [if]s leave it, in milliseconds. *)
Definition updateFreq (b : t) : Z :=
  let updateFreq := metricsUpdateFreqMillis b in
  let updateFreq := if updateFreq =? 0 then DefMetricsUpdateFreqMillis else updateFreq in
  if updateFreq <? 250 then 250 else updateFreq.

(** [time.Duration(updateFreq) * time.Millisecond]: the argument of
    [time.After], an [int64] count of nanoseconds. *)
Definition tickDuration (b : t) : Z :=
  int64_wrap (updateFreq b * Millisecond).

(** The two cases of the [select] in the sampler. *)
Inductive SamplerWake :=
| DoneClosed            (* [<-b.done] *)
| Tick (elapsed : Z).   (* [<-time.After(tickDuration b)], [elapsed] ns into the wait *)

(** One iteration of the sampler, given the case that won: whether the
    loop goes on, or [None] when that case cannot be taken. *)
Definition samplerStep (ev : SamplerWake) (s : St) : option (bool * St) :=
  match ev with
  | DoneClosed =>
      match done (basic s) with
      | Some true => Some (false, s)
      | _ => None
      end
  | Tick elapsed =>
      if After_ready (tickDuration (basic s)) elapsed then
        match queueSizeGauge (basic s) with
        | Some g => Some (true, mkSt (basic s) (GaugeSet g (lenIn (basic s)) (world s)))
        | None => Some (true, s)
        end
      else None
  end.

(** [Formatter] *)
Definition Formatter (b : t) : option Formatter := formatter b.

End Engine.

End Basic.

(* ===================================================================== *)
(** ** A target at work: producers, worker and sampler interleaved        *)
(* ===================================================================== *)

(** The records of a list that are no flush marker. *)
Definition ordinary (q : list LogRec) : list LogRec :=
  List.filter (fun r => match flush r with None => true | Some _ => false end) q.

(** The records accepted by the queue of a state and not yet received. *)
Definition pendingSt (s : Basic.St) : list LogRec :=
  match Basic.in_ (Basic.basic s) with
  | Some c => pending c
  | None => []
  end.

(** Whether the first [select] of [Log] takes its send case: the queue is
    there, open, and a send can proceed at once. *)
Definition hasRoom (s : Basic.St) : bool :=
  match Basic.in_ (Basic.basic s) with
  | Some c => negb (closed c) && sendReady c
  | None => false
  end.

(** What [Start] and [Metrics] configure, as opposed to the two channels. *)
Definition config (b : Basic.t) :=
  (Basic.target b, Basic.name b, Basic.filter b, Basic.formatter b, Basic.w b,
   (Basic.queueSizeGauge b, Basic.loggedCounter b, Basic.errorCounter b,
    Basic.droppedCounter b, Basic.blockedCounter b),
   Basic.metricsUpdateFreqMillis b).

(** A started target: the engine state, the program point of its worker,
    the calls of [Log] parked in their second [select], and, as a history
    of the run, the records the queue accepted so far, oldest first. *)
Record Sys := mkSys {
  sysSt : Basic.St;
  workerPc : Basic.WorkerPC;
  parkedLogs : list LogRec;
  accepted : list LogRec
}.

(** What can happen next. *)
Inductive Event :=
| CallLog (rec : LogRec)                  (* a producer calls [Log] *)
| WakeLog (i : nat) (ev : Basic.LogWake)  (* the [i]-th parked call of [Log] goes on *)
| WorkerStep                              (* the worker takes a step *)
| CallShutdown                            (* [Shutdown] closes the queue *)
| SamplerTick (elapsed : Z).              (* the sampler's timer is due *)

Section Runs.

Variable logrs : LogrRef -> Logr.t.
Variable render : LogRec -> string.

(** One event; [None] when it cannot happen in this state or when the
    goroutine taking it panics with no [recover] around it. *)
Definition sysStep (e : Event) (y : Sys) : option Sys :=
  match e with
  | CallLog rec =>
      match Basic.Log logrs rec (sysSt y) with
      | Ret Basic.LogReturned s' =>
          Some (mkSys s' (workerPc y) (parkedLogs y)
                      (if hasRoom (sysSt y)
                       then accepted y ++ [rec] else accepted y))
      | Ret Basic.LogWaiting s' =>
          Some (mkSys s' (workerPc y) (parkedLogs y ++ [rec]) (accepted y))
      | Panics _ _ => None
      end
  | WakeLog i ev =>
      match parkedLogs y !! i with
      | None => None
      | Some rec =>
          match Basic.LogResume logrs render ev rec (sysSt y) with
          | Some (Ret _ s') =>
              Some (mkSys s' (workerPc y) (delete i (parkedLogs y))
                          (match ev with
                           | Basic.SendDone => accepted y ++ [rec]
                           | Basic.TimerFired _ => accepted y
                           end))
          | _ => None
          end
      end
  | WorkerStep =>
      let '(pc', s') := Basic.workerStep (workerPc y) (sysSt y) in
      Some (mkSys s' pc' (parkedLogs y) (accepted y))
  | CallShutdown =>
      match Basic.ShutdownBegin (sysSt y) with
      | Ret _ s' => Some (mkSys s' (workerPc y) (parkedLogs y) (accepted y))
      | Panics _ _ => None
      end
  | SamplerTick elapsed =>
      match Basic.samplerStep (Basic.Tick elapsed) (sysSt y) with
      | Some (_, s') => Some (mkSys s' (workerPc y) (parkedLogs y) (accepted y))
      | None => None
      end
  end.

(** A run: the events one after the other. *)
Fixpoint sysRun (es : list Event) (y : Sys) : option Sys :=
  match es with
  | [] => Some y
  | e :: es' =>
      match sysStep e y with
      | Some y' => sysRun es' y'
      | None => None
      end
  end.

End Runs.

(** The target right after [Start] returned in state [s]. *)
Definition started (s : Basic.St) : Sys := mkSys s Basic.InRange [] [].

(** The worker and its completion signal: either the worker has exited,
    [done] is closed and the queue is closed and drained, or the worker is
    at work and [done] is open. *)
Definition exitInv (y : Sys) : Prop :=
  exists c : Chan,
    Basic.in_ (Basic.basic (sysSt y)) = Some c
    /\ wfChan c = true
    /\ ((workerPc y = Basic.Exited
         /\ Basic.done (Basic.basic (sysSt y)) = Some true
         /\ closed c = true
         /\ pending c = [])
        \/ (workerPc y <> Basic.Exited
            /\ Basic.done (Basic.basic (sysSt y)) = Some false)).

(* ===================================================================== *)
(** ** Sample values                                                      *)
(* ===================================================================== *)

(** A limit of [make] for the samples; the properties hold for every limit. *)
Definition sampleMaxChanCap : Z := 2 ^ 32.

(** A collector handing out five distinct handles per target name. *)
Definition sampleCollector : MetricsCollector :=
  mkCollector (fun _ => Some 0%nat) (fun _ => Some 1%nat) (fun _ => Some 2%nat)
              (fun _ => Some 3%nat) (fun _ => Some 4%nat).

(** Logger 0 has no overflow handler, logger 1 one that always drops,
    every other logger one that never drops. *)
Definition sampleLogrs (r : LogrRef) : Logr.t :=
  Logr.mk [] (match r with
              | O => None
              | S O => Some (fun _ _ _ => true)
              | _ => Some (fun _ _ _ => false)
              end)
          30000000000 None None None None.

Definition sampleRender (rec : LogRec) : string :=
  if Nat.eqb (recID rec) 0 then "rec#0" else "rec".

(** A writer that fails on records with an odd id. *)
Definition sampleWriter : RecordWriter :=
  mkWriter (fun _ rec => if Nat.odd (recID rec) then WriteErr "disk full" else WriteOk).

(** A started target with room for two records and all five handles. *)
Definition sampleBasic : Basic.t :=
  Basic.mk (Some 7%nat) "sample" (Some (StdFilter.asFilter (StdFilter.mk Warn Error)))
           (Some DefaultFormatter) (Some (makeChan 2)) (Some false) (Some sampleWriter)
           (Some 0%nat) (Some 1%nat) (Some 2%nat) (Some 3%nat) (Some 4%nat) 0.

Definition sampleRec (id : nat) (lgr : LogrRef) : LogRec := mkLogRec id lgr None.

Definition sampleFlush (id : nat) (d : FlushChan) : LogRec := mkLogRec id 0%nat (Some d).

Arguments sampleRec (id lgr)%_nat.
Arguments sampleFlush (id d)%_nat.

(** A run of the sample target: a record is dropped on the full queue, the
    worker writes one, another record is accepted, Shutdown closes the
    queue and the worker drains it and exits. *)
Definition sampleEvents : list Event :=
  [CallLog (sampleRec 3 1); WorkerStep; CallLog (sampleRec 4 0); CallShutdown;
   WorkerStep; WorkerStep; WorkerStep].

(** [sampleBasic] with room for eight records and the given ones queued. *)
Definition sampleQueued8 (q : list LogRec) : Basic.St :=
  Basic.mkSt (Basic.with_in (Some (mkChan q 8 false NoReceiver)) sampleBasic) emptyWorld.

(** [sampleBasic] with the given records queued. *)
Definition sampleQueued (q : list LogRec) : Basic.St :=
  Basic.mkSt (Basic.with_in (Some (mkChan q 2 false NoReceiver)) sampleBasic) emptyWorld.

(* ===================================================================== *)
(** * Properties                                                          *)
(* ===================================================================== *)

(** ** The standard filter *)

Example canonical_named :
  StdFilter.canonical (mkLevel 2 "custom" "CST" Blue true) = Error.
Proof. reflexivity. Qed.

Example canonical_unnamed :
  StdFilter.canonical (mkLevel 9 "audit" "AUD" Cyan false)
  = mkLevel 9 "audit" "AUD" Cyan false.
Proof. reflexivity. Qed.

Lemma IsEnabled_le (lt : StdFilter.t) (s : Level) :
  StdFilter.IsEnabled lt s = true <-> ID s <= ID (StdFilter.Lvl lt).
Proof. unfold StdFilter.IsEnabled. apply Z.leb_le. Qed.

Lemma IsStacktraceEnabled_le (lt : StdFilter.t) (s : Level) :
  StdFilter.IsStacktraceEnabled lt s = true <-> ID s <= ID (StdFilter.Stacktrace lt).
Proof. unfold StdFilter.IsStacktraceEnabled. apply Z.leb_le. Qed.

(** The two answers of [GetEnabledLevel] agree with the two predicates. *)
Lemma GetEnabledLevel_enabled (lt : StdFilter.t) (level : Level) :
  snd (StdFilter.GetEnabledLevel lt level) = StdFilter.IsEnabled lt level.
Proof. reflexivity. Qed.

Lemma isNamedRank_false (id : LevelID) :
  isNamedRank id = false <-> ~ (0 <= id <= 6).
Proof.
  unfold isNamedRank, namedLevels. cbn [existsb ID Panic Fatal Error Warn Info Debug Trace].
  rewrite !orb_false_iff.
  repeat match goal with |- context [?a =? ?b] => rewrite (Z.eqb_neq a b) end.
  lia.
Qed.

Lemma canonical_unnamed_id (level : Level) :
  isNamedRank (ID level) = false -> StdFilter.canonical level = level.
Proof.
  intros H. apply isNamedRank_false in H. unfold StdFilter.canonical.
  cbn [ID Panic Fatal Error Warn Info Debug Trace].
  repeat match goal with
         | |- context [?a =? ?b] => destruct (Z.eqb_spec a b); [lia |]
         end.
  reflexivity.
Qed.

(** For a named rank the canonical constant of that rank comes back,
    whatever else the argument carried. *)
Lemma canonical_named_rank (level : Level) :
  isNamedRank (ID level) = true ->
  In (StdFilter.canonical level) namedLevels /\ ID (StdFilter.canonical level) = ID level.
Proof.
  intros H. unfold StdFilter.canonical.
  cbn [ID Panic Fatal Error Warn Info Debug Trace].
  repeat match goal with
         | |- context [?a =? ?b] =>
             destruct (Z.eqb_spec a b) as [->|?]; [cbn; tauto |]
         end.
  exfalso. apply not_false_iff_true in H. apply H. apply isNamedRank_false. lia.
Qed.

(** C4. For every Std filter with level threshold L and stacktrace threshold
    S and every severity s: IsEnabled(s) is true iff rank(s) <= rank(L), and
    IsStacktraceEnabled(s) is true iff rank(s) <= rank(S).  For L = Warn and
    S = Error: Error is enabled, Info is not, Error requires a stack trace,
    Warn does not. *)
Theorem StdFilter_thresholds :
  forall (L S s : Level),
    (StdFilter.IsEnabled (StdFilter.mk L S) s = true <-> ID s <= ID L)
    /\ (StdFilter.IsStacktraceEnabled (StdFilter.mk L S) s = true <-> ID s <= ID S)
    /\ StdFilter.IsEnabled (StdFilter.mk Warn Error) Error = true
    /\ StdFilter.IsEnabled (StdFilter.mk Warn Error) Info = false
    /\ StdFilter.IsStacktraceEnabled (StdFilter.mk Warn Error) Error = true
    /\ StdFilter.IsStacktraceEnabled (StdFilter.mk Warn Error) Warn = false.
Proof.
  intros L S s.
  split; [apply (IsEnabled_le (StdFilter.mk L S)) |].
  split; [apply (IsStacktraceEnabled_le (StdFilter.mk L S)) |].
  repeat split.
Qed.

(** C7. Enablement under a Std filter is monotone in the rank: when
    rank(s1) < rank(s2) and s2 is enabled, s1 is enabled. *)
Theorem StdFilter_monotone :
  forall (lt : StdFilter.t) (s1 s2 : Level),
    ID s1 < ID s2 ->
    StdFilter.IsEnabled lt s2 = true ->
    StdFilter.IsEnabled lt s1 = true.
Proof.
  intros lt s1 s2 Hlt H2.
  apply IsEnabled_le. apply IsEnabled_le in H2. lia.
Qed.

Lemma StdFilter_monotone_witness :
  StdFilter.IsEnabled (StdFilter.mk Warn Error) Error = true.
Proof.
  apply (StdFilter_monotone (StdFilter.mk Warn Error) Error Warn).
  - reflexivity.
  - reflexivity.
Defined.

(** C10. A severity whose rank is none of Panic .. Trace and which is
    enabled comes back from GetEnabledLevel as it went in, except that the
    stacktrace flag is set when the stacktrace threshold asks for it; the
    two rank comparisons are the same as for every other severity. *)
Theorem GetEnabledLevel_unnamed :
  forall (lt : StdFilter.t) (level : Level),
    isNamedRank (ID level) = false ->
    StdFilter.IsEnabled lt level = true ->
    let (l', enabled) := StdFilter.GetEnabledLevel lt level in
    enabled = true
    /\ ID l' = ID level /\ Name l' = Name level
    /\ DisplayName l' = DisplayName level /\ Color l' = Color level
    /\ Stacktrace l' = (Stacktrace level || StdFilter.IsStacktraceEnabled lt level)
    /\ (StdFilter.IsStacktraceEnabled lt level = false -> l' = level)
    /\ (StdFilter.IsEnabled lt level = true <-> ID level <= ID (StdFilter.Lvl lt))
    /\ (StdFilter.IsStacktraceEnabled lt level = true
        <-> ID level <= ID (StdFilter.Stacktrace lt)).
Proof.
  intros lt level Hun Hen.
  pose proof (IsEnabled_le lt level) as HE.
  pose proof (IsStacktraceEnabled_le lt level) as HS.
  assert (E : StdFilter.GetEnabledLevel lt level
              = (if StdFilter.IsStacktraceEnabled lt level
                 then setStacktrace level else level, true)).
  { unfold StdFilter.GetEnabledLevel.
    change (ID level <=? ID (StdFilter.Lvl lt)) with (StdFilter.IsEnabled lt level).
    change (ID level <=? ID (StdFilter.Stacktrace lt))
      with (StdFilter.IsStacktraceEnabled lt level).
    rewrite Hen, (canonical_unnamed_id level Hun). reflexivity. }
  rewrite E. clear E.
  split; [reflexivity |].
  destruct (StdFilter.IsStacktraceEnabled lt level);
    cbn [setStacktrace ID Name DisplayName Color Stacktrace].
  - rewrite orb_true_r. repeat split; try discriminate; tauto.
  - rewrite orb_false_r. repeat split; tauto.
Qed.

Lemma GetEnabledLevel_unnamed_witness :
  let (l', enabled) :=
    StdFilter.GetEnabledLevel (StdFilter.mk (mkLevel 10 "all" "ALL" NoColor false) Error)
                              (mkLevel 9 "audit" "AUD" Cyan false) in
  enabled = true
  /\ ID l' = 9 /\ Name l' = "audit" /\ DisplayName l' = "AUD" /\ Color l' = Cyan
  /\ Stacktrace l' = false.
Proof.
  pose proof (GetEnabledLevel_unnamed
                (StdFilter.mk (mkLevel 10 "all" "ALL" NoColor false) Error)
                (mkLevel 9 "audit" "AUD" Cyan false) eq_refl eq_refl) as H.
  cbv in H |- *. tauto.
Defined.

(** ** Metrics *)

Lemma int64_wrap_id (z : Z) : int64_range z -> int64_wrap z = z.
Proof.
  unfold int64_range, int64_wrap. intros H.
  rewrite Z.mod_small by lia. lia.
Qed.

(** The value left by the two [if]s, in milliseconds, for every [int64]. *)
Lemma updateFreq_cases (b : Basic.t) :
  let u := Basic.metricsUpdateFreqMillis b in
  (250 <= u -> Basic.updateFreq b = u)
  /\ (u = 0 -> Basic.updateFreq b = 15000)
  /\ (u < 250 -> u <> 0 -> Basic.updateFreq b = 250).
Proof.
  unfold Basic.updateFreq, DefMetricsUpdateFreqMillis. cbv zeta.
  destruct (Z.eqb_spec (Basic.metricsUpdateFreqMillis b) 0) as [->|Hz].
  - cbn. lia.
  - destruct (Z.ltb_spec (Basic.metricsUpdateFreqMillis b) 250); lia.
Qed.

Lemma updateFreq_floor (b : Basic.t) : 250 <= Basic.updateFreq b.
Proof.
  unfold Basic.updateFreq, DefMetricsUpdateFreqMillis.
  destruct (Basic.metricsUpdateFreqMillis b =? 0).
  - cbn. lia.
  - destruct (Z.ltb_spec (Basic.metricsUpdateFreqMillis b) 250); lia.
Qed.

(** Up to 9223372036854 ms the duration handed to [time.After] is the
    value in milliseconds, converted. *)
Lemma tickDuration_no_overflow (b : Basic.t) :
  Basic.metricsUpdateFreqMillis b <= 9223372036854 ->
  Basic.tickDuration b = Basic.updateFreq b * Millisecond
  /\ 250 * Millisecond <= Basic.tickDuration b.
Proof.
  intros Hle. pose proof (updateFreq_floor b) as Hfl.
  assert (Hup : Basic.updateFreq b <= 9223372036854).
  { pose proof (updateFreq_cases b) as (H1 & H2 & H3). cbv zeta in H1, H2, H3.
    destruct (Z.eq_dec (Basic.metricsUpdateFreqMillis b) 0) as [Hz|Hz]; [rewrite (H2 Hz); lia |].
    destruct (Z.lt_ge_cases (Basic.metricsUpdateFreqMillis b) 250) as [Hlt|Hge].
    - rewrite (H3 Hlt Hz). lia.
    - rewrite (H1 Hge). lia. }
  unfold Basic.tickDuration. rewrite int64_wrap_id.
  - unfold Millisecond. lia.
  - unfold int64_range, Millisecond. lia.
Qed.

(** Up to that bound the sampler samples exactly when the interval in
    milliseconds has elapsed, never before the 250 ms floor. *)
Lemma samplerStep_tick_no_overflow (b : Basic.t) (wd : World) (elapsed : Z) :
  Basic.metricsUpdateFreqMillis b <= 9223372036854 ->
  (is_Some (Basic.samplerStep (Basic.Tick elapsed) (Basic.mkSt b wd))
   <-> Basic.updateFreq b * Millisecond <= elapsed)
  /\ (elapsed < 250 * Millisecond ->
        Basic.samplerStep (Basic.Tick elapsed) (Basic.mkSt b wd) = None).
Proof.
  intros Hle. destruct (tickDuration_no_overflow b Hle) as [Heq Hfloor].
  unfold Basic.samplerStep, After_ready. cbn [Basic.basic Basic.world].
  destruct (Z.leb_spec (Basic.tickDuration b) elapsed) as [Hdue|Hnot].
  - split; [| lia]. split; [lia |]. intros _. destruct (Basic.queueSizeGauge b); eauto.
  - split; [| reflexivity]. split; [| lia]. intros [x Hx]. discriminate Hx.
Qed.

(** C8. At updateFreqMillis = 9223372036855 the value in milliseconds is
    left as configured, but its conversion to nanoseconds leaves the int64
    range: the duration handed to the timer is negative, so the timer is
    due at once and the sampler samples with no time elapsed, instead of
    after the configured interval (or at least the 250 ms floor). *)
Theorem tickDuration_overflow :
  let b := Basic.basic
             (finalState (Basic.Metrics (fun _ => "*target.Writer") (Some sampleCollector)
                            9223372036855 (Basic.mkSt Basic.zero emptyWorld))) in
  Basic.metricsUpdateFreqMillis b = 9223372036855
  /\ int64_range (Basic.metricsUpdateFreqMillis b)
  /\ Basic.updateFreq b = 9223372036855
  /\ Basic.tickDuration b = -9223372036854551616
  /\ Basic.tickDuration b <> Basic.updateFreq b * Millisecond
  /\ After_ready (Basic.tickDuration b) 0 = true
  /\ After_ready (250 * Millisecond) 0 = false
  /\ forall wd : World,
       Basic.samplerStep (Basic.Tick 0) (Basic.mkSt b wd)
       = Some (true, Basic.mkSt b (GaugeSet 0%nat 0%nat wd)).
Proof.
  cbv zeta. vm_compute. repeat split; discriminate.
Qed.

(** C9. SetMetricsCollector answers with an error and leaves the logger as
    it was when the logger has targets or the collector is nil; otherwise it
    answers nil, stores the collector and takes the three handles the
    collector hands out for "_logr".  It returns in every case. *)
Theorem SetMetricsCollector_spec :
  forall (logr : Logr.t) (collector : option MetricsCollector),
    (Logr.HasTargets logr = true \/ collector = None ->
       exists e, Logr.SetMetricsCollector collector logr = Ret (Some e) logr)
    /\ (Logr.HasTargets logr = true ->
          Logr.SetMetricsCollector collector logr
          = Ret (Some "Logr.SetMetricsCollector must be called before any targets are added.") logr)
    /\ (Logr.HasTargets logr = false -> collector = None ->
          Logr.SetMetricsCollector collector logr = Ret (Some "collector cannot be nil") logr)
    /\ (forall c, Logr.HasTargets logr = false -> collector = Some c ->
          exists logr',
            Logr.SetMetricsCollector collector logr = Ret None logr'
            /\ Logr.metrics logr' = Some c
            /\ Logr.queueSizeGauge logr' = QueueSizeGauge c "_logr"
            /\ Logr.loggedCounter logr' = LoggedCounter c "_logr"
            /\ Logr.errorCounter logr' = ErrorCounter c "_logr"
            /\ Logr.targets logr' = Logr.targets logr
            /\ Logr.OnTargetQueueFull logr' = Logr.OnTargetQueueFull logr
            /\ Logr.enqueueTimeout logr' = Logr.enqueueTimeout logr)
    /\ returned (Logr.SetMetricsCollector collector logr) = true.
Proof.
  intros logr collector. unfold Logr.SetMetricsCollector.
  destruct (Logr.HasTargets logr) eqn:Ht.
  - repeat split; try discriminate; eauto.
  - destruct collector as [c|].
    + repeat split; try discriminate.
      * intros [H|H]; discriminate.
      * intros c' _ [= <-]. eexists. repeat split.
    + repeat split; try discriminate; eauto.
Qed.

(** ** The handle store *)

Lemma counterValue_Inc_eq (h : Counter) (wd : World) :
  counterValue h (Inc h wd) = S (counterValue h wd).
Proof. unfold counterValue at 1, Inc. cbn [counters]. by rewrite lookup_insert_eq. Qed.

Lemma counterValue_Inc_ne (h h' : Counter) (wd : World) :
  h <> h' -> counterValue h' (Inc h wd) = counterValue h' wd.
Proof.
  intros Hne. unfold counterValue, Inc. cbn [counters].
  by rewrite lookup_insert_ne.
Qed.

(** [if c != nil { c.Inc() }] moves the counter behind [c] by one, no other
    counter, and nothing else in the world. *)
Lemma IncIfSet_spec (c : option Counter) (wd : World) :
  (forall h, c = Some h -> counterValue h (IncIfSet c wd) = S (counterValue h wd))
  /\ (forall h, c <> Some h -> counterValue h (IncIfSet c wd) = counterValue h wd)
  /\ (c = None -> IncIfSet c wd = wd)
  /\ gauges (IncIfSet c wd) = gauges wd
  /\ reported (IncIfSet c wd) = reported wd
  /\ stderr (IncIfSet c wd) = stderr wd
  /\ written (IncIfSet c wd) = written wd
  /\ flushed (IncIfSet c wd) = flushed wd.
Proof.
  destruct c as [h0|]; cbn [IncIfSet].
  - repeat split; try reflexivity; try discriminate.
    + intros h [= <-]. apply counterValue_Inc_eq.
    + intros h Hne. apply counterValue_Inc_ne. congruence.
  - repeat split; try reflexivity; discriminate.
Qed.

(** ** Channels *)

Lemma wfChan_make (n : nat) : wfChan (makeChan n) = true.
Proof. reflexivity. Qed.

Lemma wfChan_send (rec : LogRec) (c : Chan) :
  wfChan c = true -> sendReady c = true -> wfChan (send rec c) = true.
Proof.
  unfold wfChan, sendReady, send.
  destruct (recvq c) eqn:Hq; cbn [buf cap recvq]; rewrite ?length_app; cbn [length];
    rewrite ?andb_true_iff, ?Nat.leb_le, ?Nat.ltb_lt;
    (intros [? _] ?; split; [lia | reflexivity]).
Qed.

Lemma wfChan_recvNow (c c' : Chan) (rec : LogRec) :
  wfChan c = true -> recvNow c = Some (rec, c') -> wfChan c' = true.
Proof.
  unfold wfChan, recvNow.
  destruct (recvq c) eqn:Hq; destruct (buf c) eqn:Hb; cbn [length];
    intros Hwf [= <- <-]; cbn [buf cap recvq length] in *;
    rewrite ?andb_true_iff, ?Nat.leb_le in *; (split; [lia | reflexivity]).
Qed.

Lemma wfChan_park (c : Chan) :
  wfChan c = true -> recvNow c = None -> wfChan (park c) = true.
Proof.
  unfold wfChan, recvNow, park.
  destruct (recvq c); destruct (buf c); cbn [buf cap recvq length]; try discriminate; auto.
Qed.

Lemma wfChan_close (c : Chan) : wfChan (closeChan c) = wfChan c.
Proof. reflexivity. Qed.

(** A send that can proceed puts the record behind all pending ones. *)
Lemma pending_send (rec : LogRec) (c : Chan) :
  wfChan c = true -> sendReady c = true -> pending (send rec c) = pending c ++ [rec].
Proof.
  unfold wfChan, sendReady, send, pending.
  destruct (recvq c) eqn:Hq; cbn [buf cap recvq]; try rewrite Hq; try reflexivity.
  destruct (buf c); [reflexivity |]. rewrite andb_false_r. discriminate.
Qed.

(** A receive takes the oldest pending record. *)
Lemma pending_recvNow (c : Chan) :
  wfChan c = true ->
  match recvNow c with
  | Some (rec, c') => pending c = rec :: pending c'
  | None => pending c = []
  end.
Proof.
  unfold wfChan, recvNow, pending.
  destruct (recvq c); destruct (buf c); cbn [buf recvq]; try reflexivity.
Qed.

(** ** Log: the backpressure policy *)

Ltac run_go :=
  cbv [bind ret gets modify panic Basic.onBasic Basic.onWorld].

Section LogProps.

Variable logrs : LogrRef -> Logr.t.
Variable render : LogRec -> string.

(** While there is room, or the worker is parked, [Log] enqueues and returns. *)
Lemma Log_room (rec : LogRec) (s : Basic.St) (c : Chan) :
  Basic.in_ (Basic.basic s) = Some c -> closed c = false -> sendReady c = true ->
  Basic.Log logrs rec s
  = Ret Basic.LogReturned
        (Basic.mkSt (Basic.with_in (Some (send rec c)) (Basic.basic s)) (Basic.world s)).
Proof.
  intros Hin Hcl Hrd. unfold Basic.Log. run_go. rewrite Hin, Hcl, Hrd. reflexivity.
Qed.

(** On a closed channel [Log] panics. *)
Lemma Log_closed (rec : LogRec) (s : Basic.St) (c : Chan) :
  Basic.in_ (Basic.basic s) = Some c -> closed c = true ->
  Basic.Log logrs rec s = Panics "send on closed channel" s.
Proof.
  intros Hin Hcl. unfold Basic.Log. run_go. rewrite Hin, Hcl. reflexivity.
Qed.

(** C1. [Log] on a target whose queue is full.  When the owning logger's
    overflow handler is registered and answers true, the dropped counter
    moves by exactly one, the queue is left as it was (the record is
    discarded), nothing is reported, and the call returns without having
    waited.  When no handler is registered or it answers false, the blocked
    counter moves by exactly one and the call waits; the wait ends either
    with the record enqueued behind all pending ones, which is possible
    only once the queue has room, or with the timer, which is possible only
    once the owning logger's enqueue timeout has elapsed, and then an error
    starting with "target enqueue timeout" is reported to the owning logger
    and the queue is left as it was. *)
Theorem Log_queue_full :
  forall (rec : LogRec) (s : Basic.St) (c : Chan),
    Basic.in_ (Basic.basic s) = Some c ->
    closed c = false ->
    sendReady c = false ->
    let b := Basic.basic s in
    let drop := match Logr.OnTargetQueueFull (logrs (recLogr rec)) with
                | Some handler => handler (Basic.target b) rec (Z.of_nat (cap c))
                | None => false
                end in
    exists (phase : Basic.LogPhase) (s1 : Basic.St),
      Basic.Log logrs rec s = Ret phase s1
      /\ Basic.basic s1 = b
      /\ reported (Basic.world s1) = reported (Basic.world s)
      /\ (drop = true ->
            phase = Basic.LogReturned
            /\ Basic.world s1 = IncIfSet (Basic.droppedCounter b) (Basic.world s)
            /\ (forall h, Basic.droppedCounter b = Some h ->
                  counterValue h (Basic.world s1) = S (counterValue h (Basic.world s)))
            /\ (forall h, Basic.droppedCounter b <> Some h ->
                  counterValue h (Basic.world s1) = counterValue h (Basic.world s)))
      /\ (drop = false ->
            phase = Basic.LogWaiting
            /\ Basic.world s1 = IncIfSet (Basic.blockedCounter b) (Basic.world s)
            /\ (forall h, Basic.blockedCounter b = Some h ->
                  counterValue h (Basic.world s1) = S (counterValue h (Basic.world s)))
            /\ (forall h, Basic.blockedCounter b <> Some h ->
                  counterValue h (Basic.world s1) = counterValue h (Basic.world s))
            /\ forall (s2 : Basic.St) (elapsed : Z),
                 (* the timer wins: only once the enqueue timeout has elapsed *)
                 (if After_ready (Logr.enqueueTimeout (logrs (recLogr rec))) elapsed
                  then exists (s3 : Basic.St) (tail : string),
                         Basic.LogResume logrs render (Basic.TimerFired elapsed) rec s2
                         = Some (Ret tt s3)
                         /\ Basic.basic s3 = Basic.basic s2
                         /\ reported (Basic.world s3)
                            = reported (Basic.world s2)
                              ++ [(recLogr rec, "target enqueue timeout" +:+ tail)]
                         /\ counters (Basic.world s3) = counters (Basic.world s2)
                         /\ written (Basic.world s3) = written (Basic.world s2)
                  else Basic.LogResume logrs render (Basic.TimerFired elapsed) rec s2 = None)
                 (* the send wins: only on a queue with room *)
                 /\ (forall c2, Basic.in_ (Basic.basic s2) = Some c2 ->
                       closed c2 = false -> wfChan c2 = true ->
                       if sendReady c2
                       then exists (s3 : Basic.St) (c3 : Chan),
                              Basic.LogResume logrs render Basic.SendDone rec s2
                              = Some (Ret tt s3)
                              /\ Basic.world s3 = Basic.world s2
                              /\ Basic.in_ (Basic.basic s3) = Some c3
                              /\ pending c3 = pending c2 ++ [rec]
                       else Basic.LogResume logrs render Basic.SendDone rec s2 = None)).
Proof.
  intros rec s c Hin Hcl Hfull b drop.
  assert (Hcap : Basic.capIn b = Z.of_nat (cap c)).
  { unfold Basic.capIn, b. rewrite Hin. reflexivity. }
  assert (HLog : Basic.Log logrs rec s = Basic.LogQueueFull logrs rec s).
  { unfold Basic.Log. run_go. rewrite Hin, Hcl, Hfull. reflexivity. }
  rewrite HLog. unfold Basic.LogQueueFull. run_go.
  fold b. rewrite Hcap. fold drop.
  destruct drop eqn:Hdrop.
  - eexists _, _. split; [reflexivity |]. cbn [Basic.basic Basic.world].
    pose proof (IncIfSet_spec (Basic.droppedCounter b) (Basic.world s))
      as (Heq & Hne & _ & _ & Hrep & _).
    repeat split; try discriminate; auto.
  - eexists _, _. split; [reflexivity |]. cbn [Basic.basic Basic.world].
    pose proof (IncIfSet_spec (Basic.blockedCounter b) (Basic.world s))
      as (Heq & Hne & _ & _ & Hrep & _).
    split; [reflexivity |]. split; [assumption |].
    split; [discriminate |]. intros _.
    split; [reflexivity |]. split; [reflexivity |].
    split; [assumption |]. split; [assumption |].
    intros s2 elapsed. split.
    + unfold Basic.LogResume.
      destruct (After_ready (Logr.enqueueTimeout (logrs (recLogr rec))) elapsed);
        [| reflexivity].
      exists (Basic.mkSt (Basic.basic s2)
                (ReportError (recLogr rec) (Basic.Errorf_enqueueTimeout render rec)
                             (Basic.world s2))),
             (" for log rec [" +:+ render rec +:+ "]").
      repeat split.
    + intros c2 Hin2 Hcl2 Hwf2. unfold Basic.LogResume. rewrite Hin2, Hcl2.
      destruct (sendReady c2) eqn:Hrd2; [| reflexivity].
      run_go. eexists _, _. split; [reflexivity |].
      cbn [Basic.basic Basic.world Basic.with_in Basic.in_].
      repeat split. apply pending_send; assumption.
Qed.

(** [Log], in both of its parts, keeps the queue well formed. *)
Lemma Log_wf (rec : LogRec) (s : Basic.St) :
  Basic.wfSt s -> Basic.wfSt (finalState (Basic.Log logrs rec s)).
Proof.
  intros Hwf. unfold Basic.wfSt in *.
  unfold Basic.Log, Basic.LogQueueFull. run_go.
  destruct (Basic.in_ (Basic.basic s)) as [c|] eqn:Hin.
  - destruct (closed c); [cbn; rewrite Hin; exact Hwf |].
    destruct (sendReady c) eqn:Hrd.
    + cbn. apply wfChan_send; assumption.
    + destruct (match Logr.OnTargetQueueFull (logrs (recLogr rec)) with
                | Some h => h (Basic.target (Basic.basic s)) rec (Basic.capIn (Basic.basic s))
                | None => false
                end); cbn; rewrite Hin; exact Hwf.
  - destruct (match Logr.OnTargetQueueFull (logrs (recLogr rec)) with
              | Some h => h (Basic.target (Basic.basic s)) rec (Basic.capIn (Basic.basic s))
              | None => false
              end); cbn; rewrite Hin; exact I.
Qed.

Lemma LogResume_wf (ev : Basic.LogWake) (rec : LogRec) (s : Basic.St) (r : Res Basic.St unit) :
  Basic.wfSt s -> Basic.LogResume logrs render ev rec s = Some r -> Basic.wfSt (finalState r).
Proof.
  intros Hwf. unfold Basic.wfSt in *. unfold Basic.LogResume. run_go.
  destruct ev as [elapsed|].
  - destruct (After_ready _ _); intros [= <-]; exact Hwf.
  - destruct (Basic.in_ (Basic.basic s)) as [c|] eqn:Hin; [| discriminate].
    destruct (closed c); [intros [= <-]; cbn; rewrite Hin; exact Hwf |].
    destruct (sendReady c) eqn:Hrd; [| discriminate].
    intros [= <-]. cbn. apply wfChan_send; assumption.
Qed.

End LogProps.

Lemma Log_queue_full_witness :
  exists s1 : Basic.St,
    Basic.Log sampleLogrs (sampleRec 3 1) (sampleQueued [sampleRec 1 0; sampleRec 2 0])
    = Ret Basic.LogReturned s1
    /\ Basic.basic s1 = Basic.basic (sampleQueued [sampleRec 1 0; sampleRec 2 0])
    /\ counterValue 3 (Basic.world s1) = 1%nat
    /\ counterValue 4 (Basic.world s1) = 0%nat
    /\ reported (Basic.world s1) = [].
Proof.
  destruct (Log_queue_full sampleLogrs sampleRender (sampleRec 3 1)
              (sampleQueued [sampleRec 1 0; sampleRec 2 0])
              (mkChan [sampleRec 1 0; sampleRec 2 0] 2 false NoReceiver)
              eq_refl eq_refl eq_refl)
    as (phase & s1 & HLog & Hb & Hrep & Hdrop & _).
  destruct (Hdrop eq_refl) as (-> & _ & Hinc & Hother).
  exists s1. split; [exact HLog |]. split; [exact Hb |].
  split; [exact (Hinc 3%nat eq_refl) |].
  split; [| exact Hrep].
  apply (Hother 4%nat). discriminate.
Defined.

(** With no handler the same call waits: one second into the wait neither
    case can be taken; after thirty seconds the timer wins, the error names
    the record and the two queued records are still the only ones. *)
Example Log_wait_timeout :
  exists s1 s2 : Basic.St,
    Basic.Log sampleLogrs (sampleRec 0 0) (sampleQueued [sampleRec 1 0; sampleRec 2 0])
    = Ret Basic.LogWaiting s1
    /\ counterValue 4 (Basic.world s1) = 1%nat
    /\ counterValue 3 (Basic.world s1) = 0%nat
    /\ Basic.LogResume sampleLogrs sampleRender Basic.SendDone (sampleRec 0 0) s1 = None
    /\ Basic.LogResume sampleLogrs sampleRender (Basic.TimerFired 1000000000)
                       (sampleRec 0 0) s1 = None
    /\ Basic.LogResume sampleLogrs sampleRender (Basic.TimerFired 30000000000)
                       (sampleRec 0 0) s1 = Some (Ret tt s2)
    /\ reported (Basic.world s2) = [(0%nat, "target enqueue timeout for log rec [rec#0]")]
    /\ option_map pending (Basic.in_ (Basic.basic s2)) = Some [sampleRec 1 0; sampleRec 2 0].
Proof.
  eexists _, _. split; [cbv [Basic.Log Basic.LogQueueFull]; run_go; reflexivity |].
  repeat split.
Qed.

(** ** The worker *)

Section WorkerProps.

Lemma callWrite_spec (rec : LogRec) (s : Basic.St) (rw : RecordWriter) :
  Basic.w (Basic.basic s) = Some rw ->
  let s1 := Basic.mkSt (Basic.basic s) (noteWrite rec (Basic.world s)) in
  Basic.callWrite rec s
  = match Write rw (written (Basic.world s)) rec with
    | WriteOk => Ret None s1
    | WriteErr e => Ret (Some e) s1
    | WritePanic v => Panics v s1
    end.
Proof.
  intros Hw. unfold Basic.callWrite. run_go. rewrite Hw.
  destruct (Write rw (written (Basic.world s)) rec); reflexivity.
Qed.

(** The step of the loop on an ordinary record, in full.  A panic of the
    writer is printed and the worker starts over at the head of the loop;
    the record is gone and no counter moves. *)
Lemma workerStep_range_ordinary
    (s : Basic.St) (c c' : Chan) (rec : LogRec) (rw : RecordWriter) :
  Basic.in_ (Basic.basic s) = Some c ->
  recvNow c = Some (rec, c') ->
  flush rec = None ->
  Basic.w (Basic.basic s) = Some rw ->
  let b := Basic.basic s in
  let b' := Basic.with_in (Some c') b in
  let wd := noteWrite rec (Basic.world s) in
  Basic.workerStep Basic.InRange s
  = match Write rw (written (Basic.world s)) rec with
    | WriteOk =>
        (Basic.InRange, Basic.mkSt b' (IncIfSet (Basic.loggedCounter b) wd))
    | WriteErr e =>
        (Basic.InRange,
         Basic.mkSt b' (ReportError (recLogr rec) e (IncIfSet (Basic.errorCounter b) wd)))
    | WritePanic v =>
        (Basic.InRange, Basic.mkSt b' (Fprintln_stderr ("Basic.start --  " +:+ v) wd))
    end.
Proof.
  intros Hin Hrecv Hfl Hw b b' wd.
  assert (Hw' : Basic.w (Basic.basic (Basic.mkSt b' (Basic.world s))) = Some rw) by exact Hw.
  pose proof (callWrite_spec rec _ rw Hw') as Hcall. cbv zeta in Hcall.
  cbn [Basic.basic Basic.world] in Hcall.
  unfold Basic.workerStep, Basic.recovering, Basic.rangeStep.
  cbv [bind gets Basic.onBasic modify]. rewrite Hin, Hrecv, Hfl.
  cbn [Basic.basic Basic.world]. unfold Basic.writeInLoop.
  cbv [bind]. fold b b'. rewrite Hcall.
  destruct (Write rw (written (Basic.world s)) rec); reflexivity.
Qed.

(** The step of the flush drain on an ordinary record, in full. *)
Lemma workerStep_flush_ordinary
    (d : FlushChan) (s : Basic.St) (c c' : Chan) (rec : LogRec) (rw : RecordWriter) :
  Basic.in_ (Basic.basic s) = Some c ->
  recvNow c = Some (rec, c') ->
  flush rec = None ->
  Basic.w (Basic.basic s) = Some rw ->
  let b := Basic.basic s in
  let b' := Basic.with_in (Some c') b in
  let wd := noteWrite rec (Basic.world s) in
  Basic.workerStep (Basic.InFlush d) s
  = match Write rw (written (Basic.world s)) rec with
    | WriteOk =>
        (Basic.InFlush d, Basic.mkSt b' wd)
    | WriteErr e =>
        (Basic.InFlush d,
         Basic.mkSt b' (ReportError (recLogr rec) e (IncIfSet (Basic.errorCounter b) wd)))
    | WritePanic v =>
        (Basic.InRange, Basic.mkSt b' (Fprintln_stderr ("Basic.start --  " +:+ v) wd))
    end.
Proof.
  intros Hin Hrecv Hfl Hw b b' wd.
  assert (Hw' : Basic.w (Basic.basic (Basic.mkSt b' (Basic.world s))) = Some rw) by exact Hw.
  pose proof (callWrite_spec rec _ rw Hw') as Hcall. cbv zeta in Hcall.
  cbn [Basic.basic Basic.world] in Hcall.
  unfold Basic.workerStep, Basic.recovering, Basic.flushStep.
  cbv [bind gets Basic.onBasic modify]. rewrite Hin, Hrecv, Hfl.
  cbn [Basic.basic Basic.world]. unfold Basic.writeInFlush.
  cbv [bind]. fold b b'. rewrite Hcall.
  destruct (Write rw (written (Basic.world s)) rec); reflexivity.
Qed.

(** A redundant flush marker met during a drain is skipped. *)
Lemma workerStep_flush_marker
    (d d' : FlushChan) (s : Basic.St) (c c' : Chan) (rec : LogRec) :
  Basic.in_ (Basic.basic s) = Some c ->
  recvNow c = Some (rec, c') ->
  flush rec = Some d' ->
  Basic.workerStep (Basic.InFlush d) s
  = (Basic.InFlush d, Basic.mkSt (Basic.with_in (Some c') (Basic.basic s)) (Basic.world s)).
Proof.
  intros Hin Hrecv Hfl.
  unfold Basic.workerStep, Basic.recovering, Basic.flushStep. run_go.
  rewrite Hin, Hrecv, Hfl. reflexivity.
Qed.

(** On an open, drained queue the drain signals the marker's channel and
    the worker is back in its loop. *)
Lemma workerStep_flush_drained (d : FlushChan) (s : Basic.St) (c : Chan) :
  Basic.in_ (Basic.basic s) = Some c ->
  recvNow c = None ->
  closed c = false ->
  Basic.workerStep (Basic.InFlush d) s
  = (Basic.InRange, Basic.mkSt (Basic.basic s) (signalFlush d (Basic.world s))).
Proof.
  intros Hin Hrecv Hcl.
  unfold Basic.workerStep, Basic.recovering, Basic.flushStep. run_go.
  rewrite Hin, Hrecv, Hcl. reflexivity.
Qed.

(** C5. The worker loop on an ordinary record it dequeues.  When the writer
    answers with an error, the error counter moves by exactly one, the error
    is reported to the owning logger, the writer was called once and the
    record is not put back; when the writer answers nil, the logged counter
    moves by exactly one and nothing is reported.  Either way the worker is
    back at the head of its loop with the rest of the queue. *)
Theorem worker_write_outcome :
  forall (s : Basic.St) (c c' : Chan) (rec : LogRec) (rw : RecordWriter),
    Basic.in_ (Basic.basic s) = Some c ->
    wfChan c = true ->
    recvNow c = Some (rec, c') ->
    flush rec = None ->
    Basic.w (Basic.basic s) = Some rw ->
    let b := Basic.basic s in
    let wd := Basic.world s in
    pending c = rec :: pending c'
    /\ (forall e, Write rw (written wd) rec = WriteErr e ->
          exists s', Basic.workerStep Basic.InRange s = (Basic.InRange, s')
            /\ Basic.basic s' = Basic.with_in (Some c') b
            /\ (forall h, Basic.errorCounter b = Some h ->
                  counterValue h (Basic.world s') = S (counterValue h wd))
            /\ (forall h, Basic.errorCounter b <> Some h ->
                  counterValue h (Basic.world s') = counterValue h wd)
            /\ reported (Basic.world s') = reported wd ++ [(recLogr rec, e)]
            /\ written (Basic.world s') = written wd ++ [rec]
            /\ stderr (Basic.world s') = stderr wd)
    /\ (Write rw (written wd) rec = WriteOk ->
          exists s', Basic.workerStep Basic.InRange s = (Basic.InRange, s')
            /\ Basic.basic s' = Basic.with_in (Some c') b
            /\ (forall h, Basic.loggedCounter b = Some h ->
                  counterValue h (Basic.world s') = S (counterValue h wd))
            /\ (forall h, Basic.loggedCounter b <> Some h ->
                  counterValue h (Basic.world s') = counterValue h wd)
            /\ reported (Basic.world s') = reported wd
            /\ written (Basic.world s') = written wd ++ [rec]
            /\ stderr (Basic.world s') = stderr wd).
Proof.
  intros s c c' rec rw Hin Hwf Hrecv Hfl Hw b wd.
  split.
  { pose proof (pending_recvNow c Hwf) as Hp. rewrite Hrecv in Hp. exact Hp. }
  pose proof (workerStep_range_ordinary s c c' rec rw Hin Hrecv Hfl Hw) as Hstep.
  cbv zeta in Hstep. fold b wd in Hstep.
  split.
  - intros e He. rewrite He in Hstep. eexists. split; [exact Hstep |].
    cbn [Basic.basic Basic.world].
    pose proof (IncIfSet_spec (Basic.errorCounter b) (noteWrite rec wd))
      as (Heq & Hne & _ & _ & Hrep & Hse & Hwr & _).
    split; [reflexivity |]. split; [exact Heq |]. split; [exact Hne |].
    cbn [ReportError reported written stderr]. rewrite Hrep, Hse, Hwr. repeat split.
  - intros Hok. rewrite Hok in Hstep. eexists. split; [exact Hstep |].
    cbn [Basic.basic Basic.world].
    pose proof (IncIfSet_spec (Basic.loggedCounter b) (noteWrite rec wd))
      as (Heq & Hne & _ & _ & Hrep & Hse & Hwr & _).
    split; [reflexivity |]. split; [exact Heq |]. split; [exact Hne |].
    rewrite Hrep, Hse, Hwr. repeat split.
Qed.

Lemma worker_write_outcome_witness :
  exists s' : Basic.St,
    Basic.workerStep Basic.InRange (sampleQueued [sampleRec 1 0; sampleRec 2 0])
    = (Basic.InRange, s')
    /\ counterValue 2 (Basic.world s') = 1%nat
    /\ counterValue 1 (Basic.world s') = 0%nat
    /\ reported (Basic.world s') = [(0%nat, "disk full")]
    /\ written (Basic.world s') = [sampleRec 1 0]
    /\ option_map pending (Basic.in_ (Basic.basic s')) = Some [sampleRec 2 0].
Proof.
  destruct (worker_write_outcome
              (sampleQueued [sampleRec 1 0; sampleRec 2 0])
              (mkChan [sampleRec 1 0; sampleRec 2 0] 2 false NoReceiver)
              (mkChan [sampleRec 2 0] 2 false NoReceiver)
              (sampleRec 1 0) sampleWriter
              eq_refl eq_refl eq_refl eq_refl eq_refl)
    as (_ & Herr & _).
  destruct (Herr "disk full" eq_refl) as (s' & Hstep & Hb & Hinc & Hother & Hrep & Hwr & _).
  exists s'. split; [exact Hstep |].
  split; [exact (Hinc 2%nat eq_refl) |].
  split; [apply (Hother 1%nat); discriminate |].
  split; [exact Hrep |]. split; [exact Hwr |].
  rewrite Hb. reflexivity.
Defined.

(** C6. The flush drain on an ordinary record it dequeues.  When the writer
    answers nil, no counter moves, the logged counter included, while the
    loop proper moves the logged counter by one on the same record; when
    the writer answers with an error, the drain moves the error counter by
    exactly one and reports the error, as the loop does. *)
Theorem flush_write_outcome :
  forall (d : FlushChan) (s : Basic.St) (c c' : Chan) (rec : LogRec) (rw : RecordWriter),
    Basic.in_ (Basic.basic s) = Some c ->
    recvNow c = Some (rec, c') ->
    flush rec = None ->
    Basic.w (Basic.basic s) = Some rw ->
    let b := Basic.basic s in
    let wd := Basic.world s in
    (Write rw (written wd) rec = WriteOk ->
       (exists s', Basic.workerStep (Basic.InFlush d) s = (Basic.InFlush d, s')
          /\ Basic.basic s' = Basic.with_in (Some c') b
          /\ counters (Basic.world s') = counters wd
          /\ (forall h, Basic.loggedCounter b = Some h ->
                counterValue h (Basic.world s') = counterValue h wd)
          /\ reported (Basic.world s') = reported wd
          /\ written (Basic.world s') = written wd ++ [rec])
       /\ (exists s'', Basic.workerStep Basic.InRange s = (Basic.InRange, s'')
             /\ forall h, Basic.loggedCounter b = Some h ->
                  counterValue h (Basic.world s'') = S (counterValue h wd)))
    /\ (forall e, Write rw (written wd) rec = WriteErr e ->
          exists s', Basic.workerStep (Basic.InFlush d) s = (Basic.InFlush d, s')
            /\ Basic.basic s' = Basic.with_in (Some c') b
            /\ (forall h, Basic.errorCounter b = Some h ->
                  counterValue h (Basic.world s') = S (counterValue h wd))
            /\ (forall h, Basic.errorCounter b <> Some h ->
                  counterValue h (Basic.world s') = counterValue h wd)
            /\ reported (Basic.world s') = reported wd ++ [(recLogr rec, e)]
            /\ written (Basic.world s') = written wd ++ [rec]).
Proof.
  intros d s c c' rec rw Hin Hrecv Hfl Hw b wd.
  pose proof (workerStep_flush_ordinary d s c c' rec rw Hin Hrecv Hfl Hw) as Hflush.
  pose proof (workerStep_range_ordinary s c c' rec rw Hin Hrecv Hfl Hw) as Hloop.
  cbv zeta in Hflush, Hloop. fold b wd in Hflush, Hloop.
  split.
  - intros Hok. rewrite Hok in Hflush, Hloop. split.
    + eexists. split; [exact Hflush |]. repeat split.
    + eexists. split; [exact Hloop |]. cbn [Basic.world].
      exact (proj1 (IncIfSet_spec (Basic.loggedCounter b) (noteWrite rec wd))).
  - intros e He. rewrite He in Hflush. eexists. split; [exact Hflush |].
    cbn [Basic.basic Basic.world].
    pose proof (IncIfSet_spec (Basic.errorCounter b) (noteWrite rec wd))
      as (Heq & Hne & _ & _ & Hrep & _ & Hwr & _).
    split; [reflexivity |]. split; [exact Heq |]. split; [exact Hne |].
    cbn [ReportError reported written]. rewrite Hrep, Hwr. repeat split.
Qed.

Lemma flush_write_outcome_witness :
  exists s' s'' : Basic.St,
    Basic.workerStep (Basic.InFlush 9%nat) (sampleQueued [sampleRec 2 0; sampleRec 1 0])
    = (Basic.InFlush 9%nat, s')
    /\ counterValue 1 (Basic.world s') = 0%nat
    /\ written (Basic.world s') = [sampleRec 2 0]
    /\ Basic.workerStep Basic.InRange (sampleQueued [sampleRec 2 0; sampleRec 1 0])
       = (Basic.InRange, s'')
    /\ counterValue 1 (Basic.world s'') = 1%nat.
Proof.
  destruct (flush_write_outcome 9%nat
              (sampleQueued [sampleRec 2 0; sampleRec 1 0])
              (mkChan [sampleRec 2 0; sampleRec 1 0] 2 false NoReceiver)
              (mkChan [sampleRec 1 0] 2 false NoReceiver)
              (sampleRec 2 0) sampleWriter
              eq_refl eq_refl eq_refl eq_refl)
    as (Hok & _).
  destruct (Hok eq_refl) as ((s' & Hstep & _ & _ & Hlogged & _ & Hwr) & (s'' & Hloop & Hinc)).
  exists s', s''. split; [exact Hstep |].
  split; [exact (Hlogged 1%nat eq_refl) |].
  split; [exact Hwr |].
  split; [exact Hloop |].
  exact (Hinc 1%nat eq_refl).
Defined.

(** *** Draining a closed queue *)

Lemma recvNow_closed (c c' : Chan) (rec : LogRec) :
  recvNow c = Some (rec, c') -> closed c' = closed c /\ cap c' = cap c.
Proof.
  unfold recvNow. destruct (recvq c); destruct (buf c); intros [= <- <-]; split; reflexivity.
Qed.

(** On a closed, drained queue the loop ends and [done] is closed. *)
Lemma workerStep_range_end (s : Basic.St) (c : Chan) :
  Basic.in_ (Basic.basic s) = Some c ->
  recvNow c = None ->
  closed c = true ->
  Basic.done (Basic.basic s) = Some false ->
  Basic.workerStep Basic.InRange s
  = (Basic.Exited, Basic.mkSt (Basic.with_done (Some true) (Basic.basic s)) (Basic.world s)).
Proof.
  intros Hin Hrecv Hcl Hdone.
  unfold Basic.workerStep, Basic.recovering, Basic.rangeStep, Basic.closeDone. run_go.
  rewrite Hin, Hrecv, Hcl, Hdone. reflexivity.
Qed.

(** On an open, drained queue the worker parks. *)
Lemma workerStep_range_park (s : Basic.St) (c : Chan) :
  Basic.in_ (Basic.basic s) = Some c ->
  recvNow c = None ->
  closed c = false ->
  Basic.workerStep Basic.InRange s
  = (Basic.InRange, Basic.mkSt (Basic.with_in (Some (park c)) (Basic.basic s)) (Basic.world s)).
Proof.
  intros Hin Hrecv Hcl.
  unfold Basic.workerStep, Basic.recovering, Basic.rangeStep. run_go.
  rewrite Hin, Hrecv, Hcl. reflexivity.
Qed.

(** FIFO drain: left alone with a closed queue of [n] ordinary records and
    a writer that does not panic, the worker hands the records to the
    writer in queue order, closes [done] and exits, all within [n + 1]
    steps. *)
Lemma workerRun_drain (rw : RecordWriter) :
  (forall h r v, Write rw h r <> WritePanic v) ->
  forall (n : nat) (s : Basic.St) (c : Chan),
    Basic.in_ (Basic.basic s) = Some c ->
    wfChan c = true ->
    closed c = true ->
    Basic.done (Basic.basic s) = Some false ->
    Basic.w (Basic.basic s) = Some rw ->
    length (pending c) = n ->
    Forall (fun r => flush r = None) (pending c) ->
    exists s',
      Basic.workerRun (S n) Basic.InRange s = (Basic.Exited, s')
      /\ Basic.done (Basic.basic s') = Some true
      /\ written (Basic.world s') = written (Basic.world s) ++ pending c
      /\ option_map pending (Basic.in_ (Basic.basic s')) = Some [].
Proof.
  intros Hnopanic n. induction n as [|n IH]; intros s c Hin Hwf Hcl Hdone Hw Hlen Hord.
  - pose proof (pending_recvNow c Hwf) as Hp.
    destruct (recvNow c) as [[rec c']|] eqn:Hrecv.
    + rewrite Hp in Hlen. discriminate.
    + cbn [Basic.workerRun]. rewrite (workerStep_range_end s c Hin Hrecv Hcl Hdone).
      eexists. split; [reflexivity |]. cbn [Basic.basic Basic.world Basic.with_done Basic.done Basic.in_].
      rewrite Hp, app_nil_r, Hin. cbn [option_map]. rewrite Hp. repeat split.
  - pose proof (pending_recvNow c Hwf) as Hp.
    destruct (recvNow c) as [[rec c']|] eqn:Hrecv.
    2:{ rewrite Hp in Hlen. discriminate. }
    rewrite Hp in Hlen, Hord. injection Hlen as Hlen.
    apply Forall_cons_iff in Hord as [Hfl Hord].
    destruct (recvNow_closed c c' rec Hrecv) as [Hcl' _].
    change (Basic.workerRun (S (S n)) Basic.InRange s)
      with (let '(pc', s1) := Basic.workerStep Basic.InRange s in
            Basic.workerRun (S n) pc' s1).
    rewrite (workerStep_range_ordinary s c c' rec rw Hin Hrecv Hfl Hw).
    set (b' := Basic.with_in (Some c') (Basic.basic s)).
    assert (Hwr : forall wd' : World,
               written wd' = written (Basic.world s) ++ [rec] ->
               exists s', Basic.workerRun (S n) Basic.InRange (Basic.mkSt b' wd') = (Basic.Exited, s')
                 /\ Basic.done (Basic.basic s') = Some true
                 /\ written (Basic.world s') = written (Basic.world s) ++ pending c
                 /\ option_map pending (Basic.in_ (Basic.basic s')) = Some []).
    { intros wd' Hwd'.
      destruct (IH (Basic.mkSt b' wd') c') as (s' & Hrun & Hd & Hwritten & Hq);
        try assumption; try reflexivity.
      - apply (wfChan_recvNow c c' rec Hwf Hrecv).
      - congruence.
      - exists s'. split; [exact Hrun |]. split; [exact Hd |]. split; [| exact Hq].
        rewrite Hwritten. cbn [Basic.world]. rewrite Hwd', Hp, <- app_assoc. reflexivity. }
    destruct (Write rw (written (Basic.world s)) rec) as [|e|v] eqn:Hres.
    + apply Hwr.
      rewrite (proj1 (proj2 (proj2 (proj2 (proj2 (proj2 (proj2
                 (IncIfSet_spec (Basic.loggedCounter (Basic.basic s))
                                (noteWrite rec (Basic.world s)))))))))).
      reflexivity.
    + apply Hwr. cbn [ReportError written].
      rewrite (proj1 (proj2 (proj2 (proj2 (proj2 (proj2 (proj2
                 (IncIfSet_spec (Basic.errorCounter (Basic.basic s))
                                (noteWrite rec (Basic.world s)))))))))).
      reflexivity.
    + exfalso. exact (Hnopanic _ _ _ Hres).
Qed.

(** *** The queue stays well formed *)

Ltac break_match :=
  repeat match goal with
         | |- context [match ?x with _ => _ end] => destruct x eqn:?
         end.

Lemma callWrite_basic (rec : LogRec) (s : Basic.St) :
  Basic.basic (finalState (Basic.callWrite rec s)) = Basic.basic s.
Proof.
  unfold Basic.callWrite. run_go.
  destruct (Basic.w (Basic.basic s)); [| reflexivity].
  cbn. destruct (Write _ _ _); reflexivity.
Qed.

Lemma writeInLoop_in (rec : LogRec) (s : Basic.St) :
  Basic.in_ (Basic.basic (finalState (Basic.writeInLoop rec s))) = Basic.in_ (Basic.basic s).
Proof.
  unfold Basic.writeInLoop. cbv [bind].
  pose proof (callWrite_basic rec s) as H.
  destruct (Basic.callWrite rec s) as [[e|] s1|v s1]; cbn in H |- *; rewrite H; reflexivity.
Qed.

Lemma writeInFlush_in (rec : LogRec) (s : Basic.St) :
  Basic.in_ (Basic.basic (finalState (Basic.writeInFlush rec s))) = Basic.in_ (Basic.basic s).
Proof.
  unfold Basic.writeInFlush. cbv [bind].
  pose proof (callWrite_basic rec s) as H.
  destruct (Basic.callWrite rec s) as [[e|] s1|v s1]; cbn in H |- *; rewrite H; reflexivity.
Qed.

Lemma closeDone_in (s : Basic.St) :
  Basic.in_ (Basic.basic (finalState (Basic.closeDone s))) = Basic.in_ (Basic.basic s).
Proof.
  unfold Basic.closeDone. run_go. break_match; reflexivity.
Qed.

Lemma recovering_in (m : M Basic.St Basic.WorkerPC) (s : Basic.St) :
  Basic.in_ (Basic.basic (snd (Basic.recovering m s)))
  = Basic.in_ (Basic.basic (finalState (m s))).
Proof. unfold Basic.recovering. destruct (m s); reflexivity. Qed.

Lemma finalState_bind_ret {A B : Type} (m : M Basic.St A) (b : B) (s : Basic.St) :
  finalState (bind m (fun _ => ret b) s) = finalState (m s).
Proof. unfold bind, ret. destruct (m s); reflexivity. Qed.

(** Every step of the worker keeps the queue well formed. *)
Lemma workerStep_wf (pc : Basic.WorkerPC) (s : Basic.St) :
  Basic.wfSt s -> Basic.wfSt (snd (Basic.workerStep pc s)).
Proof.
  intros Hwf. unfold Basic.wfSt in *.
  destruct pc as [|d|]; cbn [Basic.workerStep snd]; [| | exact Hwf]; rewrite recovering_in.
  - unfold Basic.rangeStep. cbv [bind gets Basic.onBasic modify].
    destruct (Basic.in_ (Basic.basic s)) as [c|] eqn:Hin; [| cbn; rewrite Hin; exact I].
    destruct (recvNow c) as [[rec c']|] eqn:Hrecv.
    + destruct (flush rec).
      * cbn. apply (wfChan_recvNow c c' rec Hwf Hrecv).
      * fold (bind (Basic.writeInLoop rec) (fun _ => ret Basic.InRange)
                   (Basic.mkSt (Basic.with_in (Some c') (Basic.basic s)) (Basic.world s))).
        rewrite finalState_bind_ret, writeInLoop_in. cbn.
        apply (wfChan_recvNow c c' rec Hwf Hrecv).
    + destruct (closed c).
      * fold (bind Basic.closeDone (fun _ => ret Basic.Exited) s).
        rewrite finalState_bind_ret, closeDone_in, Hin. exact Hwf.
      * cbn. apply (wfChan_park c Hwf Hrecv).
  - unfold Basic.flushStep. cbv [bind gets Basic.onBasic Basic.onWorld modify].
    destruct (Basic.in_ (Basic.basic s)) as [c|] eqn:Hin; [| cbn; rewrite Hin; exact I].
    destruct (recvNow c) as [[rec c']|] eqn:Hrecv.
    + destruct (flush rec).
      * cbn. apply (wfChan_recvNow c c' rec Hwf Hrecv).
      * fold (bind (Basic.writeInFlush rec) (fun _ => ret (Basic.InFlush d))
                   (Basic.mkSt (Basic.with_in (Some c') (Basic.basic s)) (Basic.world s))).
        rewrite finalState_bind_ret, writeInFlush_in. cbn.
        apply (wfChan_recvNow c c' rec Hwf Hrecv).
    + destruct (closed c); cbn; rewrite Hin; exact Hwf.
Qed.

End WorkerProps.

(** ** Shutdown *)

Lemma ShutdownBegin_open (s : Basic.St) (c : Chan) :
  Basic.in_ (Basic.basic s) = Some c -> closed c = false ->
  Basic.ShutdownBegin s
  = Ret tt (Basic.mkSt (Basic.with_in (Some (closeChan c)) (Basic.basic s)) (Basic.world s)).
Proof.
  intros Hin Hcl. unfold Basic.ShutdownBegin, Basic.closeIn. run_go.
  rewrite Hin, Hcl. reflexivity.
Qed.

Lemma ShutdownBegin_wf (s : Basic.St) :
  Basic.wfSt s -> Basic.wfSt (finalState (Basic.ShutdownBegin s)).
Proof.
  intros Hwf. unfold Basic.wfSt in *.
  unfold Basic.ShutdownBegin, Basic.closeIn. run_go.
  destruct (Basic.in_ (Basic.basic s)) as [c|] eqn:Hin; [| cbn; rewrite Hin; exact I].
  destruct (closed c); cbn; [rewrite Hin |]; exact Hwf.
Qed.

(** A second [Shutdown], or one before [Start], panics. *)
Lemma ShutdownBegin_panics (s : Basic.St) :
  match Basic.in_ (Basic.basic s) with
  | None => Basic.ShutdownBegin s = Panics "close of nil channel" s
  | Some c => closed c = true -> Basic.ShutdownBegin s = Panics "close of closed channel" s
  end.
Proof.
  unfold Basic.ShutdownBegin, Basic.closeIn. run_go.
  destruct (Basic.in_ (Basic.basic s)) as [c|]; [| reflexivity].
  intros ->. reflexivity.
Qed.

(** C3, as the code has it.  On a started target that was not shut down
    before, Shutdown closes the queue, keeps what is pending, and then waits
    for one of the two cases of its select: the worker's completion signal,
    which can be taken only once the worker has closed [done], or the
    context, which can be taken only once it is done.  Whichever case is
    taken, the value returned is nil. *)
Theorem Shutdown_returns_nil :
  forall (s : Basic.St) (c : Chan),
    Basic.in_ (Basic.basic s) = Some c ->
    closed c = false ->
    exists (s1 : Basic.St) (c1 : Chan),
      Basic.ShutdownBegin s = Ret tt s1
      /\ Basic.in_ (Basic.basic s1) = Some c1
      /\ closed c1 = true
      /\ pending c1 = pending c
      /\ Basic.world s1 = Basic.world s
      /\ forall (s2 : Basic.St) (ctxIsDone : bool),
           Basic.ShutdownResume ctxIsDone Basic.CtxDone s2
           = (if ctxIsDone then Some (Ret None s2) else None)
           /\ (Basic.done (Basic.basic s2) = Some true ->
                 Basic.ShutdownResume ctxIsDone Basic.WorkerDone s2 = Some (Ret None s2))
           /\ (Basic.done (Basic.basic s2) <> Some true ->
                 Basic.ShutdownResume ctxIsDone Basic.WorkerDone s2 = None)
           /\ (forall ev r, Basic.ShutdownResume ctxIsDone ev s2 = Some r -> r = Ret None s2).
Proof.
  intros s c Hin Hcl.
  eexists _, (closeChan c). split; [apply (ShutdownBegin_open s c Hin Hcl) |].
  cbn [Basic.basic Basic.world Basic.with_in Basic.in_].
  repeat split.
  - intros Hd. unfold Basic.ShutdownResume. rewrite Hd. reflexivity.
  - intros Hd. unfold Basic.ShutdownResume.
    destruct (Basic.done (Basic.basic s2)) as [[|]|]; congruence.
  - intros ev r. unfold Basic.ShutdownResume.
    destruct ev; [destruct ctxIsDone; congruence |].
    destruct (Basic.done (Basic.basic s2)) as [[|]|]; congruence.
Qed.

Lemma Shutdown_returns_nil_witness :
  exists s1 : Basic.St,
    Basic.ShutdownBegin (sampleQueued [sampleRec 1 0; sampleRec 2 0]) = Ret tt s1
    /\ option_map pending (Basic.in_ (Basic.basic s1)) = Some [sampleRec 1 0; sampleRec 2 0]
    /\ Basic.ShutdownResume true Basic.CtxDone s1 = Some (Ret None s1).
Proof.
  destruct (Shutdown_returns_nil
              (sampleQueued [sampleRec 1 0; sampleRec 2 0])
              (mkChan [sampleRec 1 0; sampleRec 2 0] 2 false NoReceiver)
              eq_refl eq_refl)
    as (s1 & c1 & Hbegin & Hin & _ & Hpend & _ & Hres).
  exists s1. split; [exact Hbegin |].
  split; [rewrite Hin; cbn [option_map]; rewrite Hpend; reflexivity |].
  exact (proj1 (Hres s1 true)).
Defined.

(** C3 as stated fails: with two records queued, the worker not yet done
    and the deadline passed, only the context's case can end the wait, and
    Shutdown then returns nil, not a timeout signal. *)
Lemma Shutdown_deadline_first_returns_nil :
  exists s1 : Basic.St,
    Basic.ShutdownBegin (sampleQueued [sampleRec 1 0; sampleRec 2 0]) = Ret tt s1
    /\ Basic.done (Basic.basic s1) = Some false
    /\ Basic.ShutdownResume true Basic.WorkerDone s1 = None
    /\ Basic.ShutdownResume true Basic.CtxDone s1 = Some (Ret None s1)
    /\ ~ (exists (e : error) (s2 : Basic.St),
            Basic.ShutdownResume true Basic.CtxDone s1 = Some (Ret (Some e) s2)).
Proof.
  eexists. split; [reflexivity |]. repeat split.
  intros (e & s2 & H). discriminate H.
Qed.

(** When the worker is left to drain first, its signal ends the wait, the
    deadline still ahead. *)
Example Shutdown_after_drain :
  exists s1 pc s2,
    Basic.ShutdownBegin (sampleQueued [sampleRec 1 0; sampleRec 2 0]) = Ret tt s1
    /\ Basic.ShutdownResume false Basic.CtxDone s1 = None
    /\ Basic.ShutdownResume false Basic.WorkerDone s1 = None
    /\ Basic.workerRun 3 Basic.InRange s1 = (pc, s2)
    /\ pc = Basic.Exited
    /\ written (Basic.world s2) = [sampleRec 1 0; sampleRec 2 0]
    /\ reported (Basic.world s2) = [(0%nat, "disk full")]
    /\ counterValue 1 (Basic.world s2) = 1%nat
    /\ counterValue 2 (Basic.world s2) = 1%nat
    /\ Basic.ShutdownResume false Basic.WorkerDone s2 = Some (Ret None s2).
Proof.
  eexists _, _, _. split; [reflexivity |]. split; [reflexivity |].
  split; [reflexivity |]. split; [reflexivity |]. repeat split.
Qed.

(** ** Start *)

Lemma Start_state (maxChanCap : Z) (target : option Target) (rw : option RecordWriter)
    (filter : option Filter) (formatter : option Formatter) (maxQueued : Z)
    (s : Basic.St) :
  let f := match filter with
           | None => StdFilter.asFilter (StdFilter.mk Fatal zeroLevel)
           | Some f => f
           end in
  Basic.filter (Basic.basic (finalState (Basic.Start maxChanCap target rw filter formatter maxQueued s)))
  = Some f
  /\ returned (Basic.Start maxChanCap target rw filter formatter maxQueued s)
     = negb ((maxQueued <? 0) || (maxChanCap <? maxQueued))
  /\ (0 <= maxQueued <= maxChanCap ->
        Basic.in_ (Basic.basic (finalState (Basic.Start maxChanCap target rw filter formatter maxQueued s)))
        = Some (makeChan (Z.to_nat maxQueued))).
Proof.
  unfold Basic.Start. run_go. cbn [Basic.basic Basic.world].
  destruct (Z.ltb_spec maxQueued 0) as [Hneg|Hpos];
    destruct (Z.ltb_spec maxChanCap maxQueued) as [Hbig|Hfit]; cbn [orb negb];
    destruct filter; cbn; repeat split; lia.
Qed.

Lemma Start_wf (maxChanCap : Z) (target : option Target) (rw : option RecordWriter)
    (filter : option Filter) (formatter : option Formatter) (maxQueued : Z)
    (s : Basic.St) :
  0 <= maxQueued <= maxChanCap ->
  Basic.wfSt (finalState (Basic.Start maxChanCap target rw filter formatter maxQueued s)).
Proof.
  intros Hpos. unfold Basic.wfSt.
  rewrite (proj2 (proj2 (Start_state maxChanCap target rw filter formatter maxQueued s)) Hpos).
  reflexivity.
Qed.

(** A run from the zero value: Start with room for one record, one record
    accepted, a second one dropped by its logger's handler, the worker
    writing the first and then parking; a third record is then handed to
    the parked worker directly. *)
Example run_from_zero :
  let m := Basic.Metrics (fun _ => "*target.Writer") (Some sampleCollector) 0
                         (Basic.mkSt Basic.zero emptyWorld) in
  let r0 := Basic.Start sampleMaxChanCap (Some 7%nat) (Some sampleWriter) None None 1 (finalState m) in
  let r1 := Basic.Log sampleLogrs (sampleRec 2 0) (finalState r0) in
  let r2 := Basic.Log sampleLogrs (sampleRec 4 1) (finalState r1) in
  let s3 := snd (Basic.workerRun 2 Basic.InRange (finalState r2)) in
  let r4 := Basic.Log sampleLogrs (sampleRec 6 0) s3 in
  let s5 := snd (Basic.workerRun 1 Basic.InRange (finalState r4)) in
  r0 = Ret [Basic.GoStart; Basic.GoMetricsUpdater] (finalState r0)
  /\ r1 = Ret Basic.LogReturned (finalState r1)
  /\ r2 = Ret Basic.LogReturned (finalState r2)
  /\ counterValue 3 (Basic.world (finalState r2)) = 1%nat
  /\ written (Basic.world s3) = [sampleRec 2 0]
  /\ counterValue 1 (Basic.world s3) = 1%nat
  /\ option_map recvq (Basic.in_ (Basic.basic s3)) = Some ReceiverParked
  /\ r4 = Ret Basic.LogReturned (finalState r4)
  /\ option_map buf (Basic.in_ (Basic.basic (finalState r4))) = Some []
  /\ written (Basic.world s5) = [sampleRec 2 0; sampleRec 6 0].
Proof. vm_compute. repeat split. Qed.

(** C2, as the code has it.  Start with a nil Filter installs the Std filter
    with level threshold Fatal and the zero stacktrace threshold: a severity
    is enabled iff its rank is at most 1, so that of the named severities
    exactly Panic and Fatal are enabled; a stack trace is asked for iff the
    rank is at most 0. *)
Theorem Start_nil_filter_fallback :
  forall (maxChanCap : Z) (target : option Target) (rw : option RecordWriter)
         (formatter : option Formatter) (maxQueued : Z) (s : Basic.St),
    exists f : Filter,
      Basic.filter (Basic.basic (finalState (Basic.Start maxChanCap target rw None formatter maxQueued s)))
      = Some f
      /\ (forall l, IsEnabled f l = true <-> ID l <= ID Fatal)
      /\ (forall l, IsStacktraceEnabled f l = true <-> ID l <= 0)
      /\ (forall l, In l namedLevels -> (IsEnabled f l = true <-> l = Panic \/ l = Fatal)).
Proof.
  intros maxChanCap target rw formatter maxQueued s.
  exists (StdFilter.asFilter (StdFilter.mk Fatal zeroLevel)).
  split; [apply (Start_state maxChanCap target rw None formatter maxQueued s) |].
  cbn [StdFilter.asFilter IsEnabled IsStacktraceEnabled].
  split; [intros l; apply (IsEnabled_le (StdFilter.mk Fatal zeroLevel)) |].
  split; [intros l; apply (IsStacktraceEnabled_le (StdFilter.mk Fatal zeroLevel)) |].
  intros l Hl. cbn in Hl.
  destruct Hl as [<-|[<-|[<-|[<-|[<-|[<-|[<-|[]]]]]]]]; cbn;
    (split; [intros H; try discriminate H; tauto | intros [H|H]; try discriminate H; reflexivity]).
Qed.

(** C2 as stated fails: under the fallback filter Fatal is enabled too, and
    Fatal is not the severity of lowest rank. *)
Lemma Start_nil_filter_enables_Fatal :
  exists f : Filter,
    Basic.filter
      (Basic.basic
         (finalState (Basic.Start sampleMaxChanCap (Some 7%nat) (Some sampleWriter) None None 2
                                  (Basic.mkSt Basic.zero emptyWorld))))
    = Some f
    /\ IsEnabled f Panic = true
    /\ IsEnabled f Fatal = true
    /\ ID Panic < ID Fatal
    /\ ~ (forall l, In l namedLevels -> IsEnabled f l = true ->
            forall l', In l' namedLevels -> ID l <= ID l').
Proof.
  eexists. split; [reflexivity |]. repeat split.
  intros H. specialize (H Fatal (or_intror (or_introl eq_refl)) eq_refl
                          Panic (or_introl eq_refl)).
  cbn in H. lia.
Qed.

(* ===================================================================== *)
(** * Further properties                                                  *)
(* ===================================================================== *)

(** ** The handle store, continued *)

Lemma written_IncIfSet (k : option Counter) (wd : World) :
  written (IncIfSet k wd) = written wd.
Proof. destruct k; reflexivity. Qed.

Lemma reported_IncIfSet (k : option Counter) (wd : World) :
  reported (IncIfSet k wd) = reported wd.
Proof. destruct k; reflexivity. Qed.

Lemma gauges_IncIfSet (k : option Counter) (wd : World) :
  gauges (IncIfSet k wd) = gauges wd.
Proof. destruct k; reflexivity. Qed.

(** ** The standard filter, continued *)

(** X1. For an enabled severity whose rank is one of Panic .. Trace,
    GetEnabledLevel returns the package's constant of that rank: name,
    display name and colour are the constant's, not the argument's, and the
    stacktrace flag is exactly the stacktrace comparison (a flag the
    argument carried is dropped). *)
Theorem GetEnabledLevel_named :
  forall (lt : StdFilter.t) (level : Level),
    isNamedRank (ID level) = true ->
    StdFilter.IsEnabled lt level = true ->
    exists n : Level,
      In n namedLevels
      /\ ID n = ID level
      /\ StdFilter.GetEnabledLevel lt level
         = (mkLevel (ID n) (Name n) (DisplayName n) (Color n)
                    (StdFilter.IsStacktraceEnabled lt level),
            true).
Proof.
  intros lt level Hnamed Hen.
  destruct (canonical_named_rank level Hnamed) as [Hin Hid].
  exists (StdFilter.canonical level). split; [exact Hin |]. split; [exact Hid |].
  unfold StdFilter.GetEnabledLevel.
  change (ID level <=? ID (StdFilter.Lvl lt)) with (StdFilter.IsEnabled lt level).
  change (ID level <=? ID (StdFilter.Stacktrace lt))
    with (StdFilter.IsStacktraceEnabled lt level).
  rewrite Hen.
  assert (Hst : Stacktrace (StdFilter.canonical level) = false).
  { cbn in Hin.
    destruct Hin as [<-|[<-|[<-|[<-|[<-|[<-|[<-|[]]]]]]]]; reflexivity. }
  destruct (StdFilter.IsStacktraceEnabled lt level); unfold setStacktrace.
  - reflexivity.
  - destruct (StdFilter.canonical level); cbn in Hst |- *. rewrite Hst. reflexivity.
Qed.

Lemma GetEnabledLevel_named_witness :
  exists n : Level,
    In n namedLevels
    /\ ID n = 2
    /\ StdFilter.GetEnabledLevel (StdFilter.mk Warn Error) (mkLevel 2 "custom" "CST" Blue false)
       = (mkLevel (ID n) (Name n) (DisplayName n) (Color n) true, true).
Proof.
  exact (GetEnabledLevel_named (StdFilter.mk Warn Error)
           (mkLevel 2 "custom" "CST" Blue false) eq_refl eq_refl).
Defined.

(** X2. GetEnabledLevel is idempotent on enabled severities: the level it
    returns is enabled again and is returned unchanged by a second call. *)
Theorem GetEnabledLevel_idempotent :
  forall (lt : StdFilter.t) (level : Level),
    StdFilter.IsEnabled lt level = true ->
    StdFilter.GetEnabledLevel lt (fst (StdFilter.GetEnabledLevel lt level))
    = StdFilter.GetEnabledLevel lt level.
Proof.
  intros lt level Hen.
  assert (Hcan : forall l, StdFilter.canonical (StdFilter.canonical l) = StdFilter.canonical l
                           /\ ID (StdFilter.canonical l) = ID l).
  { intros l. destruct (isNamedRank (ID l)) eqn:Hn.
    - destruct (canonical_named_rank l Hn) as [Hin Hid]. split; [| exact Hid].
      cbn in Hin. destruct Hin as [<-|[<-|[<-|[<-|[<-|[<-|[<-|[]]]]]]]]; reflexivity.
    - rewrite (canonical_unnamed_id l Hn). split; [apply (canonical_unnamed_id l Hn) | reflexivity]. }
  assert (Hset : forall l, StdFilter.canonical (setStacktrace l)
                           = (if isNamedRank (ID l) then StdFilter.canonical l
                              else setStacktrace l)).
  { intros l. destruct (isNamedRank (ID l)) eqn:Hn.
    - unfold StdFilter.canonical.
      cbn [setStacktrace ID Panic Fatal Error Warn Info Debug Trace].
      repeat match goal with
             | |- context [?a =? ?b] => destruct (Z.eqb_spec a b); [reflexivity |]
             end.
      exfalso. apply not_false_iff_true in Hn. apply Hn. apply isNamedRank_false. lia.
    - apply (canonical_unnamed_id (setStacktrace l)). exact Hn. }
  unfold StdFilter.GetEnabledLevel at 2.
  change (ID level <=? ID (StdFilter.Lvl lt)) with (StdFilter.IsEnabled lt level).
  change (ID level <=? ID (StdFilter.Stacktrace lt))
    with (StdFilter.IsStacktraceEnabled lt level).
  rewrite Hen. cbn [fst].
  destruct (Hcan level) as [Hcc Hcid].
  unfold StdFilter.IsEnabled, StdFilter.IsStacktraceEnabled in *.
  destruct (ID level <=? ID (StdFilter.Stacktrace lt)) eqn:Hst.
  - unfold StdFilter.GetEnabledLevel. cbn [setStacktrace ID].
    rewrite Hcid, Hen, Hst.
    change (mkLevel (ID (StdFilter.canonical level)) (Name (StdFilter.canonical level))
                    (DisplayName (StdFilter.canonical level))
                    (Color (StdFilter.canonical level)) true)
      with (setStacktrace (StdFilter.canonical level)).
    rewrite Hset, Hcid.
    destruct (isNamedRank (ID level)) eqn:Hn.
    + rewrite Hcc. reflexivity.
    + reflexivity.
  - unfold StdFilter.GetEnabledLevel. rewrite Hcid, Hen, Hst, Hcc. reflexivity.
Qed.

Lemma GetEnabledLevel_idempotent_witness :
  StdFilter.GetEnabledLevel (StdFilter.mk Warn Error)
    (fst (StdFilter.GetEnabledLevel (StdFilter.mk Warn Error)
            (mkLevel 2 "custom" "CST" Blue false)))
  = (mkLevel 2 "error" "ERR" Red true, true).
Proof.
  rewrite (GetEnabledLevel_idempotent (StdFilter.mk Warn Error)
             (mkLevel 2 "custom" "CST" Blue false) eq_refl).
  reflexivity.
Defined.

(** X3. The answer of GetEnabledLevel agrees with the two predicates: its
    boolean is IsEnabled; for an enabled severity the level returned has the
    rank asked for and carries the stacktrace flag whenever the stacktrace
    threshold asks for one; for a disabled severity the level returned has
    nothing of the argument: it is the zero Level (rank 0, empty names),
    with the stacktrace flag as the stacktrace threshold has it. *)
Theorem GetEnabledLevel_agrees :
  forall (lt : StdFilter.t) (level : Level),
    let (l', enabled) := StdFilter.GetEnabledLevel lt level in
    enabled = StdFilter.IsEnabled lt level
    /\ (enabled = true ->
          ID l' = ID level
          /\ (StdFilter.IsStacktraceEnabled lt level = true -> Stacktrace l' = true))
    /\ (enabled = false ->
          l' = mkLevel 0 "" "" NoColor (StdFilter.IsStacktraceEnabled lt level)).
Proof.
  intros lt level. unfold StdFilter.GetEnabledLevel.
  change (ID level <=? ID (StdFilter.Lvl lt)) with (StdFilter.IsEnabled lt level).
  change (ID level <=? ID (StdFilter.Stacktrace lt))
    with (StdFilter.IsStacktraceEnabled lt level).
  assert (Hid : ID (StdFilter.canonical level) = ID level).
  { destruct (isNamedRank (ID level)) eqn:Hn.
    - apply (canonical_named_rank level Hn).
    - rewrite (canonical_unnamed_id level Hn). reflexivity. }
  destruct (StdFilter.IsEnabled lt level), (StdFilter.IsStacktraceEnabled lt level);
    cbn [setStacktrace ID Stacktrace]; repeat split; try discriminate; auto.
Qed.

(** X4. The stacktrace requirement is monotone in the rank, and when the
    stacktrace threshold is no less severe than the level threshold, every
    severity that requires a stack trace is enabled. *)
Theorem StdFilter_stacktrace_monotone :
  forall (lt : StdFilter.t) (s1 s2 : Level),
    ID s1 <= ID s2 ->
    StdFilter.IsStacktraceEnabled lt s2 = true ->
    StdFilter.IsStacktraceEnabled lt s1 = true
    /\ (ID (StdFilter.Stacktrace lt) <= ID (StdFilter.Lvl lt) ->
          StdFilter.IsEnabled lt s1 = true /\ StdFilter.IsEnabled lt s2 = true).
Proof.
  intros lt s1 s2 Hle H2. apply IsStacktraceEnabled_le in H2.
  split.
  - apply IsStacktraceEnabled_le. lia.
  - intros Hth. split; apply IsEnabled_le; lia.
Qed.

Lemma StdFilter_stacktrace_monotone_witness :
  StdFilter.IsStacktraceEnabled (StdFilter.mk Warn Error) Fatal = true
  /\ StdFilter.IsEnabled (StdFilter.mk Warn Error) Fatal = true.
Proof.
  destruct (StdFilter_stacktrace_monotone (StdFilter.mk Warn Error) Fatal Error) as [H1 H2].
  - cbn. lia.
  - reflexivity.
  - split; [exact H1 |]. apply H2. cbn. lia.
Defined.

(** ** The worker, continued *)

Lemma ordinary_cons (rec : LogRec) (q : list LogRec) :
  ordinary (rec :: q) = match flush rec with
                        | None => rec :: ordinary q
                        | Some _ => ordinary q
                        end.
Proof. unfold ordinary. cbn [List.filter]. destruct (flush rec); reflexivity. Qed.

Lemma ordinary_app (q1 q2 : list LogRec) :
  ordinary (q1 ++ q2) = ordinary q1 ++ ordinary q2.
Proof. unfold ordinary. apply List.filter_app. Qed.

(** The step of the loop on an ordinary record when no writer is set. *)
Lemma workerStep_range_nil_writer (s : Basic.St) (c c' : Chan) (rec : LogRec) :
  Basic.in_ (Basic.basic s) = Some c ->
  recvNow c = Some (rec, c') ->
  flush rec = None ->
  Basic.w (Basic.basic s) = None ->
  Basic.workerStep Basic.InRange s
  = (Basic.InRange,
     Basic.mkSt (Basic.with_in (Some c') (Basic.basic s))
                (Fprintln_stderr
                   "Basic.start --  runtime error: invalid memory address or nil pointer dereference"
                   (Basic.world s))).
Proof.
  intros Hin Hrecv Hfl Hw.
  unfold Basic.workerStep, Basic.recovering, Basic.rangeStep, Basic.writeInLoop,
    Basic.callWrite.
  run_go. rewrite Hin, Hrecv, Hfl. cbn [Basic.basic Basic.with_in Basic.w].
  rewrite Hw. reflexivity.
Qed.

(** X5. Panic isolation in the worker loop.  When the writer panics on an
    ordinary record, or no writer is set, the step ends at the head of the
    loop with the rest of the queue: the record is gone, one line went to
    stderr, no counter moved and nothing was reported to the logger. *)
Theorem worker_panic_isolated :
  forall (s : Basic.St) (c c' : Chan) (rec : LogRec),
    Basic.in_ (Basic.basic s) = Some c ->
    wfChan c = true ->
    recvNow c = Some (rec, c') ->
    flush rec = None ->
    match Basic.w (Basic.basic s) with
    | Some rw => exists v, Write rw (written (Basic.world s)) rec = WritePanic v
    | None => True
    end ->
    exists (s' : Basic.St) (line : string),
      Basic.workerStep Basic.InRange s = (Basic.InRange, s')
      /\ Basic.basic s' = Basic.with_in (Some c') (Basic.basic s)
      /\ pending c = rec :: pending c'
      /\ counters (Basic.world s') = counters (Basic.world s)
      /\ reported (Basic.world s') = reported (Basic.world s)
      /\ flushed (Basic.world s') = flushed (Basic.world s)
      /\ stderr (Basic.world s') = stderr (Basic.world s) ++ [line]
      /\ written (Basic.world s')
         = written (Basic.world s)
           ++ match Basic.w (Basic.basic s) with Some _ => [rec] | None => [] end.
Proof.
  intros s c c' rec Hin Hwf Hrecv Hfl Hw.
  pose proof (pending_recvNow c Hwf) as Hp. rewrite Hrecv in Hp.
  destruct (Basic.w (Basic.basic s)) as [rw|] eqn:Hrw.
  - destruct Hw as [v Hv].
    pose proof (workerStep_range_ordinary s c c' rec rw Hin Hrecv Hfl Hrw) as Hstep.
    cbv zeta in Hstep. rewrite Hv in Hstep.
    eexists _, _. split; [exact Hstep |]. cbn. repeat split. exact Hp.
  - eexists _, _. split; [exact (workerStep_range_nil_writer s c c' rec Hin Hrecv Hfl Hrw) |].
    cbn. rewrite app_nil_r. repeat split. exact Hp.
Qed.

Lemma worker_panic_isolated_witness :
  exists s' : Basic.St,
    Basic.workerStep Basic.InRange
      (Basic.mkSt (Basic.with_in (Some (mkChan [sampleRec 1 0; sampleRec 2 0] 2 false NoReceiver))
                                 Basic.zero) emptyWorld)
    = (Basic.InRange, s')
    /\ option_map pending (Basic.in_ (Basic.basic s')) = Some [sampleRec 2 0]
    /\ written (Basic.world s') = []
    /\ reported (Basic.world s') = [].
Proof.
  destruct (worker_panic_isolated
              (Basic.mkSt (Basic.with_in
                             (Some (mkChan [sampleRec 1 0; sampleRec 2 0] 2 false NoReceiver))
                             Basic.zero) emptyWorld)
              (mkChan [sampleRec 1 0; sampleRec 2 0] 2 false NoReceiver)
              (mkChan [sampleRec 2 0] 2 false NoReceiver)
              (sampleRec 1 0) eq_refl eq_refl eq_refl eq_refl I)
    as (s' & line & Hstep & Hb & _ & _ & Hrep & _ & _ & Hwr).
  exists s'. split; [exact Hstep |]. rewrite Hb. repeat split; assumption.
Defined.

(** X6. A writer panic during a flush drain abandons the flush: the worker
    is back at the head of its loop, the record is gone, and the channel of
    the flush marker is not signalled. *)
Theorem flush_abandoned_on_panic :
  forall (d : FlushChan) (s : Basic.St) (c c' : Chan) (rec : LogRec)
         (rw : RecordWriter) (v : string),
    Basic.in_ (Basic.basic s) = Some c ->
    recvNow c = Some (rec, c') ->
    flush rec = None ->
    Basic.w (Basic.basic s) = Some rw ->
    Write rw (written (Basic.world s)) rec = WritePanic v ->
    exists s' : Basic.St,
      Basic.workerStep (Basic.InFlush d) s = (Basic.InRange, s')
      /\ Basic.basic s' = Basic.with_in (Some c') (Basic.basic s)
      /\ flushed (Basic.world s') = flushed (Basic.world s)
      /\ counters (Basic.world s') = counters (Basic.world s)
      /\ reported (Basic.world s') = reported (Basic.world s)
      /\ stderr (Basic.world s') = stderr (Basic.world s) ++ ["Basic.start --  " +:+ v].
Proof.
  intros d s c c' rec rw v Hin Hrecv Hfl Hw Hv.
  pose proof (workerStep_flush_ordinary d s c c' rec rw Hin Hrecv Hfl Hw) as Hstep.
  cbv zeta in Hstep. rewrite Hv in Hstep.
  eexists. split; [exact Hstep |]. repeat split.
Qed.

Lemma flush_abandoned_on_panic_witness :
  exists s' : Basic.St,
    Basic.workerStep (Basic.InFlush 9%nat)
      (Basic.mkSt (Basic.mk None "" None None
                     (Some (mkChan [sampleRec 1 0] 2 false NoReceiver)) (Some false)
                     (Some (mkWriter (fun _ _ => WritePanic "boom")))
                     None None None None None 0) emptyWorld)
    = (Basic.InRange, s')
    /\ flushed (Basic.world s') = []
    /\ stderr (Basic.world s') = ["Basic.start --  boom"].
Proof.
  destruct (flush_abandoned_on_panic 9%nat
              (Basic.mkSt (Basic.mk None "" None None
                             (Some (mkChan [sampleRec 1 0] 2 false NoReceiver)) (Some false)
                             (Some (mkWriter (fun _ _ => WritePanic "boom")))
                             None None None None None 0) emptyWorld)
              (mkChan [sampleRec 1 0] 2 false NoReceiver)
              (mkChan [] 2 false NoReceiver)
              (sampleRec 1 0) (mkWriter (fun _ _ => WritePanic "boom")) "boom"
              eq_refl eq_refl eq_refl eq_refl eq_refl)
    as (s' & Hstep & _ & Hfl & _ & _ & Herr).
  exists s'. repeat split; assumption.
Defined.

(** X7. A flush that meets a closed, drained queue is never acknowledged.
    The receive delivers a nil record, reading its flush field panics, the
    panic is recovered, and the worker's next step closes [done] and exits;
    the channel of the flush marker is not signalled on the way. *)
Theorem flush_on_closed_queue :
  forall (d : FlushChan) (s : Basic.St) (c : Chan),
    Basic.in_ (Basic.basic s) = Some c ->
    recvNow c = None ->
    closed c = true ->
    Basic.done (Basic.basic s) = Some false ->
    exists s' : Basic.St,
      Basic.workerRun 2 (Basic.InFlush d) s = (Basic.Exited, s')
      /\ Basic.basic s' = Basic.with_done (Some true) (Basic.basic s)
      /\ flushed (Basic.world s') = flushed (Basic.world s)
      /\ written (Basic.world s') = written (Basic.world s)
      /\ counters (Basic.world s') = counters (Basic.world s)
      /\ stderr (Basic.world s')
         = stderr (Basic.world s)
           ++ ["Basic.start --  runtime error: invalid memory address or nil pointer dereference"].
Proof.
  intros d s c Hin Hrecv Hcl Hdone.
  assert (H1 : Basic.workerStep (Basic.InFlush d) s
               = (Basic.InRange,
                  Basic.mkSt (Basic.basic s)
                    (Fprintln_stderr
                       "Basic.start --  runtime error: invalid memory address or nil pointer dereference"
                       (Basic.world s)))).
  { unfold Basic.workerStep, Basic.recovering, Basic.flushStep. run_go.
    rewrite Hin, Hrecv, Hcl. reflexivity. }
  cbn [Basic.workerRun]. rewrite H1.
  rewrite (workerStep_range_end
             (Basic.mkSt (Basic.basic s)
                (Fprintln_stderr
                   "Basic.start --  runtime error: invalid memory address or nil pointer dereference"
                   (Basic.world s)))
             c Hin Hrecv Hcl Hdone).
  eexists. split; [reflexivity |]. repeat split.
Qed.

Lemma flush_on_closed_queue_witness :
  exists s' : Basic.St,
    Basic.workerRun 2 (Basic.InFlush 9%nat)
      (Basic.mkSt (Basic.with_in (Some (mkChan [] 2 true NoReceiver)) sampleBasic) emptyWorld)
    = (Basic.Exited, s')
    /\ flushed (Basic.world s') = [].
Proof.
  destruct (flush_on_closed_queue 9%nat
              (Basic.mkSt (Basic.with_in (Some (mkChan [] 2 true NoReceiver)) sampleBasic)
                          emptyWorld)
              (mkChan [] 2 true NoReceiver) eq_refl eq_refl eq_refl eq_refl)
    as (s' & Hrun & _ & Hfl & _).
  exists s'. split; assumption.
Defined.

(** *** Runs of the worker *)

Lemma workerRun_app (n m : nat) (pc : Basic.WorkerPC) (s : Basic.St) :
  Basic.workerRun (n + m) pc s
  = let '(pc', s') := Basic.workerRun n pc s in Basic.workerRun m pc' s'.
Proof.
  revert pc s. induction n as [|n IH]; intros pc s; [reflexivity |].
  cbn [Nat.add Basic.workerRun]. destruct (Basic.workerStep pc s) as [pc1 s1]. apply IH.
Qed.

(** What a step of the loop on an ordinary record leaves behind, for a
    writer that does not panic. *)
Lemma range_step_summary (rw : RecordWriter) (s : Basic.St) (c c' : Chan) (rec : LogRec) :
  (forall h r v, Write rw h r <> WritePanic v) ->
  Basic.in_ (Basic.basic s) = Some c ->
  recvNow c = Some (rec, c') ->
  flush rec = None ->
  Basic.w (Basic.basic s) = Some rw ->
  exists wd' : World,
    Basic.workerStep Basic.InRange s
    = (Basic.InRange, Basic.mkSt (Basic.with_in (Some c') (Basic.basic s)) wd')
    /\ written wd' = written (Basic.world s) ++ [rec]
    /\ flushed wd' = flushed (Basic.world s)
    /\ stderr wd' = stderr (Basic.world s).
Proof.
  intros Hnp Hin Hrecv Hfl Hw.
  pose proof (workerStep_range_ordinary s c c' rec rw Hin Hrecv Hfl Hw) as Hstep.
  cbv zeta in Hstep.
  destruct (Write rw (written (Basic.world s)) rec) as [|e|v] eqn:Hres.
  - eexists. split; [exact Hstep |].
    destruct (IncIfSet_spec (Basic.loggedCounter (Basic.basic s))
                (noteWrite rec (Basic.world s))) as (_ & _ & _ & _ & _ & Hse & Hwr & Hfd).
    rewrite Hse, Hwr, Hfd. repeat split.
  - eexists. split; [exact Hstep |]. cbn [ReportError written flushed stderr].
    destruct (IncIfSet_spec (Basic.errorCounter (Basic.basic s))
                (noteWrite rec (Basic.world s))) as (_ & _ & _ & _ & _ & Hse & Hwr & Hfd).
    rewrite Hse, Hwr, Hfd. repeat split.
  - exfalso. exact (Hnp _ _ _ Hres).
Qed.

(** The same for a step of the flush drain, on any record; only the error
    counter can move. *)
Lemma flush_step_summary (rw : RecordWriter) (d : FlushChan)
    (s : Basic.St) (c c' : Chan) (rec : LogRec) :
  (forall h r v, Write rw h r <> WritePanic v) ->
  Basic.in_ (Basic.basic s) = Some c ->
  recvNow c = Some (rec, c') ->
  Basic.w (Basic.basic s) = Some rw ->
  exists wd' : World,
    Basic.workerStep (Basic.InFlush d) s
    = (Basic.InFlush d, Basic.mkSt (Basic.with_in (Some c') (Basic.basic s)) wd')
    /\ written wd' = written (Basic.world s) ++ ordinary [rec]
    /\ flushed wd' = flushed (Basic.world s)
    /\ (forall h, Basic.errorCounter (Basic.basic s) <> Some h ->
          counterValue h wd' = counterValue h (Basic.world s)).
Proof.
  intros Hnp Hin Hrecv Hw. rewrite ordinary_cons.
  destruct (flush rec) as [d'|] eqn:Hfl.
  - rewrite (workerStep_flush_marker d d' s c c' rec Hin Hrecv Hfl).
    eexists. split; [reflexivity |]. cbn [ordinary List.filter]. rewrite app_nil_r.
    repeat split.
  - pose proof (workerStep_flush_ordinary d s c c' rec rw Hin Hrecv Hfl Hw) as Hstep.
    cbv zeta in Hstep.
    destruct (Write rw (written (Basic.world s)) rec) as [|e|v] eqn:Hres.
    + eexists. split; [exact Hstep |]. repeat split.
    + eexists. split; [exact Hstep |]. cbn [ReportError written flushed].
      destruct (IncIfSet_spec (Basic.errorCounter (Basic.basic s))
                  (noteWrite rec (Basic.world s))) as (_ & Hne & _ & _ & _ & _ & Hwr & Hfd).
      rewrite Hwr, Hfd. repeat split. intros h Hh. apply (Hne h Hh).
    + exfalso. exact (Hnp _ _ _ Hres).
Qed.

(** The loop works through a run of ordinary records at the head of the
    queue, one per step, in order. *)
Lemma workerRun_ordinary_prefix (rw : RecordWriter) :
  (forall h r v, Write rw h r <> WritePanic v) ->
  forall (before rest : list LogRec) (s : Basic.St) (c : Chan),
    Basic.in_ (Basic.basic s) = Some c ->
    wfChan c = true ->
    Basic.w (Basic.basic s) = Some rw ->
    pending c = before ++ rest ->
    Forall (fun r => flush r = None) before ->
    exists (c' : Chan) (wd' : World),
      Basic.workerRun (length before) Basic.InRange s
      = (Basic.InRange, Basic.mkSt (Basic.with_in (Some c') (Basic.basic s)) wd')
      /\ wfChan c' = true
      /\ closed c' = closed c
      /\ pending c' = rest
      /\ written wd' = written (Basic.world s) ++ before
      /\ flushed wd' = flushed (Basic.world s).
Proof.
  intros Hnp before. induction before as [|r before IH];
    intros rest s c Hin Hwf Hw Hpend Hord.
  - exists c, (Basic.world s). cbn [length Basic.workerRun].
    rewrite app_nil_r. repeat split; try assumption.
    destruct s as [b wd]. cbn in *. f_equal. f_equal.
    destruct b; cbn in *. subst. reflexivity.
  - apply Forall_cons_iff in Hord as [Hfl Hord].
    pose proof (pending_recvNow c Hwf) as Hp.
    destruct (recvNow c) as [[rec c1]|] eqn:Hrecv; [| rewrite Hp in Hpend; discriminate].
    rewrite Hp in Hpend. cbn [app] in Hpend. injection Hpend as -> Hpend.
    destruct (recvNow_closed c c1 r Hrecv) as [Hcl1 _].
    destruct (range_step_summary rw s c c1 r Hnp Hin Hrecv Hfl Hw)
      as (wd1 & Hstep & Hwr1 & Hfd1 & _).
    destruct (IH rest (Basic.mkSt (Basic.with_in (Some c1) (Basic.basic s)) wd1) c1)
      as (c' & wd' & Hrun & Hwf' & Hcl' & Hpend' & Hwr' & Hfd'); try assumption;
      try reflexivity.
    { apply (wfChan_recvNow c c1 r Hwf Hrecv). }
    exists c', wd'. cbn [length Basic.workerRun]. rewrite Hstep, Hrun.
    cbn [Basic.basic Basic.world] in *.
    repeat split; try assumption.
    + congruence.
    + rewrite Hwr', Hwr1, <- app_assoc. reflexivity.
    + congruence.
Qed.

(** A flush drain empties an open queue and then signals its channel. *)
Lemma workerRun_flush (rw : RecordWriter) (d : FlushChan) :
  (forall h r v, Write rw h r <> WritePanic v) ->
  forall (n : nat) (s : Basic.St) (c : Chan),
    Basic.in_ (Basic.basic s) = Some c ->
    wfChan c = true ->
    closed c = false ->
    Basic.w (Basic.basic s) = Some rw ->
    length (pending c) = n ->
    exists (c' : Chan) (wd' : World),
      Basic.workerRun (S n) (Basic.InFlush d) s
      = (Basic.InRange, Basic.mkSt (Basic.with_in (Some c') (Basic.basic s)) wd')
      /\ pending c' = []
      /\ closed c' = false
      /\ written wd' = written (Basic.world s) ++ ordinary (pending c)
      /\ flushed wd' = flushed (Basic.world s) ++ [d]
      /\ (forall h, Basic.errorCounter (Basic.basic s) <> Some h ->
            counterValue h wd' = counterValue h (Basic.world s)).
Proof.
  intros Hnp n. induction n as [|n IH]; intros s c Hin Hwf Hcl Hw Hlen.
  - pose proof (pending_recvNow c Hwf) as Hp.
    destruct (recvNow c) as [[rec c1]|] eqn:Hrecv; [rewrite Hp in Hlen; discriminate |].
    exists c, (signalFlush d (Basic.world s)).
    cbn [Basic.workerRun]. rewrite (workerStep_flush_drained d s c Hin Hrecv Hcl).
    rewrite Hp. cbn [ordinary List.filter]. rewrite app_nil_r.
    repeat split; try assumption.
    destruct s as [b wd]. cbn in *. f_equal. f_equal.
    destruct b; cbn in *. subst. reflexivity.
  - pose proof (pending_recvNow c Hwf) as Hp.
    destruct (recvNow c) as [[rec c1]|] eqn:Hrecv; [| rewrite Hp in Hlen; discriminate].
    rewrite Hp in Hlen. injection Hlen as Hlen.
    destruct (recvNow_closed c c1 rec Hrecv) as [Hcl1 _].
    destruct (flush_step_summary rw d s c c1 rec Hnp Hin Hrecv Hw)
      as (wd1 & Hstep & Hwr1 & Hfd1 & Hcnt1).
    destruct (IH (Basic.mkSt (Basic.with_in (Some c1) (Basic.basic s)) wd1) c1)
      as (c' & wd' & Hrun & Hpend' & Hcl' & Hwr' & Hfd' & Hcnt'); try assumption;
      try reflexivity.
    { apply (wfChan_recvNow c c1 rec Hwf Hrecv). }
    { congruence. }
    exists c', wd'.
    change (Basic.workerRun (S (S n)) (Basic.InFlush d) s)
      with (let '(pc', s1) := Basic.workerStep (Basic.InFlush d) s in
            Basic.workerRun (S n) pc' s1).
    rewrite Hstep, Hrun. cbn [Basic.basic Basic.world] in *.
    repeat split; try assumption.
    + rewrite Hwr', Hwr1, Hp, <- app_assoc.
      change (rec :: pending c1) with ([rec] ++ pending c1). rewrite ordinary_app.
      reflexivity.
    + congruence.
    + intros h Hh. rewrite (Hcnt' h Hh). apply (Hcnt1 h Hh).
Qed.

(** The step of the loop on a flush marker: the worker enters [flush]. *)
Lemma workerStep_range_marker (d : FlushChan) (s : Basic.St) (c c' : Chan) (m : LogRec) :
  Basic.in_ (Basic.basic s) = Some c ->
  recvNow c = Some (m, c') ->
  flush m = Some d ->
  Basic.workerStep Basic.InRange s
  = (Basic.InFlush d, Basic.mkSt (Basic.with_in (Some c') (Basic.basic s)) (Basic.world s)).
Proof.
  intros Hin Hrecv Hfl.
  unfold Basic.workerStep, Basic.recovering, Basic.rangeStep. run_go.
  rewrite Hin, Hrecv, Hfl. reflexivity.
Qed.

(** X8. The flush protocol.  On an open queue holding ordinary records, then
    a flush marker, then anything (ordinary records and further markers),
    the worker, left to run with a writer that does not panic, hands the
    records before the marker to the writer in queue order, then drains what
    is behind the marker as well, and signals the marker's channel once the
    queue is empty.  Markers met during the drain are skipped: their
    channels are not signalled. *)
Theorem flush_protocol :
  forall (rw : RecordWriter) (d : FlushChan) (m : LogRec)
         (before after : list LogRec) (s : Basic.St) (c : Chan),
    (forall h r v, Write rw h r <> WritePanic v) ->
    Basic.in_ (Basic.basic s) = Some c ->
    wfChan c = true ->
    closed c = false ->
    Basic.w (Basic.basic s) = Some rw ->
    flush m = Some d ->
    Forall (fun r => flush r = None) before ->
    pending c = before ++ m :: after ->
    exists s' : Basic.St,
      Basic.workerRun (length before + (1 + S (length after))) Basic.InRange s
      = (Basic.InRange, s')
      /\ pendingSt s' = []
      /\ written (Basic.world s') = written (Basic.world s) ++ before ++ ordinary after
      /\ flushed (Basic.world s') = flushed (Basic.world s) ++ [d]
      /\ config (Basic.basic s') = config (Basic.basic s).
Proof.
  intros rw d m before after s c Hnp Hin Hwf Hcl Hw Hm Hord Hpend.
  destruct (workerRun_ordinary_prefix rw Hnp before (m :: after) s c Hin Hwf Hw Hpend Hord)
    as (c1 & wd1 & Hrun1 & Hwf1 & Hcl1 & Hpend1 & Hwr1 & Hfd1).
  rewrite workerRun_app, Hrun1.
  set (s1 := Basic.mkSt (Basic.with_in (Some c1) (Basic.basic s)) wd1).
  pose proof (pending_recvNow c1 Hwf1) as Hp.
  destruct (recvNow c1) as [[m' c2]|] eqn:Hrecv; [| rewrite Hp in Hpend1; discriminate].
  rewrite Hp in Hpend1. injection Hpend1 as -> Hpend2.
  cbv beta iota.
  change (Basic.workerRun (1 + S (length after)) Basic.InRange s1)
    with (let '(pc', s2) := Basic.workerStep Basic.InRange s1 in
          Basic.workerRun (S (length after)) pc' s2).
  rewrite (workerStep_range_marker d s1 c1 c2 m eq_refl Hrecv Hm).
  cbv beta iota.
  destruct (recvNow_closed c1 c2 m Hrecv) as [Hcl2 _].
  destruct (workerRun_flush rw d Hnp (length after)
              (Basic.mkSt (Basic.with_in (Some c2) (Basic.basic s1)) (Basic.world s1)) c2)
    as (c3 & wd3 & Hrun3 & Hpend3 & _ & Hwr3 & Hfd3 & _); try reflexivity.
  { apply (wfChan_recvNow c1 c2 m Hwf1 Hrecv). }
  { congruence. }
  { exact Hw. }
  { congruence. }
  rewrite Hrun3. eexists. split; [reflexivity |].
  subst s1. unfold pendingSt. cbn [Basic.basic Basic.world Basic.with_in Basic.in_] in *.
  split; [exact Hpend3 |].
  split; [rewrite Hwr3, Hwr1, Hpend2, <- app_assoc; reflexivity |].
  split; [rewrite Hfd3, Hfd1; reflexivity |].
  reflexivity.
Qed.

Lemma flush_protocol_witness :
  exists s' : Basic.St,
    Basic.workerRun 5 Basic.InRange
      (sampleQueued8 [sampleRec 1 0; sampleFlush 0 8; sampleRec 2 0; sampleFlush 0 9])
    = (Basic.InRange, s')
    /\ pendingSt s' = []
    /\ written (Basic.world s') = [sampleRec 1 0; sampleRec 2 0]
    /\ flushed (Basic.world s') = [8%nat].
Proof.
  destruct (flush_protocol sampleWriter 8%nat (sampleFlush 0 8)
              [sampleRec 1 0] [sampleRec 2 0; sampleFlush 0 9]
              (sampleQueued8 [sampleRec 1 0; sampleFlush 0 8; sampleRec 2 0; sampleFlush 0 9])
              (mkChan [sampleRec 1 0; sampleFlush 0 8; sampleRec 2 0; sampleFlush 0 9]
                      8 false NoReceiver))
    as (s' & Hrun & Hpend & Hwr & Hfd & _).
  - intros h r v. cbn. destruct (Nat.odd (recID r)); discriminate.
  - reflexivity.
  - reflexivity.
  - reflexivity.
  - reflexivity.
  - reflexivity.
  - repeat constructor.
  - reflexivity.
  - exists s'. repeat split; assumption.
Defined.

(** ** Shutdown and Log, continued *)

(** X9. Shutdown with the worker left to finish.  On a started target with
    a writer that does not panic and only ordinary records queued, Shutdown
    closes the queue; the worker then hands every queued record to the
    writer, in queue order, closes [done] and exits within one step per
    record plus one; after that the completion case of Shutdown's select can
    be taken, and Shutdown returns nil with nothing left in the queue. *)
Theorem Shutdown_drains :
  forall (rw : RecordWriter) (s : Basic.St) (c : Chan),
    (forall h r v, Write rw h r <> WritePanic v) ->
    Basic.in_ (Basic.basic s) = Some c ->
    wfChan c = true ->
    closed c = false ->
    Basic.done (Basic.basic s) = Some false ->
    Basic.w (Basic.basic s) = Some rw ->
    Forall (fun r => flush r = None) (pending c) ->
    exists s1 s2 : Basic.St,
      Basic.ShutdownBegin s = Ret tt s1
      /\ Basic.workerRun (S (length (pending c))) Basic.InRange s1 = (Basic.Exited, s2)
      /\ written (Basic.world s2) = written (Basic.world s) ++ pending c
      /\ pendingSt s2 = []
      /\ Basic.done (Basic.basic s2) = Some true
      /\ forall ctxIsDone : bool,
           Basic.ShutdownResume ctxIsDone Basic.WorkerDone s2 = Some (Ret None s2).
Proof.
  intros rw s c Hnp Hin Hwf Hcl Hdone Hw Hord.
  eexists _. 
  destruct (workerRun_drain rw Hnp (length (pending c))
              (Basic.mkSt (Basic.with_in (Some (closeChan c)) (Basic.basic s)) (Basic.world s))
              (closeChan c))
    as (s2 & Hrun & Hd & Hwr & Hq); try reflexivity; try assumption.
  exists s2. split; [apply (ShutdownBegin_open s c Hin Hcl) |].
  split; [exact Hrun |]. split; [exact Hwr |].
  split.
  { unfold pendingSt. destruct (Basic.in_ (Basic.basic s2)); [| reflexivity].
    cbn in Hq. congruence. }
  split; [exact Hd |].
  intros ctxIsDone. unfold Basic.ShutdownResume. rewrite Hd. reflexivity.
Qed.

Lemma Shutdown_drains_witness :
  exists s1 s2 : Basic.St,
    Basic.ShutdownBegin (sampleQueued [sampleRec 1 0; sampleRec 2 0]) = Ret tt s1
    /\ Basic.workerRun 3 Basic.InRange s1 = (Basic.Exited, s2)
    /\ written (Basic.world s2) = [sampleRec 1 0; sampleRec 2 0]
    /\ Basic.ShutdownResume false Basic.WorkerDone s2 = Some (Ret None s2).
Proof.
  destruct (Shutdown_drains sampleWriter
              (sampleQueued [sampleRec 1 0; sampleRec 2 0])
              (mkChan [sampleRec 1 0; sampleRec 2 0] 2 false NoReceiver))
    as (s1 & s2 & Hbegin & Hrun & Hwr & _ & _ & Hres).
  - intros h r v. cbn. destruct (Nat.odd (recID r)); discriminate.
  - reflexivity.
  - reflexivity.
  - reflexivity.
  - reflexivity.
  - reflexivity.
  - repeat constructor.
  - exists s1, s2. split; [exact Hbegin |]. split; [exact Hrun |].
    split; [exact Hwr |]. exact (Hres false).
Defined.

(** X10. The zero-wait path of Log.  On an open queue with room (or with
    the worker parked), Log returns at once with the record behind all
    pending ones; no counter moves, nothing is reported, the configuration
    is untouched, and the owning logger's overflow handler plays no part. *)
Theorem Log_fast_path :
  forall (logrs : LogrRef -> Logr.t) (rec : LogRec) (s : Basic.St) (c : Chan),
    Basic.in_ (Basic.basic s) = Some c ->
    closed c = false ->
    wfChan c = true ->
    sendReady c = true ->
    exists s' : Basic.St,
      Basic.Log logrs rec s = Ret Basic.LogReturned s'
      /\ Basic.world s' = Basic.world s
      /\ pendingSt s' = pendingSt s ++ [rec]
      /\ config (Basic.basic s') = config (Basic.basic s)
      /\ Basic.wfSt s'
      /\ forall logrs' : LogrRef -> Logr.t, Basic.Log logrs' rec s = Ret Basic.LogReturned s'.
Proof.
  intros logrs rec s c Hin Hcl Hwf Hrd.
  eexists. split; [apply (Log_room logrs rec s c Hin Hcl Hrd) |].
  unfold pendingSt, Basic.wfSt. cbn [Basic.basic Basic.world Basic.with_in Basic.in_].
  rewrite Hin.
  split; [reflexivity |].
  split; [apply (pending_send rec c Hwf Hrd) |].
  split; [reflexivity |].
  split; [apply (wfChan_send rec c Hwf Hrd) |].
  intros logrs'. apply (Log_room logrs' rec s c Hin Hcl Hrd).
Qed.

Lemma Log_fast_path_witness :
  exists s' : Basic.St,
    Basic.Log sampleLogrs (sampleRec 2 1) (sampleQueued [sampleRec 1 0])
    = Ret Basic.LogReturned s'
    /\ pendingSt s' = [sampleRec 1 0; sampleRec 2 1]
    /\ Basic.world s' = emptyWorld.
Proof.
  destruct (Log_fast_path sampleLogrs (sampleRec 2 1) (sampleQueued [sampleRec 1 0])
              (mkChan [sampleRec 1 0] 2 false NoReceiver) eq_refl eq_refl eq_refl eq_refl)
    as (s' & HLog & Hwd & Hpend & _).
  exists s'. split; [exact HLog |]. split; [exact Hpend | exact Hwd].
Defined.

(** X11. Use after Shutdown.  Once Shutdown has closed the queue, a call of
    Log panics (send on closed channel), a call of Log that was parked in
    its bounded wait panics when it is woken by the close, and a second
    Shutdown panics (close of closed channel); none of them changes the
    state. *)
Theorem use_after_Shutdown_panics :
  forall (logrs : LogrRef -> Logr.t) (render : LogRec -> string)
         (rec : LogRec) (s : Basic.St) (c : Chan),
    Basic.in_ (Basic.basic s) = Some c ->
    closed c = false ->
    exists s1 : Basic.St,
      Basic.ShutdownBegin s = Ret tt s1
      /\ Basic.Log logrs rec s1 = Panics "send on closed channel" s1
      /\ Basic.LogResume logrs render Basic.SendDone rec s1
         = Some (Panics "send on closed channel" s1)
      /\ Basic.ShutdownBegin s1 = Panics "close of closed channel" s1.
Proof.
  intros logrs render rec s c Hin Hcl.
  eexists. split; [apply (ShutdownBegin_open s c Hin Hcl) |].
  split; [apply (Log_closed logrs rec _ (closeChan c)); reflexivity |].
  split; [reflexivity |].
  pose proof (ShutdownBegin_panics
                (Basic.mkSt (Basic.with_in (Some (closeChan c)) (Basic.basic s))
                            (Basic.world s))) as H.
  cbn [Basic.basic Basic.with_in Basic.in_] in H. apply H. reflexivity.
Qed.

Lemma use_after_Shutdown_panics_witness :
  exists s1 : Basic.St,
    Basic.ShutdownBegin (sampleQueued [sampleRec 1 0]) = Ret tt s1
    /\ Basic.Log sampleLogrs (sampleRec 2 0) s1 = Panics "send on closed channel" s1.
Proof.
  destruct (use_after_Shutdown_panics sampleLogrs sampleRender (sampleRec 2 0)
              (sampleQueued [sampleRec 1 0])
              (mkChan [sampleRec 1 0] 2 false NoReceiver) eq_refl eq_refl)
    as (s1 & Hbegin & HLog & _).
  exists s1. split; assumption.
Defined.

(** X12. Before Start.  On a target that was not started the queue is nil:
    Log never enqueues; it asks the overflow handler with capacity 0 and
    drops, or counts the call as blocked and waits; the send case of that
    wait can never be taken, so the wait ends with the enqueue timeout.
    Shutdown panics (close of nil channel), and the worker, were it
    running, would make no progress. *)
Theorem before_Start :
  forall (logrs : LogrRef -> Logr.t) (render : LogRec -> string)
         (rec : LogRec) (s : Basic.St),
    Basic.in_ (Basic.basic s) = None ->
    let b := Basic.basic s in
    let drop := match Logr.OnTargetQueueFull (logrs (recLogr rec)) with
                | Some handler => handler (Basic.target b) rec 0
                | None => false
                end in
    Basic.Log logrs rec s
    = (if drop
       then Ret Basic.LogReturned (Basic.mkSt b (IncIfSet (Basic.droppedCounter b) (Basic.world s)))
       else Ret Basic.LogWaiting (Basic.mkSt b (IncIfSet (Basic.blockedCounter b) (Basic.world s))))
    /\ (forall wd, Basic.LogResume logrs render Basic.SendDone rec (Basic.mkSt b wd) = None)
    /\ Basic.ShutdownBegin s = Panics "close of nil channel" s
    /\ Basic.workerStep Basic.InRange s = (Basic.InRange, s).
Proof.
  intros logrs render rec s Hin b drop. subst b drop.
  split.
  { assert (Hcap : Basic.capIn (Basic.basic s) = 0).
    { unfold Basic.capIn. rewrite Hin. reflexivity. }
    unfold Basic.Log, Basic.LogQueueFull. run_go. rewrite Hin, Hcap.
    destruct (match Logr.OnTargetQueueFull (logrs (recLogr rec)) with
              | Some handler => handler (Basic.target (Basic.basic s)) rec 0
              | None => false
              end); reflexivity. }
  split.
  { intros wd. unfold Basic.LogResume. cbn [Basic.basic]. rewrite Hin. reflexivity. }
  split.
  { pose proof (ShutdownBegin_panics s) as H. rewrite Hin in H. exact H. }
  unfold Basic.workerStep, Basic.recovering, Basic.rangeStep. run_go. rewrite Hin.
  reflexivity.
Qed.

Lemma before_Start_witness :
  Basic.Log sampleLogrs (sampleRec 1 0) (Basic.mkSt Basic.zero emptyWorld)
  = Ret Basic.LogWaiting (Basic.mkSt Basic.zero emptyWorld)
  /\ Basic.ShutdownBegin (Basic.mkSt Basic.zero emptyWorld)
     = Panics "close of nil channel" (Basic.mkSt Basic.zero emptyWorld).
Proof.
  destruct (before_Start sampleLogrs sampleRender (sampleRec 1 0)
              (Basic.mkSt Basic.zero emptyWorld) eq_refl)
    as (HLog & _ & Hsh & _).
  split; [exact HLog | exact Hsh].
Defined.

(** ** Start, names and metrics, continued *)

(** What [Start] returns and leaves behind when the capacity is not
    negative and within what [make] accepts. *)
Lemma Start_returns (maxChanCap : Z) (target : option Target) (rw : option RecordWriter)
    (filter : option Filter) (formatter : option Formatter) (maxQueued : Z)
    (s : Basic.St) :
  0 <= maxQueued <= maxChanCap ->
  let b := Basic.basic s in
  Basic.Start maxChanCap target rw filter formatter maxQueued s
  = Ret (match Basic.queueSizeGauge b with
         | Some _ => [Basic.GoStart; Basic.GoMetricsUpdater]
         | None => [Basic.GoStart]
         end)
        (Basic.mkSt
           (Basic.mk target (Basic.name b)
              (Some (match filter with
                     | None => StdFilter.asFilter (StdFilter.mk Fatal zeroLevel)
                     | Some f => f
                     end))
              (Some (match formatter with
                     | None => DefaultFormatter
                     | Some f => f
                     end))
              (Some (makeChan (Z.to_nat maxQueued))) (Some false) rw
              (Basic.queueSizeGauge b) (Basic.loggedCounter b) (Basic.errorCounter b)
              (Basic.droppedCounter b) (Basic.blockedCounter b)
              (Basic.metricsUpdateFreqMillis b))
           (Basic.world s)).
Proof.
  intros Hpos. unfold Basic.Start. run_go. cbn [Basic.basic Basic.world].
  destruct (Z.ltb_spec maxQueued 0) as [Hneg|_]; [lia |].
  destruct (Z.ltb_spec maxChanCap maxQueued) as [Hbig|_]; [lia |].
  destruct filter, formatter; reflexivity.
Qed.



(** X14. Start with a negative capacity, or with one beyond what [make]
    accepts, panics when it makes the queue: no goroutine is launched and
    the two channels are as they were, but target, filter and formatter
    have been assigned already. *)
Theorem Start_negative_capacity :
  forall (maxChanCap : Z) (target : option Target) (rw : option RecordWriter)
         (filter : option Filter) (formatter : option Formatter) (maxQueued : Z)
         (s : Basic.St),
    maxQueued < 0 \/ maxChanCap < maxQueued ->
    exists s1 : Basic.St,
      Basic.Start maxChanCap target rw filter formatter maxQueued s
      = Panics "makechan: size out of range" s1
      /\ Basic.in_ (Basic.basic s1) = Basic.in_ (Basic.basic s)
      /\ Basic.done (Basic.basic s1) = Basic.done (Basic.basic s)
      /\ Basic.w (Basic.basic s1) = Basic.w (Basic.basic s)
      /\ Basic.target (Basic.basic s1) = target
      /\ Basic.filter (Basic.basic s1) <> None
      /\ Basic.formatter (Basic.basic s1) <> None
      /\ Basic.world s1 = Basic.world s.
Proof.
  intros maxChanCap target rw filter formatter maxQueued s Hout.
  unfold Basic.Start. run_go. cbn [Basic.basic Basic.world].
  assert (Hpanic : (maxQueued <? 0) || (maxChanCap <? maxQueued) = true).
  { apply orb_true_iff. rewrite !Z.ltb_lt. exact Hout. }
  rewrite Hpanic.
  eexists. split; [reflexivity |]. cbn.
  repeat split; destruct filter, formatter; discriminate.
Qed.

Lemma Start_negative_capacity_witness :
  exists s1 : Basic.St,
    Basic.Start sampleMaxChanCap (Some 7%nat) (Some sampleWriter) None None (-1)
                (Basic.mkSt Basic.zero emptyWorld)
    = Panics "makechan: size out of range" s1
    /\ Basic.in_ (Basic.basic s1) = None.
Proof.
  destruct (Start_negative_capacity sampleMaxChanCap (Some 7%nat) (Some sampleWriter)
              None None (-1) (Basic.mkSt Basic.zero emptyWorld))
    as (s1 & HS & Hin & _).
  - left. lia.
  - exists s1. split; [exact HS | exact Hin].
Defined.

(** A capacity of 2^62 is beyond the sample limit: [Start] panics. *)
Example Start_oversized_capacity :
  returned (Basic.Start sampleMaxChanCap (Some 7%nat) (Some sampleWriter) None None (2 ^ 62)
                        (Basic.mkSt Basic.zero emptyWorld)) = false.
Proof. reflexivity. Qed.

(** X15. IsLevelEnabled answers with the two answers of the filter and
    changes nothing; after a Start that returned (its capacity not negative
    and within what [make] accepts) with a nil filter these are the
    comparisons of the rank with 1 and with 0; on a target that was never
    started (nil filter) it panics. *)
Theorem IsLevelEnabled_after_Start :
  forall (maxChanCap : Z) (target : option Target) (rw : option RecordWriter)
         (filter : option Filter) (formatter : option Formatter) (maxQueued : Z)
         (s : Basic.St) (lvl : Level),
    0 <= maxQueued <= maxChanCap ->
    exists (gs : list Basic.Goroutine) (s1 : Basic.St),
      Basic.Start maxChanCap target rw filter formatter maxQueued s = Ret gs s1
      /\ Basic.IsLevelEnabled lvl s1
         = Ret (match filter with
                | Some f => (IsEnabled f lvl, IsStacktraceEnabled f lvl)
                | None => (ID lvl <=? 1, ID lvl <=? 0)
                end) s1
      /\ forall wd : World,
           Basic.IsLevelEnabled lvl (Basic.mkSt Basic.zero wd)
           = Panics "runtime error: invalid memory address or nil pointer dereference"
                    (Basic.mkSt Basic.zero wd).
Proof.
  intros maxChanCap target rw filter formatter maxQueued s lvl Hpos.
  eexists _, _.
  split; [apply (Start_returns maxChanCap target rw filter formatter maxQueued s Hpos) |].
  split; [| reflexivity].
  unfold Basic.IsLevelEnabled. run_go. cbn [Basic.basic Basic.filter].
  destruct filter; reflexivity.
Qed.

Lemma IsLevelEnabled_after_Start_witness :
  exists (gs : list Basic.Goroutine) (s1 : Basic.St),
    Basic.Start sampleMaxChanCap (Some 7%nat) (Some sampleWriter) None None 2
                (Basic.mkSt Basic.zero emptyWorld) = Ret gs s1
    /\ Basic.IsLevelEnabled Fatal s1 = Ret (true, false) s1
    /\ Basic.IsLevelEnabled Error s1 = Ret (false, false) s1.
Proof.
  destruct (IsLevelEnabled_after_Start sampleMaxChanCap (Some 7%nat) (Some sampleWriter)
              None None 2 (Basic.mkSt Basic.zero emptyWorld) Fatal)
    as (gs & s1 & HS & HF & _); [unfold sampleMaxChanCap; lia |].
  destruct (IsLevelEnabled_after_Start sampleMaxChanCap (Some 7%nat) (Some sampleWriter)
              None None 2 (Basic.mkSt Basic.zero emptyWorld) Error)
    as (gs' & s1' & HS' & HE & _); [unfold sampleMaxChanCap; lia |].
  rewrite HS in HS'. injection HS' as <- <-.
  exists gs, s1. split; [exact HS |]. split; [exact HF | exact HE].
Defined.

(** X16. Names.  After SetName the target prints as the name set, unless
    that name is empty, in which case it prints as the type of its target;
    of two calls of SetName the last one wins; SetName touches nothing but
    the name. *)
Theorem SetName_last_wins :
  forall (typeName : option Target -> string) (n1 n2 : string) (s : Basic.St),
    exists s1 s2 : Basic.St,
      Basic.SetName n1 s = Ret tt s1
      /\ Basic.SetName n2 s1 = Ret tt s2
      /\ Basic.SetName n2 s = Ret tt s2
      /\ Basic.String typeName (Basic.basic s2)
         = (if String.eqb n2 "" then typeName (Basic.target (Basic.basic s)) else n2)
      /\ Basic.world s2 = Basic.world s
      /\ Basic.in_ (Basic.basic s2) = Basic.in_ (Basic.basic s)
      /\ Basic.done (Basic.basic s2) = Basic.done (Basic.basic s)
      /\ (let '(t, _, f, fm, w, hs, u) := config (Basic.basic s2) in (t, f, fm, w, hs, u))
         = (let '(t, _, f, fm, w, hs, u) := config (Basic.basic s) in (t, f, fm, w, hs, u)).
Proof.
  intros typeName n1 n2 s. eexists _, _.
  split; [reflexivity |]. split; [reflexivity |]. repeat split.
Qed.

(** X17. Metrics takes its five handles from the collector under the name
    the target prints as at that moment, stores the update frequency, and
    touches neither the queue nor any counter; a later SetName does not
    change the handles. *)
Theorem Metrics_handles_named_at_call :
  forall (typeName : option Target -> string) (c : MetricsCollector)
         (updateFreqMillis : Z) (later : string) (s : Basic.St),
    let n := Basic.String typeName (Basic.basic s) in
    exists s1 s2 : Basic.St,
      Basic.Metrics typeName (Some c) updateFreqMillis s = Ret tt s1
      /\ Basic.queueSizeGauge (Basic.basic s1) = QueueSizeGauge c n
      /\ Basic.loggedCounter (Basic.basic s1) = LoggedCounter c n
      /\ Basic.errorCounter (Basic.basic s1) = ErrorCounter c n
      /\ Basic.droppedCounter (Basic.basic s1) = DroppedCounter c n
      /\ Basic.blockedCounter (Basic.basic s1) = BlockedCounter c n
      /\ Basic.metricsUpdateFreqMillis (Basic.basic s1) = updateFreqMillis
      /\ Basic.world s1 = Basic.world s
      /\ Basic.in_ (Basic.basic s1) = Basic.in_ (Basic.basic s)
      /\ Basic.SetName later s1 = Ret tt s2
      /\ (Basic.queueSizeGauge (Basic.basic s2), Basic.loggedCounter (Basic.basic s2),
          Basic.errorCounter (Basic.basic s2), Basic.droppedCounter (Basic.basic s2),
          Basic.blockedCounter (Basic.basic s2))
         = (QueueSizeGauge c n, LoggedCounter c n, ErrorCounter c n,
            DroppedCounter c n, BlockedCounter c n).
Proof.
  intros typeName c updateFreqMillis later s n. eexists _, _.
  split; [reflexivity |]. repeat split.
Qed.

(** ** The metrics sampler, continued *)

(** X18. A tick of the sampler sets the queue-size gauge to the number of
    records buffered at that moment, which is at most the capacity, and
    changes nothing else: no other gauge, no counter, no report, and
    nothing of the engine.  The sampler ends exactly by its [done] case,
    which can be taken only once [done] is closed. *)
Theorem sampler_tick :
  forall (s : Basic.St) (g : Gauge) (elapsed : Z),
    Basic.wfSt s ->
    Basic.queueSizeGauge (Basic.basic s) = Some g ->
    After_ready (Basic.tickDuration (Basic.basic s)) elapsed = true ->
    exists s' : Basic.St,
      Basic.samplerStep (Basic.Tick elapsed) s = Some (true, s')
      /\ Basic.basic s' = Basic.basic s
      /\ gauges (Basic.world s') !! g = Some (Basic.lenIn (Basic.basic s))
      /\ Z.of_nat (Basic.lenIn (Basic.basic s)) <= Basic.capIn (Basic.basic s)
      /\ (forall g', g' <> g -> gauges (Basic.world s') !! g' = gauges (Basic.world s) !! g')
      /\ counters (Basic.world s') = counters (Basic.world s)
      /\ reported (Basic.world s') = reported (Basic.world s)
      /\ written (Basic.world s') = written (Basic.world s)
      /\ (Basic.samplerStep Basic.DoneClosed s = Some (false, s)
          <-> Basic.done (Basic.basic s) = Some true)
      /\ (Basic.done (Basic.basic s) <> Some true ->
          Basic.samplerStep Basic.DoneClosed s = None).
Proof.
  intros s g elapsed Hwf Hg Hdue.
  unfold Basic.samplerStep. rewrite Hdue, Hg.
  eexists. split; [reflexivity |]. cbn [Basic.basic Basic.world GaugeSet gauges counters
                                         reported written].
  split; [reflexivity |].
  split; [apply lookup_insert_eq |].
  split.
  { unfold Basic.lenIn, Basic.capIn, Basic.wfSt in *.
    destruct (Basic.in_ (Basic.basic s)) as [c|]; [| lia].
    unfold wfChan in Hwf. apply andb_true_iff in Hwf as [Hle _].
    apply Nat.leb_le in Hle. lia. }
  split; [intros g' Hne; apply lookup_insert_ne; congruence |].
  repeat split.
  - destruct (Basic.done (Basic.basic s)) as [[|]|]; congruence.
  - intros ->. reflexivity.
  - destruct (Basic.done (Basic.basic s)) as [[|]|]; congruence.
Qed.

Lemma sampler_tick_witness :
  exists s' : Basic.St,
    Basic.samplerStep (Basic.Tick 15000000000) (sampleQueued [sampleRec 1 0; sampleRec 2 0])
    = Some (true, s')
    /\ gauges (Basic.world s') !! 0%nat = Some 2%nat.
Proof.
  destruct (sampler_tick (sampleQueued [sampleRec 1 0; sampleRec 2 0]) 0%nat 15000000000
              eq_refl eq_refl eq_refl)
    as (s' & Hstep & _ & Hg & _).
  exists s'. split; [exact Hstep | exact Hg].
Defined.

(** X19. The tick interval where the conversion does not overflow.  For
    every updateFreqMillis up to 9223372036854 the sampler's tick can be
    taken exactly when the effective interval has elapsed, the effective
    interval being updateFreqMillis when that is at least 250, 15000 ms when
    it is zero, and the floor of 250 ms otherwise (negative values
    included). *)
Theorem sampler_interval_in_range :
  forall (b : Basic.t) (wd : World) (elapsed : Z),
    Basic.metricsUpdateFreqMillis b <= 9223372036854 ->
    let u := Basic.metricsUpdateFreqMillis b in
    let interval := if u =? 0 then 15000 else if u <? 250 then 250 else u in
    Basic.tickDuration b = interval * 1000000
    /\ 250 <= interval
    /\ (is_Some (Basic.samplerStep (Basic.Tick elapsed) (Basic.mkSt b wd))
        <-> interval * 1000000 <= elapsed).
Proof.
  intros b wd elapsed Hle u interval.
  assert (Hint : Basic.updateFreq b = interval).
  { unfold Basic.updateFreq, DefMetricsUpdateFreqMillis. subst interval u. cbv zeta.
    destruct (Basic.metricsUpdateFreqMillis b =? 0); reflexivity. }
  destruct (tickDuration_no_overflow b Hle) as [Hd _].
  destruct (samplerStep_tick_no_overflow b wd elapsed Hle) as [Hiff _].
  pose proof (updateFreq_floor b) as Hfl.
  rewrite Hint in Hd, Hiff, Hfl. unfold Millisecond in Hd, Hiff.
  split; [exact Hd |]. split; [exact Hfl | exact Hiff].
Qed.

Lemma sampler_interval_in_range_witness :
  Basic.tickDuration sampleBasic = 15000 * 1000000
  /\ Basic.samplerStep (Basic.Tick 14999999999) (Basic.mkSt sampleBasic emptyWorld) = None.
Proof.
  destruct (sampler_interval_in_range sampleBasic emptyWorld 14999999999) as (Hd & _ & Hiff).
  - cbn. lia.
  - split; [exact Hd |].
    destruct (Basic.samplerStep (Basic.Tick 14999999999) (Basic.mkSt sampleBasic emptyWorld))
      as [x|] eqn:Hx; [| reflexivity].
    exfalso. assert (H : 15000 * 1000000 <= 14999999999) by (apply Hiff; eauto). lia.
Defined.

(** ** Runs of a started target *)

(** Case analysis on the scrutinees of the goal, innermost first. *)
Ltac is_plain scrut :=
  lazymatch scrut with
  | context [match _ with _ => _ end] => fail
  | _ => idtac
  end.

Ltac break_inner :=
  repeat match goal with
         | |- context [match ?scrut with _ => _ end] =>
             is_plain scrut; destruct scrut eqn:?
         end.

Ltac unfold_worker :=
  unfold Basic.workerStep, Basic.recovering, Basic.rangeStep, Basic.flushStep,
    Basic.writeInLoop, Basic.writeInFlush, Basic.callWrite, Basic.closeDone;
  run_go.

Lemma counterValue_IncIfSet_le (c : option Counter) (h : Counter) (wd : World) :
  (counterValue h wd <= counterValue h (IncIfSet c wd))%nat.
Proof.
  destruct (IncIfSet_spec c wd) as (Heq & Hne & _).
  destruct c as [h0|].
  - destruct (decide (h0 = h)) as [->|Hd].
    + rewrite (Heq h eq_refl). lia.
    + rewrite (Hne h); [lia | congruence].
  - rewrite (Hne h); [lia | discriminate].
Qed.

(** A step of the worker never lowers a counter. *)
Lemma workerStep_counters_le (pc : Basic.WorkerPC) (s : Basic.St) (h : Counter) :
  (counterValue h (Basic.world s)
   <= counterValue h (Basic.world (snd (Basic.workerStep pc s))))%nat.
Proof.
  destruct pc; unfold_worker; break_inner; cbn [snd Basic.world Basic.basic];
    try apply Nat.le_refl;
    try (apply (counterValue_IncIfSet_le _ h (noteWrite _ (Basic.world s)))).
Qed.

Lemma send_cap_closed (rec : LogRec) (c : Chan) :
  cap (send rec c) = cap c /\ closed (send rec c) = closed c.
Proof. unfold send. destruct (recvq c); split; reflexivity. Qed.

(** Only [in] and [done] set two engines of the same configuration apart. *)
Lemma config_with_in (c : option Chan) (b : Basic.t) :
  config (Basic.with_in c b) = config b.
Proof. reflexivity. Qed.

Lemma config_with_done (d : option bool) (b : Basic.t) :
  config (Basic.with_done d b) = config b.
Proof. reflexivity. Qed.

Lemma capIn_with_in (c c' : Chan) (b : Basic.t) :
  Basic.in_ b = Some c -> cap c' = cap c ->
  Basic.capIn (Basic.with_in (Some c') b) = Basic.capIn b.
Proof. intros Hin Hcap. unfold Basic.capIn. cbn. rewrite Hin, Hcap. reflexivity. Qed.

(** A step of the worker changes neither the configuration nor the
    capacity of the queue. *)
Lemma workerStep_static (pc : Basic.WorkerPC) (s : Basic.St) :
  config (Basic.basic (snd (Basic.workerStep pc s))) = config (Basic.basic s)
  /\ Basic.capIn (Basic.basic (snd (Basic.workerStep pc s))) = Basic.capIn (Basic.basic s).
Proof.
  destruct pc; unfold_worker; break_inner; cbn [snd Basic.world Basic.basic];
    rewrite ?config_with_in, ?config_with_done; (split; [reflexivity |]);
    try reflexivity;
    try (match goal with
         | Hin : Basic.in_ (Basic.basic s) = Some ?c, Hr : recvNow ?c = Some (_, ?c') |- _ =>
             apply (capIn_with_in c c' _ Hin); apply (recvNow_closed c c' _ Hr)
         end);
    try (match goal with
         | Hin : Basic.in_ (Basic.basic s) = Some ?c |- _ =>
             apply (capIn_with_in c (park c) _ Hin); reflexivity
         end).
Qed.

Section RunProps.

Variable logrs : LogrRef -> Logr.t.
Variable render : LogRec -> string.

Lemma Log_static (rec : LogRec) (s : Basic.St) :
  config (Basic.basic (finalState (Basic.Log logrs rec s))) = config (Basic.basic s)
  /\ Basic.capIn (Basic.basic (finalState (Basic.Log logrs rec s)))
     = Basic.capIn (Basic.basic s)
  /\ Basic.done (Basic.basic (finalState (Basic.Log logrs rec s)))
     = Basic.done (Basic.basic s).
Proof.
  unfold Basic.Log, Basic.LogQueueFull. run_go. break_inner;
    cbn [finalState Basic.basic Basic.world]; repeat split; try reflexivity.
  match goal with
  | Hin : Basic.in_ (Basic.basic s) = Some ?c |- _ =>
      apply (capIn_with_in c (send rec c) _ Hin); apply send_cap_closed
  end.
Qed.

Lemma LogResume_static (ev : Basic.LogWake) (rec : LogRec) (s : Basic.St)
    (r : Res Basic.St unit) :
  Basic.LogResume logrs render ev rec s = Some r ->
  config (Basic.basic (finalState r)) = config (Basic.basic s)
  /\ Basic.capIn (Basic.basic (finalState r)) = Basic.capIn (Basic.basic s)
  /\ Basic.done (Basic.basic (finalState r)) = Basic.done (Basic.basic s).
Proof.
  unfold Basic.LogResume. run_go. break_inner; intros [= <-];
    cbn [finalState Basic.basic Basic.world]; repeat split; try reflexivity.
  match goal with
  | Hin : Basic.in_ (Basic.basic s) = Some ?c |- _ =>
      apply (capIn_with_in c (send rec c) _ Hin); apply send_cap_closed
  end.
Qed.

Lemma ShutdownBegin_static (s : Basic.St) :
  config (Basic.basic (finalState (Basic.ShutdownBegin s))) = config (Basic.basic s)
  /\ Basic.capIn (Basic.basic (finalState (Basic.ShutdownBegin s)))
     = Basic.capIn (Basic.basic s)
  /\ Basic.done (Basic.basic (finalState (Basic.ShutdownBegin s)))
     = Basic.done (Basic.basic s)
  /\ Basic.world (finalState (Basic.ShutdownBegin s)) = Basic.world s
  /\ pendingSt (finalState (Basic.ShutdownBegin s)) = pendingSt s.
Proof.
  unfold Basic.ShutdownBegin, Basic.closeIn. run_go.
  destruct (Basic.in_ (Basic.basic s)) as [c|] eqn:Hin; [| repeat split].
  destruct (closed c); [repeat split |].
  cbn [finalState Basic.basic Basic.world]. repeat split.
  - apply (capIn_with_in c (closeChan c) _ Hin). reflexivity.
  - unfold pendingSt. cbn. rewrite Hin. reflexivity.
Qed.

Lemma samplerStep_static (ev : Basic.SamplerWake) (s s' : Basic.St) (go : bool) :
  Basic.samplerStep ev s = Some (go, s') ->
  Basic.basic s' = Basic.basic s
  /\ counters (Basic.world s') = counters (Basic.world s)
  /\ written (Basic.world s') = written (Basic.world s).
Proof.
  unfold Basic.samplerStep. break_inner; intros [= <- <-]; repeat split.
Qed.

(** [Log] never lowers a counter, in either of its parts. *)
Lemma Log_counters_le (rec : LogRec) (s : Basic.St) (h : Counter) :
  (counterValue h (Basic.world s)
   <= counterValue h (Basic.world (finalState (Basic.Log logrs rec s))))%nat.
Proof.
  unfold Basic.Log, Basic.LogQueueFull. run_go. break_inner;
    cbn [finalState Basic.basic Basic.world];
    try apply Nat.le_refl; apply counterValue_IncIfSet_le.
Qed.

Lemma LogResume_world (ev : Basic.LogWake) (rec : LogRec) (s : Basic.St)
    (r : Res Basic.St unit) :
  Basic.LogResume logrs render ev rec s = Some r ->
  counters (Basic.world (finalState r)) = counters (Basic.world s)
  /\ written (Basic.world (finalState r)) = written (Basic.world s).
Proof.
  unfold Basic.LogResume. run_go. break_inner; intros [= <-]; split; reflexivity.
Qed.

Lemma Log_written (rec : LogRec) (s : Basic.St) :
  written (Basic.world (finalState (Basic.Log logrs rec s))) = written (Basic.world s).
Proof.
  unfold Basic.Log, Basic.LogQueueFull. run_go. break_inner;
    cbn [finalState Basic.basic Basic.world]; try reflexivity;
    apply IncIfSet_spec.
Qed.

(** What [Log] does to the pending records: one more at the back when it
    takes its send case, none otherwise. *)
Lemma Log_pending (rec : LogRec) (s : Basic.St) :
  Basic.wfSt s ->
  pendingSt (finalState (Basic.Log logrs rec s))
  = if hasRoom s then pendingSt s ++ [rec] else pendingSt s.
Proof.
  intros Hwf. unfold Basic.wfSt, hasRoom, pendingSt in *.
  unfold Basic.Log, Basic.LogQueueFull. run_go.
  destruct (Basic.in_ (Basic.basic s)) as [c|] eqn:Hin.
  - destruct (closed c); cbn [negb andb]; [cbn; rewrite ?Hin; reflexivity |].
    destruct (sendReady c) eqn:Hrd.
    + cbn. apply (pending_send rec c Hwf Hrd).
    + match goal with |- context [if ?b then _ else _] => destruct b end;
        cbn; rewrite ?Hin; reflexivity.
  - match goal with |- context [if ?b then _ else _] => destruct b end;
      cbn; rewrite ?Hin; reflexivity.
Qed.

Lemma LogResume_pending (ev : Basic.LogWake) (rec : LogRec) (s s' : Basic.St) :
  Basic.wfSt s ->
  Basic.LogResume logrs render ev rec s = Some (Ret tt s') ->
  pendingSt s' = match ev with
                 | Basic.SendDone => pendingSt s ++ [rec]
                 | Basic.TimerFired _ => pendingSt s
                 end.
Proof.
  intros Hwf. unfold Basic.wfSt, pendingSt in *. unfold Basic.LogResume. run_go.
  destruct ev as [elapsed|].
  - destruct (After_ready _ _); intros [= <-]; reflexivity.
  - destruct (Basic.in_ (Basic.basic s)) as [c|] eqn:Hin; [| discriminate].
    destruct (closed c); [discriminate |].
    destruct (sendReady c) eqn:Hrd; [| discriminate].
    intros [= <-]. cbn. apply (pending_send rec c Hwf Hrd).
Qed.

End RunProps.

Lemma pendingSt_in (s : Basic.St) (c : Chan) :
  Basic.in_ (Basic.basic s) = Some c -> pendingSt s = pending c.
Proof. intros Hin. unfold pendingSt. rewrite Hin. reflexivity. Qed.

Lemma pendingSt_with_in (c : Chan) (b : Basic.t) (wd : World) :
  pendingSt (Basic.mkSt (Basic.with_in (Some c) b) wd) = pending c.
Proof. reflexivity. Qed.

Lemma pending_park (c : Chan) : recvNow c = None -> pending (park c) = pending c.
Proof.
  unfold recvNow, pending, park. destruct (recvq c); cbn; try reflexivity.
  destruct (buf c); discriminate.
Qed.

(** A step of the worker conserves the records: what was handed to the
    writer followed by the ordinary records still pending is the same list
    before and after, whatever the writer did. *)
Lemma workerStep_conserves (pc : Basic.WorkerPC) (s : Basic.St) :
  Basic.wfSt s ->
  Basic.w (Basic.basic s) <> None ->
  written (Basic.world (snd (Basic.workerStep pc s)))
  ++ ordinary (pendingSt (snd (Basic.workerStep pc s)))
  = written (Basic.world s) ++ ordinary (pendingSt s).
Proof.
  intros Hwf Hw. unfold Basic.wfSt in Hwf.
  destruct (Basic.in_ (Basic.basic s)) as [c|] eqn:Hin.
  - pose proof (pending_recvNow c Hwf) as Hp.
    rewrite (pendingSt_in s c Hin).
    destruct (Basic.w (Basic.basic s)) as [rw|] eqn:Hrw; [| congruence].
    assert (Hwrite : forall (wd : World) (c' : Chan) (rec : LogRec),
               written wd = written (Basic.world s) ++ [rec] ->
               pending c = rec :: pending c' ->
               flush rec = None ->
               written wd
               ++ ordinary (pendingSt (Basic.mkSt (Basic.with_in (Some c') (Basic.basic s)) wd))
               = written (Basic.world s) ++ ordinary (pending c)).
    { intros wd c' rec Hwd Hpc Hfl.
      rewrite pendingSt_with_in, Hwd, Hpc, ordinary_cons, Hfl, <- app_assoc.
      reflexivity. }
    assert (Hskip : forall (c' : Chan) (rec : LogRec) (d : FlushChan),
               pending c = rec :: pending c' ->
               flush rec = Some d ->
               written (Basic.world s)
               ++ ordinary (pendingSt (Basic.mkSt (Basic.with_in (Some c') (Basic.basic s))
                                                  (Basic.world s)))
               = written (Basic.world s) ++ ordinary (pending c)).
    { intros c' rec d Hpc Hfl.
      rewrite pendingSt_with_in, Hpc, ordinary_cons, Hfl. reflexivity. }
    assert (Hinc : forall (k : option Counter) (rec : LogRec),
               written (IncIfSet k (noteWrite rec (Basic.world s)))
               = written (Basic.world s) ++ [rec]).
    { intros k rec.
      rewrite written_IncIfSet. reflexivity. }
    destruct pc as [|d|];
      [| | cbn [Basic.workerStep snd]; rewrite (pendingSt_in s c Hin); reflexivity].
    + destruct (recvNow c) as [[rec c']|] eqn:Hrecv.
      * destruct (flush rec) as [d|] eqn:Hfl.
        -- rewrite (workerStep_range_marker d s c c' rec Hin Hrecv Hfl).
           apply (Hskip c' rec d Hp Hfl).
        -- rewrite (workerStep_range_ordinary s c c' rec rw Hin Hrecv Hfl Hrw).
           destruct (Write rw (written (Basic.world s)) rec); cbn [snd Basic.world];
             apply (Hwrite _ c' rec); try assumption; try apply Hinc; reflexivity.
      * destruct (closed c) eqn:Hcl.
        -- destruct (Basic.done (Basic.basic s)) as [[|]|] eqn:Hd;
             unfold_worker; rewrite Hin, Hrecv, Hcl, Hd; cbn [snd Basic.world];
             unfold pendingSt; cbn [Basic.basic Basic.with_done Basic.in_ Basic.world];
             rewrite ?Hin; reflexivity.
        -- rewrite (workerStep_range_park s c Hin Hrecv Hcl). cbn [snd Basic.world].
           rewrite pendingSt_with_in, (pending_park c Hrecv). reflexivity.
    + destruct (recvNow c) as [[rec c']|] eqn:Hrecv.
      * destruct (flush rec) as [d'|] eqn:Hfl.
        -- rewrite (workerStep_flush_marker d d' s c c' rec Hin Hrecv Hfl).
           apply (Hskip c' rec d' Hp Hfl).
        -- rewrite (workerStep_flush_ordinary d s c c' rec rw Hin Hrecv Hfl Hrw).
           destruct (Write rw (written (Basic.world s)) rec); cbn [snd Basic.world];
             apply (Hwrite _ c' rec); try assumption; try apply Hinc; reflexivity.
      * destruct (closed c) eqn:Hcl.
        -- unfold_worker. rewrite Hin, Hrecv, Hcl. cbn [snd Basic.world].
           unfold pendingSt; cbn [Basic.basic Basic.in_ Basic.world]; rewrite ?Hin.
           reflexivity.
        -- rewrite (workerStep_flush_drained d s c Hin Hrecv Hcl). cbn [snd Basic.world].
           unfold pendingSt; cbn [Basic.basic Basic.in_ Basic.world]; rewrite ?Hin.
           reflexivity.
  - assert (Hsame : pendingSt (snd (Basic.workerStep pc s)) = pendingSt s
                    /\ written (Basic.world (snd (Basic.workerStep pc s)))
                       = written (Basic.world s)).
    { destruct pc; unfold_worker; rewrite ?Hin; cbn; unfold pendingSt; cbn;
        rewrite ?Hin; split; reflexivity. }
    destruct Hsame as [-> ->]. reflexivity.
Qed.

(** A step of the worker neither closes nor reopens the queue. *)
Lemma workerStep_closed (pc : Basic.WorkerPC) (s : Basic.St) (c : Chan) :
  Basic.in_ (Basic.basic s) = Some c ->
  exists c' : Chan,
    Basic.in_ (Basic.basic (snd (Basic.workerStep pc s))) = Some c'
    /\ closed c' = closed c.
Proof.
  intros Hin.
  destruct pc; [| | exists c; split; [exact Hin | reflexivity]];
    unfold_worker; rewrite Hin; break_inner; cbn [snd Basic.world Basic.basic];
    cbn [Basic.with_in Basic.with_done Basic.in_];
    try (eexists; split; [reflexivity | ]);
    try (eexists; split; [eassumption | ]);
    try reflexivity;
    try (cbn [park closed]; assumption);
    try (match goal with
         | Hr : recvNow c = Some (_, ?c') |- _ => apply (recvNow_closed c c' _ Hr)
         end).
Qed.

(** The worker exits by closing [done], and only on a closed, drained
    queue; until then [done] stays open. *)
Lemma workerStep_exit (pc : Basic.WorkerPC) (s : Basic.St) (c : Chan) :
  Basic.in_ (Basic.basic s) = Some c ->
  wfChan c = true ->
  Basic.done (Basic.basic s) = Some false ->
  pc <> Basic.Exited ->
  (fst (Basic.workerStep pc s) = Basic.Exited
   /\ Basic.done (Basic.basic (snd (Basic.workerStep pc s))) = Some true
   /\ closed c = true
   /\ pending c = []
   /\ Basic.in_ (Basic.basic (snd (Basic.workerStep pc s))) = Some c)
  \/ (fst (Basic.workerStep pc s) <> Basic.Exited
      /\ Basic.done (Basic.basic (snd (Basic.workerStep pc s))) = Some false).
Proof.
  intros Hin Hwf Hdone Hpc.
  pose proof (pending_recvNow c Hwf) as Hp.
  destruct pc as [|d|]; [| | congruence].
  - destruct (recvNow c) as [[rec c']|] eqn:Hrecv.
    + right. unfold_worker. rewrite Hin, Hrecv. break_inner; cbn; split; congruence.
    + destruct (closed c) eqn:Hcl.
      * left. rewrite (workerStep_range_end s c Hin Hrecv Hcl Hdone). cbn.
        repeat split; assumption.
      * right. rewrite (workerStep_range_park s c Hin Hrecv Hcl). cbn. split; congruence.
  - right. unfold_worker. rewrite Hin. break_inner; cbn; split; congruence.
Qed.

Section SysProps.

Variable logrs : LogrRef -> Logr.t.
Variable render : LogRec -> string.

(** What every event keeps. *)
Lemma sysStep_keeps (e : Event) (y y' : Sys) :
  sysStep logrs render e y = Some y' ->
  config (Basic.basic (sysSt y')) = config (Basic.basic (sysSt y))
  /\ Basic.capIn (Basic.basic (sysSt y')) = Basic.capIn (Basic.basic (sysSt y))
  /\ (Basic.wfSt (sysSt y) -> Basic.wfSt (sysSt y'))
  /\ (forall h, (counterValue h (Basic.world (sysSt y))
                 <= counterValue h (Basic.world (sysSt y')))%nat).
Proof.
  destruct e as [rec|i ev| | |elapsed]; cbn [sysStep].
  - pose proof (Log_static logrs rec (sysSt y)) as (Hc & Hk & _).
    pose proof (Log_wf logrs rec (sysSt y)) as Hwf.
    pose proof (Log_counters_le logrs rec (sysSt y)) as Hle.
    destruct (Basic.Log logrs rec (sysSt y)) as [[|] s'|v s']; [| | discriminate];
      intros [= <-]; cbn [sysSt finalState] in *; repeat split; assumption.
  - destruct (parkedLogs y !! i) as [rec|]; [| discriminate].
    pose proof (LogResume_static logrs render ev rec (sysSt y)) as Hst.
    pose proof (LogResume_wf logrs render ev rec (sysSt y)) as Hwf.
    pose proof (LogResume_world logrs render ev rec (sysSt y)) as Hwd.
    destruct (Basic.LogResume logrs render ev rec (sysSt y)) as [[u s'|v s']|];
      [| discriminate | discriminate].
    intros [= <-]. cbn [sysSt].
    destruct (Hst _ eq_refl) as (Hc & Hk & _). destruct (Hwd _ eq_refl) as (Hcnt & _).
    cbn [finalState] in *. repeat split; try assumption.
    + intros H. apply (Hwf _ H eq_refl).
    + intros h. unfold counterValue. rewrite Hcnt. apply Nat.le_refl.
  - pose proof (workerStep_static (workerPc y) (sysSt y)) as (Hc & Hk).
    pose proof (workerStep_wf (workerPc y) (sysSt y)) as Hwf.
    pose proof (workerStep_counters_le (workerPc y) (sysSt y)) as Hle.
    destruct (Basic.workerStep (workerPc y) (sysSt y)) as [pc' s'].
    intros [= <-]. cbn [sysSt snd] in *. repeat split; assumption.
  - pose proof (ShutdownBegin_static (sysSt y)) as (Hc & Hk & _ & Hwd & _).
    pose proof (ShutdownBegin_wf (sysSt y)) as Hwf.
    destruct (Basic.ShutdownBegin (sysSt y)) as [u s'|v s']; [| discriminate].
    intros [= <-]. cbn [sysSt finalState] in *. repeat split; try assumption.
    intros h. rewrite Hwd. apply Nat.le_refl.
  - destruct (Basic.samplerStep (Basic.Tick elapsed) (sysSt y)) as [[go s']|] eqn:Hs;
      [| discriminate].
    intros [= <-]. cbn [sysSt].
    destruct (samplerStep_static _ _ _ _ Hs) as (Hb & Hcnt & _).
    unfold Basic.wfSt. rewrite Hb. repeat split; try tauto.
    intros h. unfold counterValue. rewrite Hcnt. apply Nat.le_refl.
Qed.

(** X20. Over any run of a target (calls of Log and their wake-ups, steps
    of the worker, Shutdown, ticks of the sampler, in any order) the
    configuration made by Start and Metrics stays as it was, the capacity of
    the queue does not change, and the queue never holds more records than
    its capacity. *)
Theorem run_keeps_engine :
  forall (es : list Event) (y y' : Sys),
    Basic.wfSt (sysSt y) ->
    sysRun logrs render es y = Some y' ->
    config (Basic.basic (sysSt y')) = config (Basic.basic (sysSt y))
    /\ Basic.capIn (Basic.basic (sysSt y')) = Basic.capIn (Basic.basic (sysSt y))
    /\ Basic.wfSt (sysSt y')
    /\ Z.of_nat (Basic.lenIn (Basic.basic (sysSt y'))) <= Basic.capIn (Basic.basic (sysSt y)).
Proof.
  intros es. induction es as [|e es IH]; intros y y' Hwf Hrun; cbn [sysRun] in Hrun.
  - injection Hrun as <-. repeat split; try assumption.
    unfold Basic.wfSt, Basic.lenIn, Basic.capIn in *.
    destruct (Basic.in_ (Basic.basic (sysSt y))) as [c|]; [| lia].
    unfold wfChan in Hwf. apply andb_true_iff in Hwf as [Hle _].
    apply Nat.leb_le in Hle. lia.
  - destruct (sysStep logrs render e y) as [y1|] eqn:Hstep; [| discriminate].
    destruct (sysStep_keeps e y y1 Hstep) as (Hc & Hk & Hwf1 & _).
    destruct (IH y1 y' (Hwf1 Hwf) Hrun) as (Hc' & Hk' & Hwf' & Hlen').
    repeat split; try assumption; congruence.
Qed.

(** X21. Over any run of a target no counter ever goes down. *)
Theorem run_counters_monotone :
  forall (es : list Event) (y y' : Sys) (h : Counter),
    sysRun logrs render es y = Some y' ->
    (counterValue h (Basic.world (sysSt y)) <= counterValue h (Basic.world (sysSt y')))%nat.
Proof.
  intros es. induction es as [|e es IH]; intros y y' h Hrun; cbn [sysRun] in Hrun.
  - injection Hrun as <-. apply Nat.le_refl.
  - destruct (sysStep logrs render e y) as [y1|] eqn:Hstep; [| discriminate].
    destruct (sysStep_keeps e y y1 Hstep) as (_ & _ & _ & Hle).
    etransitivity; [apply (Hle h) | apply (IH y1 y' h Hrun)].
Qed.

(** What an event does to the records. *)
Lemma sysStep_conserves (e : Event) (y y' : Sys) :
  Basic.wfSt (sysSt y) ->
  Basic.w (Basic.basic (sysSt y)) <> None ->
  sysStep logrs render e y = Some y' ->
  exists new : list LogRec,
    accepted y' = accepted y ++ new
    /\ written (Basic.world (sysSt y')) ++ ordinary (pendingSt (sysSt y'))
       = written (Basic.world (sysSt y)) ++ ordinary (pendingSt (sysSt y)) ++ ordinary new.
Proof.
  intros Hwf Hw. destruct e as [rec|i ev| | |elapsed]; cbn [sysStep].
  - pose proof (Log_written logrs rec (sysSt y)) as Hwr.
    pose proof (Log_pending logrs rec (sysSt y) Hwf) as Hp.
    assert (Hphase : forall s', Basic.Log logrs rec (sysSt y) = Ret Basic.LogWaiting s' ->
                                hasRoom (sysSt y) = false).
    { intros s' HL. unfold hasRoom.
      destruct (Basic.in_ (Basic.basic (sysSt y))) as [c|] eqn:Hin; [| reflexivity].
      destruct (closed c) eqn:Hcl; [reflexivity |].
      destruct (sendReady c) eqn:Hrd; [| reflexivity].
      rewrite (Log_room logrs rec (sysSt y) c Hin Hcl Hrd) in HL. discriminate. }
    destruct (Basic.Log logrs rec (sysSt y)) as [[|] s'|v s'] eqn:HL; [| | discriminate];
      intros [= <-]; cbn [sysSt accepted finalState] in *.
    + destruct (hasRoom (sysSt y)).
      * exists [rec]. split; [reflexivity |].
        rewrite Hwr, Hp, ordinary_app. reflexivity.
      * exists []. rewrite !app_nil_r, Hwr, Hp. split; reflexivity.
    + rewrite (Hphase s' eq_refl) in Hp.
      exists []. rewrite !app_nil_r, Hwr, Hp. split; reflexivity.
  - destruct (parkedLogs y !! i) as [rec|]; [| discriminate].
    pose proof (LogResume_world logrs render ev rec (sysSt y)) as Hwd.
    pose proof (LogResume_pending logrs render ev rec (sysSt y)) as Hp.
    destruct (Basic.LogResume logrs render ev rec (sysSt y)) as [[u s'|v s']|];
      [| discriminate | discriminate].
    intros [= <-]. cbn [sysSt accepted].
    destruct (Hwd _ eq_refl) as (_ & Hwr). destruct u. specialize (Hp s' Hwf eq_refl).
    cbn [finalState] in Hwr. rewrite Hwr, Hp.
    destruct ev as [elapsed|].
    + exists []. rewrite !app_nil_r. split; reflexivity.
    + exists [rec]. split; [reflexivity |]. rewrite ordinary_app. reflexivity.
  - pose proof (workerStep_conserves (workerPc y) (sysSt y) Hwf Hw) as Hcons.
    destruct (Basic.workerStep (workerPc y) (sysSt y)) as [pc' s'].
    intros [= <-]. cbn [sysSt accepted snd] in *.
    exists []. rewrite !app_nil_r. split; [reflexivity | exact Hcons].
  - pose proof (ShutdownBegin_static (sysSt y)) as (_ & _ & _ & Hwd & Hp).
    destruct (Basic.ShutdownBegin (sysSt y)) as [u s'|v s']; [| discriminate].
    intros [= <-]. cbn [sysSt accepted finalState] in *.
    exists []. rewrite !app_nil_r, Hwd, Hp. split; reflexivity.
  - destruct (Basic.samplerStep (Basic.Tick elapsed) (sysSt y)) as [[go s']|] eqn:Hs;
      [| discriminate].
    intros [= <-]. cbn [sysSt accepted].
    destruct (samplerStep_static _ _ _ _ Hs) as (Hb & _ & Hwr).
    exists []. rewrite !app_nil_r, Hwr. unfold pendingSt. rewrite Hb. split; reflexivity.
Qed.

(** X22. The FIFO law.  Over any run of a target with a writer set, the
    records handed to the writer so far, followed by the ordinary records
    still pending, are the ordinary records the queue accepted, in the order
    it accepted them: the worker neither loses, nor repeats, nor reorders a
    record, whatever the writer answers, panics included. *)
Theorem run_fifo :
  forall (es : list Event) (y y' : Sys),
    Basic.wfSt (sysSt y) ->
    Basic.w (Basic.basic (sysSt y)) <> None ->
    sysRun logrs render es y = Some y' ->
    exists new : list LogRec,
      accepted y' = accepted y ++ new
      /\ written (Basic.world (sysSt y')) ++ ordinary (pendingSt (sysSt y'))
         = written (Basic.world (sysSt y)) ++ ordinary (pendingSt (sysSt y)) ++ ordinary new.
Proof.
  intros es. induction es as [|e es IH]; intros y y' Hwf Hw Hrun; cbn [sysRun] in Hrun.
  - injection Hrun as <-. exists []. rewrite !app_nil_r. split; reflexivity.
  - destruct (sysStep logrs render e y) as [y1|] eqn:Hstep; [| discriminate].
    destruct (sysStep_conserves e y y1 Hwf Hw Hstep) as (new1 & Hacc1 & Hcons1).
    destruct (sysStep_keeps e y y1 Hstep) as (Hc & _ & Hwf1 & _).
    assert (Hw1 : Basic.w (Basic.basic (sysSt y1)) <> None).
    { unfold config in Hc. injection Hc as _ _ _ _ Hweq _ _. congruence. }
    destruct (IH y1 y' (Hwf1 Hwf) Hw1 Hrun) as (new2 & Hacc2 & Hcons2).
    exists (new1 ++ new2). split.
    + rewrite Hacc2, Hacc1, app_assoc. reflexivity.
    + rewrite Hcons2, app_assoc, Hcons1, ordinary_app, <- !app_assoc. reflexivity.
Qed.

End SysProps.

Section ExitProps.

Variable logrs : LogrRef -> Logr.t.
Variable render : LogRec -> string.

Lemma Log_in (rec : LogRec) (s : Basic.St) (c : Chan) :
  Basic.in_ (Basic.basic s) = Some c ->
  exists c' : Chan, Basic.in_ (Basic.basic (finalState (Basic.Log logrs rec s))) = Some c'.
Proof.
  intros Hin. unfold Basic.Log, Basic.LogQueueFull. run_go. rewrite Hin.
  break_inner; cbn [finalState Basic.basic Basic.with_in Basic.in_]; eauto.
Qed.

Lemma sysStep_exitInv (e : Event) (y y' : Sys) :
  exitInv y -> sysStep logrs render e y = Some y' -> exitInv y'.
Proof.
  intros (c & Hin & Hwf & Hcase).
  assert (Hwfs : Basic.wfSt (sysSt y)) by (unfold Basic.wfSt; rewrite Hin; exact Hwf).
  destruct e as [rec|i ev| | |elapsed]; cbn [sysStep].
  - destruct Hcase as [(_ & _ & Hcl & _)|(Hpc & Hd)].
    { rewrite (Log_closed logrs rec (sysSt y) c Hin Hcl). discriminate. }
    pose proof (Log_static logrs rec (sysSt y)) as (_ & _ & Hdone).
    pose proof (Log_wf logrs rec (sysSt y) Hwfs) as Hwf'.
    destruct (Log_in rec (sysSt y) c Hin) as [c' Hin'].
    destruct (Basic.Log logrs rec (sysSt y)) as [[|] s'|v s']; [| | discriminate];
      intros [= <-]; cbn [sysSt finalState workerPc] in *; exists c';
      (split; [exact Hin' |]); unfold Basic.wfSt in Hwf'; rewrite Hin' in Hwf';
      (split; [exact Hwf' |]); right; cbn [sysSt workerPc]; split; congruence.
  - destruct (parkedLogs y !! i) as [rec|]; [| discriminate].
    unfold Basic.LogResume. run_go. rewrite Hin.
    destruct ev as [elapsed|].
    + destruct (After_ready _ _); [| discriminate].
      intros [= <-]. exists c. cbn [sysSt workerPc Basic.basic]. repeat split; assumption.
    + destruct (closed c) eqn:Hcl; [discriminate |].
      destruct (sendReady c) eqn:Hrd; [| discriminate].
      intros [= <-]. exists (send rec c). cbn [sysSt workerPc Basic.basic Basic.with_in
                                                 Basic.in_ Basic.done].
      split; [reflexivity |]. split; [apply (wfChan_send rec c Hwf Hrd) |].
      destruct Hcase as [(_ & _ & Hcl' & _)|Hb]; [congruence | right; exact Hb].
  - destruct Hcase as [(Hpc & Hd & Hcl & Hp)|(Hpc & Hd)].
    + rewrite Hpc. cbn [Basic.workerStep]. intros [= <-]. exists c.
      cbn [sysSt workerPc]. split; [exact Hin |]. split; [exact Hwf |]. left. tauto.
    + pose proof (workerStep_exit (workerPc y) (sysSt y) c Hin Hwf Hd Hpc) as Hex.
      pose proof (workerStep_closed (workerPc y) (sysSt y) c Hin) as (c' & Hin' & _).
      pose proof (workerStep_wf (workerPc y) (sysSt y) Hwfs) as Hwf'.
      destruct (Basic.workerStep (workerPc y) (sysSt y)) as [pc' s'].
      intros [= <-]. cbn [sysSt workerPc fst snd] in *.
      destruct Hex as [(Hpc' & Hd' & Hcl & Hp & Hin'')|(Hpc' & Hd')].
      * exists c. split; [exact Hin'' |]. split; [exact Hwf |]. left. tauto.
      * exists c'. split; [exact Hin' |]. unfold Basic.wfSt in Hwf'. rewrite Hin' in Hwf'.
        split; [exact Hwf' |]. right. tauto.
  - destruct Hcase as [(_ & _ & Hcl & _)|(Hpc & Hd)].
    { pose proof (ShutdownBegin_panics (sysSt y)) as H. rewrite Hin in H.
      rewrite (H Hcl). discriminate. }
    destruct (closed c) eqn:Hcl.
    { pose proof (ShutdownBegin_panics (sysSt y)) as H. rewrite Hin in H.
      rewrite (H Hcl). discriminate. }
    rewrite (ShutdownBegin_open (sysSt y) c Hin Hcl). intros [= <-].
    exists (closeChan c). cbn [sysSt workerPc Basic.basic Basic.with_in Basic.in_ Basic.done].
    split; [reflexivity |]. split; [rewrite wfChan_close; exact Hwf |]. right. tauto.
  - destruct (Basic.samplerStep (Basic.Tick elapsed) (sysSt y)) as [[go s']|] eqn:Hs;
      [| discriminate].
    intros [= <-]. destruct (samplerStep_static _ _ _ _ Hs) as (Hb & _).
    exists c. cbn [sysSt workerPc]. rewrite Hb. repeat split; assumption.
Qed.

(** X23. The completion signal.  Over any run of a started target, [done] is
    closed exactly when the worker has exited, and the worker has exited
    only if the queue was closed by Shutdown and is drained: nothing is
    pending once [done] is closed. *)
Theorem done_closed_iff_worker_exited :
  forall (es : list Event) (y y' : Sys) (c : Chan),
    Basic.in_ (Basic.basic (sysSt y)) = Some c ->
    wfChan c = true ->
    Basic.done (Basic.basic (sysSt y)) = Some false ->
    workerPc y <> Basic.Exited ->
    sysRun logrs render es y = Some y' ->
    (Basic.done (Basic.basic (sysSt y')) = Some true <-> workerPc y' = Basic.Exited)
    /\ (Basic.done (Basic.basic (sysSt y')) = Some true ->
          pendingSt (sysSt y') = []
          /\ exists c' : Chan,
               Basic.in_ (Basic.basic (sysSt y')) = Some c' /\ closed c' = true)
    /\ (Basic.done (Basic.basic (sysSt y')) = Some true
        \/ Basic.done (Basic.basic (sysSt y')) = Some false).
Proof.
  intros es y y' c Hin Hwf Hd Hpc Hrun.
  assert (Hinv : exitInv y).
  { exists c. split; [exact Hin |]. split; [exact Hwf |]. right. tauto. }
  clear c Hin Hwf Hd Hpc.
  revert y Hinv Hrun. induction es as [|e es IH]; intros y Hinv Hrun; cbn [sysRun] in Hrun.
  - injection Hrun as <-. destruct Hinv as (c & Hin & Hwf & [(Hpc & Hd & Hcl & Hp)|(Hpc & Hd)]).
    + rewrite Hd, Hpc. split; [tauto |]. split; [| tauto].
      intros _. split; [rewrite (pendingSt_in _ c Hin); exact Hp |]. exists c. tauto.
    + rewrite Hd. split; [split; [discriminate | intros H; contradiction] |].
      split; [discriminate | tauto].
  - destruct (sysStep logrs render e y) as [y1|] eqn:Hstep; [| discriminate].
    apply (IH y1 (sysStep_exitInv e y y1 Hinv Hstep) Hrun).
Qed.

End ExitProps.

(** The sample run goes through: none of its events panics. *)
Lemma sample_run_some :
  is_Some (sysRun sampleLogrs sampleRender sampleEvents
             (started (sampleQueued [sampleRec 1 0; sampleRec 2 0]))).
Proof. vm_compute. eauto. Qed.

Lemma run_keeps_engine_witness :
  exists y' : Sys,
    sysRun sampleLogrs sampleRender
      sampleEvents (started (sampleQueued [sampleRec 1 0; sampleRec 2 0])) = Some y'
    /\ Basic.capIn (Basic.basic (sysSt y')) = 2
    /\ Z.of_nat (Basic.lenIn (Basic.basic (sysSt y'))) <= 2.
Proof.
  destruct sample_run_some as [y' Hrun]. exists y'. split; [exact Hrun |].
  destruct (run_keeps_engine sampleLogrs sampleRender sampleEvents
              (started (sampleQueued [sampleRec 1 0; sampleRec 2 0])) y' eq_refl Hrun)
    as (_ & Hk & _ & Hl).
  split; [exact Hk | exact Hl].
Defined.

Lemma run_counters_monotone_witness :
  exists y' : Sys,
    sysRun sampleLogrs sampleRender
      sampleEvents (started (sampleQueued [sampleRec 1 0; sampleRec 2 0])) = Some y'
    /\ (0 <= counterValue 3 (Basic.world (sysSt y')))%nat.
Proof.
  destruct sample_run_some as [y' Hrun]. exists y'. split; [exact Hrun |].
  exact (run_counters_monotone sampleLogrs sampleRender sampleEvents
           (started (sampleQueued [sampleRec 1 0; sampleRec 2 0])) y' 3%nat Hrun).
Defined.

Lemma run_fifo_witness :
  exists (y' : Sys) (new : list LogRec),
    sysRun sampleLogrs sampleRender
      sampleEvents (started (sampleQueued [sampleRec 1 0; sampleRec 2 0])) = Some y'
    /\ accepted y' = new
    /\ written (Basic.world (sysSt y')) ++ ordinary (pendingSt (sysSt y'))
       = [sampleRec 1 0; sampleRec 2 0] ++ ordinary new.
Proof.
  destruct sample_run_some as [y' Hrun].
  destruct (run_fifo sampleLogrs sampleRender sampleEvents
              (started (sampleQueued [sampleRec 1 0; sampleRec 2 0])) y' eq_refl
              ltac:(discriminate) Hrun) as (new & Hacc & Hcons).
  exists y', new. split; [exact Hrun |]. split; [exact Hacc | exact Hcons].
Defined.

Lemma done_closed_iff_worker_exited_witness :
  exists y' : Sys,
    sysRun sampleLogrs sampleRender
      sampleEvents (started (sampleQueued [sampleRec 1 0; sampleRec 2 0])) = Some y'
    /\ (Basic.done (Basic.basic (sysSt y')) = Some true <-> workerPc y' = Basic.Exited).
Proof.
  destruct sample_run_some as [y' Hrun]. exists y'. split; [exact Hrun |].
  exact (proj1 (done_closed_iff_worker_exited sampleLogrs sampleRender sampleEvents
                  (started (sampleQueued [sampleRec 1 0; sampleRec 2 0])) y'
                  (mkChan [sampleRec 1 0; sampleRec 2 0] 2 false NoReceiver)
                  eq_refl eq_refl eq_refl ltac:(discriminate) Hrun)).
Defined.

(** What the sample run ends in: the three accepted records written in
    order, one of them failing, one record dropped, worker exited. *)
Example sample_run_result :
  match sysRun sampleLogrs sampleRender sampleEvents
          (started (sampleQueued [sampleRec 1 0; sampleRec 2 0])) with
  | Some y' =>
      written (Basic.world (sysSt y')) = [sampleRec 1 0; sampleRec 2 0; sampleRec 4 0]
      /\ accepted y' = [sampleRec 4 0]
      /\ workerPc y' = Basic.Exited
      /\ counterValue 3 (Basic.world (sysSt y')) = 1%nat
      /\ counterValue 1 (Basic.world (sysSt y')) = 2%nat
      /\ counterValue 2 (Basic.world (sysSt y')) = 1%nat
  | None => False
  end.
Proof. vm_compute. repeat split. Qed.

(** ** What Log and the worker leave alone *)

(** What one [Inc] on at most one handle does to each counter. *)
Lemma counterValue_after_IncIfSet (k : option Counter) (wd wd' : World) :
  counters wd' = counters (IncIfSet k wd) ->
  forall h, counterValue h wd'
            = if decide (k = Some h) then S (counterValue h wd) else counterValue h wd.
Proof.
  intros Hc h.
  assert (Hcv : counterValue h wd' = counterValue h (IncIfSet k wd))
    by (unfold counterValue; rewrite Hc; reflexivity).
  rewrite Hcv. destruct (IncIfSet_spec k wd) as (Heq & Hne & _).
  destruct (decide (k = Some h)) as [Hk|Hk]; [apply (Heq h Hk) | apply (Hne h Hk)].
Qed.

Lemma counters_IncIfSet_noteWrite (k : option Counter) (rec : LogRec) (wd : World) :
  counters (IncIfSet k (noteWrite rec wd)) = counters (IncIfSet k wd).
Proof. destruct k; reflexivity. Qed.

(** X24. A call of Log, up to its return or its bounded wait, changes the
    world by exactly one Inc on at most one handle, which is the target's
    dropped or blocked counter: that counter goes up by exactly one and
    every other counter keeps its value; on a queue with room no counter
    moves at all.  The call never reports an error, writes a record,
    signals a flush, prints to stderr or touches a gauge, and it leaves the
    configuration and [done] alone. *)
Theorem Log_frame :
  forall (logrs : LogrRef -> Logr.t) (rec : LogRec) (s : Basic.St),
    let b := Basic.basic s in
    let s' := finalState (Basic.Log logrs rec s) in
    exists k : option Counter,
      (k = None \/ k = Basic.droppedCounter b \/ k = Basic.blockedCounter b)
      /\ (hasRoom s = true -> k = None)
      /\ Basic.world s' = IncIfSet k (Basic.world s)
      /\ (forall h, counterValue h (Basic.world s')
                    = if decide (k = Some h) then S (counterValue h (Basic.world s))
                      else counterValue h (Basic.world s))
      /\ gauges (Basic.world s') = gauges (Basic.world s)
      /\ reported (Basic.world s') = reported (Basic.world s)
      /\ written (Basic.world s') = written (Basic.world s)
      /\ flushed (Basic.world s') = flushed (Basic.world s)
      /\ stderr (Basic.world s') = stderr (Basic.world s)
      /\ config (Basic.basic s') = config (Basic.basic s)
      /\ Basic.done (Basic.basic s') = Basic.done (Basic.basic s).
Proof.
  intros logrs rec s b s'. subst b s'.
  destruct (Log_static logrs rec s) as (Hc & _ & Hd).
  assert (Hk : exists k : option Counter,
             (k = None \/ k = Basic.droppedCounter (Basic.basic s)
              \/ k = Basic.blockedCounter (Basic.basic s))
             /\ (hasRoom s = true -> k = None)
             /\ Basic.world (finalState (Basic.Log logrs rec s))
                = IncIfSet k (Basic.world s)).
  { unfold hasRoom, Basic.Log, Basic.LogQueueFull. run_go.
    destruct (Basic.in_ (Basic.basic s)) as [c|].
    - destruct (closed c); cbn [negb andb].
      + exists None. cbn. tauto.
      + destruct (sendReady c).
        * exists None. cbn. tauto.
        * match goal with |- context [if ?cond then _ else _] => destruct cond end.
          -- exists (Basic.droppedCounter (Basic.basic s)). cbn.
             split; [tauto |]. split; [discriminate | reflexivity].
          -- exists (Basic.blockedCounter (Basic.basic s)). cbn.
             split; [tauto |]. split; [discriminate | reflexivity].
    - match goal with |- context [if ?cond then _ else _] => destruct cond end.
      + exists (Basic.droppedCounter (Basic.basic s)). cbn.
        split; [tauto |]. split; [discriminate | reflexivity].
      + exists (Basic.blockedCounter (Basic.basic s)). cbn.
        split; [tauto |]. split; [discriminate | reflexivity]. }
  destruct Hk as (k & Hwhich & Hroom & Hwd).
  exists k. rewrite Hwd.
  destruct (IncIfSet_spec k (Basic.world s)) as (_ & _ & _ & Hg & Hr & Hse & Hw & Hf).
  split; [exact Hwhich |]. split; [exact Hroom |]. split; [reflexivity |].
  split; [apply (counterValue_after_IncIfSet k (Basic.world s)); reflexivity |].
  repeat split; assumption.
Qed.

(** X25. A step of the worker (loop or flush drain) changes the counters by
    exactly one Inc on at most one handle, that counter going up by exactly
    one and every other counter keeping its value, and never touches a
    gauge.  The handle is the logged counter only in the loop, when the
    writer answered nil for the record just received, and nothing is
    reported then; it is the error counter only when the writer returned an
    error for the record just received, and then exactly that error is
    reported to that record's logger; in every other case no counter moves
    and nothing is reported. *)
Theorem workerStep_frame :
  forall (pc : Basic.WorkerPC) (s : Basic.St),
    let b := Basic.basic s in
    let wd := Basic.world s in
    let s' := snd (Basic.workerStep pc s) in
    exists k : option Counter,
      counters (Basic.world s') = counters (IncIfSet k wd)
      /\ (forall h, counterValue h (Basic.world s')
                    = if decide (k = Some h) then S (counterValue h wd)
                      else counterValue h wd)
      /\ gauges (Basic.world s') = gauges wd
      /\ ((k = None /\ reported (Basic.world s') = reported wd)
          \/ (exists (c c' : Chan) (rec : LogRec) (rw : RecordWriter),
                pc = Basic.InRange
                /\ Basic.in_ b = Some c /\ recvNow c = Some (rec, c') /\ flush rec = None
                /\ Basic.w b = Some rw /\ Write rw (written wd) rec = WriteOk
                /\ k = Basic.loggedCounter b
                /\ reported (Basic.world s') = reported wd)
          \/ (exists (c c' : Chan) (rec : LogRec) (rw : RecordWriter) (e : error),
                pc <> Basic.Exited
                /\ Basic.in_ b = Some c /\ recvNow c = Some (rec, c') /\ flush rec = None
                /\ Basic.w b = Some rw /\ Write rw (written wd) rec = WriteErr e
                /\ k = Basic.errorCounter b
                /\ reported (Basic.world s') = reported wd ++ [(recLogr rec, e)])).
Proof.
  intros pc s b wd s'. subst b wd s'.
  (* a step that moves no counter and reports nothing *)
  assert (Hnone : forall s1 : Basic.St,
             snd (Basic.workerStep pc s) = s1 ->
             counters (Basic.world s1) = counters (Basic.world s) ->
             gauges (Basic.world s1) = gauges (Basic.world s) ->
             reported (Basic.world s1) = reported (Basic.world s) ->
             exists k : option Counter,
               counters (Basic.world (snd (Basic.workerStep pc s)))
               = counters (IncIfSet k (Basic.world s))
               /\ (forall h, counterValue h (Basic.world (snd (Basic.workerStep pc s)))
                             = if decide (k = Some h) then S (counterValue h (Basic.world s))
                               else counterValue h (Basic.world s))
               /\ gauges (Basic.world (snd (Basic.workerStep pc s))) = gauges (Basic.world s)
               /\ ((k = None
                    /\ reported (Basic.world (snd (Basic.workerStep pc s)))
                       = reported (Basic.world s))
                   \/ (exists (c c' : Chan) (rec : LogRec) (rw : RecordWriter),
                         pc = Basic.InRange
                         /\ Basic.in_ (Basic.basic s) = Some c
                         /\ recvNow c = Some (rec, c') /\ flush rec = None
                         /\ Basic.w (Basic.basic s) = Some rw
                         /\ Write rw (written (Basic.world s)) rec = WriteOk
                         /\ k = Basic.loggedCounter (Basic.basic s)
                         /\ reported (Basic.world (snd (Basic.workerStep pc s)))
                            = reported (Basic.world s))
                   \/ (exists (c c' : Chan) (rec : LogRec) (rw : RecordWriter) (e : error),
                         pc <> Basic.Exited
                         /\ Basic.in_ (Basic.basic s) = Some c
                         /\ recvNow c = Some (rec, c') /\ flush rec = None
                         /\ Basic.w (Basic.basic s) = Some rw
                         /\ Write rw (written (Basic.world s)) rec = WriteErr e
                         /\ k = Basic.errorCounter (Basic.basic s)
                         /\ reported (Basic.world (snd (Basic.workerStep pc s)))
                            = reported (Basic.world s) ++ [(recLogr rec, e)]))).
  { intros s1 -> Hcnt Hg Hr. exists None. cbn [IncIfSet].
    split; [exact Hcnt |].
    split; [apply (counterValue_after_IncIfSet None (Basic.world s)); exact Hcnt |].
    split; [exact Hg |]. left. split; [reflexivity | exact Hr]. }
  destruct (Basic.in_ (Basic.basic s)) as [c|] eqn:Hin.
  2:{ destruct pc; eapply Hnone;
        try (unfold_worker; rewrite Hin; reflexivity); reflexivity. }
  destruct pc as [|d|]; [| | eapply Hnone; reflexivity].
  - (* the loop *)
    destruct (recvNow c) as [[rec c']|] eqn:Hrecv.
    + destruct (flush rec) as [d|] eqn:Hfl.
      { eapply Hnone; [rewrite (workerStep_range_marker d s c c' rec Hin Hrecv Hfl) |..];
          reflexivity. }
      destruct (Basic.w (Basic.basic s)) as [rw|] eqn:Hw.
      2:{ eapply Hnone;
            [rewrite (workerStep_range_nil_writer s c c' rec Hin Hrecv Hfl Hw) |..];
            reflexivity. }
      pose proof (workerStep_range_ordinary s c c' rec rw Hin Hrecv Hfl Hw) as Hstep.
      cbv zeta in Hstep.
      destruct (Write rw (written (Basic.world s)) rec) as [|e|v] eqn:Hres.
      * exists (Basic.loggedCounter (Basic.basic s)). rewrite Hstep. cbn [snd Basic.world].
        pose proof (counters_IncIfSet_noteWrite (Basic.loggedCounter (Basic.basic s)) rec
                      (Basic.world s)) as Hcnt.
        split; [exact Hcnt |].
        split; [apply (counterValue_after_IncIfSet _ (Basic.world s)); exact Hcnt |].
        split; [rewrite gauges_IncIfSet; reflexivity |].
        right. left. exists c, c', rec, rw.
        rewrite reported_IncIfSet. repeat split; assumption.
      * exists (Basic.errorCounter (Basic.basic s)). rewrite Hstep. cbn [snd Basic.world].
        pose proof (counters_IncIfSet_noteWrite (Basic.errorCounter (Basic.basic s)) rec
                      (Basic.world s)) as Hcnt.
        cbn [ReportError counters gauges reported].
        split; [exact Hcnt |].
        split; [apply (counterValue_after_IncIfSet _ (Basic.world s)); exact Hcnt |].
        split; [rewrite gauges_IncIfSet; reflexivity |].
        right. right. exists c, c', rec, rw, e.
        rewrite reported_IncIfSet. repeat split; try assumption. discriminate.
      * eapply Hnone; [rewrite Hstep |..]; reflexivity.
    + destruct (closed c) eqn:Hcl.
      * destruct (Basic.done (Basic.basic s)) as [[|]|] eqn:Hd;
          eapply Hnone;
          try (unfold_worker; rewrite Hin, Hrecv, Hcl, Hd; reflexivity); reflexivity.
      * eapply Hnone; [rewrite (workerStep_range_park s c Hin Hrecv Hcl) |..]; reflexivity.
  - (* the flush drain *)
    destruct (recvNow c) as [[rec c']|] eqn:Hrecv.
    + destruct (flush rec) as [d'|] eqn:Hfl.
      { eapply Hnone; [rewrite (workerStep_flush_marker d d' s c c' rec Hin Hrecv Hfl) |..];
          reflexivity. }
      destruct (Basic.w (Basic.basic s)) as [rw|] eqn:Hw.
      2:{ eapply Hnone;
            try (unfold_worker; rewrite Hin, Hrecv, Hfl; cbn [Basic.basic Basic.with_in Basic.w];
                 rewrite Hw; reflexivity);
            reflexivity. }
      pose proof (workerStep_flush_ordinary d s c c' rec rw Hin Hrecv Hfl Hw) as Hstep.
      cbv zeta in Hstep.
      destruct (Write rw (written (Basic.world s)) rec) as [|e|v] eqn:Hres.
      * eapply Hnone; [rewrite Hstep |..]; reflexivity.
      * exists (Basic.errorCounter (Basic.basic s)). rewrite Hstep. cbn [snd Basic.world].
        pose proof (counters_IncIfSet_noteWrite (Basic.errorCounter (Basic.basic s)) rec
                      (Basic.world s)) as Hcnt.
        cbn [ReportError counters gauges reported].
        split; [exact Hcnt |].
        split; [apply (counterValue_after_IncIfSet _ (Basic.world s)); exact Hcnt |].
        split; [rewrite gauges_IncIfSet; reflexivity |].
        right. right. exists c, c', rec, rw, e.
        rewrite reported_IncIfSet. repeat split; try assumption. discriminate.
      * eapply Hnone; [rewrite Hstep |..]; reflexivity.
    + destruct (closed c) eqn:Hcl.
      * eapply Hnone; try (unfold_worker; rewrite Hin, Hrecv, Hcl; reflexivity); reflexivity.
      * eapply Hnone; [rewrite (workerStep_flush_drained d s c Hin Hrecv Hcl) |..];
          reflexivity.
Qed.

(** ** The logger's collector, continued *)

(** X26. On a logger without targets SetMetricsCollector can be called
    again: the collector given last is the one stored, with its handles, as
    if it had been given alone; a call with a nil collector in between
    fails and changes nothing; the targets are not touched, so the logger
    still accepts a collector afterwards. *)
Theorem SetMetricsCollector_last_wins :
  forall (logr : Logr.t) (c1 c2 : MetricsCollector),
    Logr.HasTargets logr = false ->
    exists l1 l2 : Logr.t,
      Logr.SetMetricsCollector (Some c1) logr = Ret None l1
      /\ Logr.SetMetricsCollector None l1 = Ret (Some "collector cannot be nil") l1
      /\ Logr.SetMetricsCollector (Some c2) l1 = Ret None l2
      /\ Logr.SetMetricsCollector (Some c2) logr = Ret None l2
      /\ Logr.metrics l2 = Some c2
      /\ Logr.HasTargets l2 = false.
Proof.
  intros logr c1 c2 Ht. unfold Logr.SetMetricsCollector. rewrite Ht.
  eexists _, _. split; [reflexivity |].
  assert (Ht1 : forall m g l e,
             Logr.HasTargets (Logr.mk (Logr.targets logr) (Logr.OnTargetQueueFull logr)
                                      (Logr.enqueueTimeout logr) m g l e) = false).
  { intros. exact Ht. }
  rewrite Ht1. repeat split. exact Ht.
Qed.

Lemma SetMetricsCollector_last_wins_witness :
  exists l2 : Logr.t,
    Logr.SetMetricsCollector (Some sampleCollector) (sampleLogrs 0%nat) = Ret None l2
    /\ Logr.metrics l2 = Some sampleCollector.
Proof.
  destruct (SetMetricsCollector_last_wins (sampleLogrs 0%nat) sampleCollector sampleCollector
              eq_refl) as (l1 & l2 & _ & _ & _ & H & Hm & _).
  exists l2. split; [exact H | exact Hm].
Defined.
